(** * Cred minting budgets: a verified model of [core/mintBudget.js]

    The development embeds the budget-enforcement module of SourceCred:
    the prefix-conflict check, the resolution of the budget that is
    current for a time interval, the normalization coefficient, and
    [applyBudget], which ties them together and writes the rescaled
    weights into a copy of the weight table.

    Conventions of the embedding.

    - A JavaScript [number] is a binary64 floating-point value: a finite
      double, [Infinity], [-Infinity] or [NaN].  A finite double is held
      as the rational it denotes.  Addition, multiplication and division
      take the exact rational result and round it to the nearest double,
      ties to the even significand, and to an infinity beyond the largest
      double, as IEEE 754 prescribes and JavaScript computes.  The sign of
      zero is not tracked: the one zero stands for [0] and [-0].  The two
      differ as divisors only, and the one divisor of the module, a total
      computed by [d3.sum], is never [-0].
    - Objects that the code shares and mutates (the weight tables) live in
      a heap and are named by references; [applyBudget] is a computation
      in a state-and-exception monad over that heap.
    - The monad also keeps a trace of the evaluator calls and of the
      writes to weight tables, in program order. *)

From Stdlib Require Import QArith Lqa Qround Qpower Qabs Floats.
From stdpp Require Import gmap strings list fin_maps.

Local Open Scope list_scope.

(** ** Binary64 *)

(** The finite doubles and the rounding of a rational to the nearest one.
    A positive double is [m * 2 ^ e] for integers [m < 2 ^ 53] and
    [e >= -1074], and it is below [2 ^ 1024]. *)
Module Binary64.

(** The binary exponent of a positive rational: the [e] with
    [2 ^ e <= q < 2 ^ (e + 1)]. *)
Definition ilog2 (q : Q) : Z :=
  let e := (Z.log2 (Qnum q) - Z.log2 (Zpos (Qden q)))%Z in
  if Qle_bool (2 ^ e)%Q q then e else (e - 1)%Z.

(** The integer nearest to a rational, the even one of the two when it
    lies half-way. *)
Definition rne (q : Q) : Z :=
  let f := Qfloor q in
  match (q - inject_Z f ?= 1 # 2)%Q with
  | Lt => f
  | Gt => (f + 1)%Z
  | Eq => if Z.even f then f else (f + 1)%Z
  end.

(** The exponent of the unit in the last place at a positive rational:
    53 significant bits, and no exponent below that of the subnormals. *)
Definition ulp_exp (q : Q) : Z := Z.max (ilog2 q - 52) (-1074).

(** The multiple of the unit in the last place that is nearest to a
    positive rational. *)
Definition nearest (q : Q) : Q :=
  (inject_Z (rne (q / 2 ^ ulp_exp q)) * 2 ^ ulp_exp q)%Q.

(** A positive rational rounded to a double, in lowest terms; [None] when
    the result is beyond the largest double. *)
Definition round_pos (q : Q) : option Q :=
  let r := nearest q in
  if Qle_bool (2 ^ 1024)%Q r then None else Some (Qred r).

(** A rational rounded to a double; [None] when it overflows, to the
    infinity that has the sign of the rational. *)
Definition round (q : Q) : option Q :=
  match (q ?= 0)%Q with
  | Eq => Some 0%Q
  | Gt => round_pos q
  | Lt => option_map Qopp (round_pos (- q)%Q)
  end.

(** The same fraction, numerator and denominator. *)
Definition same (x y : Q) : bool :=
  Z.eqb (Qnum x) (Qnum y) && Pos.eqb (Qden x) (Qden y).

(** A rational is a double when rounding gives it back as it is written. *)
Definition is_double (q : Q) : bool :=
  match round q with
  | Some r => same r q
  | None => false
  end.

Record double : Type := mk {
  value :> Q;
  value_is_double : is_double value = true
}.

(** The double that a rational is, if it is one. *)
Definition of_Q (q : Q) : option double :=
  match is_double q as b return is_double q = b -> option double with
  | true => fun H => Some (mk q H)
  | false => fun _ => None
  end eq_refl.

End Binary64.

Coercion Binary64.value : Binary64.double >-> Q.

(** ** Numbers *)

Inductive number : Type :=
| Finite (d : Binary64.double)
| PInf
| NInf
| NaN.

(** [Fin q] is the finite number [q], for a [q] that is a double written
    in lowest terms, as every integer of magnitude up to [2 ^ 53] is: that
    [q] is a double is checked by computation. *)
Abbreviation Fin q := (Finite (Binary64.mk q eq_refl)).

Module Num.

Definition zero : number := Fin 0.
Definition one : number := Fin 1.

(** The number nearest to a rational.  [Binary64.round] only returns
    doubles, so that the last case never arises. *)
Definition round (q : Q) : number :=
  match Binary64.round q with
  | Some r =>
      match Binary64.of_Q r with
      | Some d => Finite d
      | None => NaN
      end
  | None => match (q ?= 0)%Q with Lt => NInf | _ => PInf end
  end.

(** [a + b] *)
Definition add (a b : number) : number :=
  match a, b with
  | NaN, _ | _, NaN => NaN
  | PInf, NInf | NInf, PInf => NaN
  | PInf, _ | _, PInf => PInf
  | NInf, _ | _, NInf => NInf
  | Finite x, Finite y => round (x + y)
  end.

(** The sign of a finite value, as [Lt], [Eq] or [Gt] against zero. *)
Definition sign (x : Q) : comparison := (x ?= 0)%Q.

(** [a * b] *)
Definition mul (a b : number) : number :=
  match a, b with
  | NaN, _ | _, NaN => NaN
  | Finite x, Finite y => round (x * y)
  | PInf, PInf | NInf, NInf => PInf
  | PInf, NInf | NInf, PInf => NInf
  | PInf, Finite y | Finite y, PInf =>
      match sign y with Gt => PInf | Lt => NInf | Eq => NaN end
  | NInf, Finite y | Finite y, NInf =>
      match sign y with Gt => NInf | Lt => PInf | Eq => NaN end
  end.

(** [a / b].  A zero divisor is the positive zero: the only divisor in
    the module is a total computed by [d3.sum], which starts from [0]
    and so is never the negative zero. *)
Definition div (a b : number) : number :=
  match a, b with
  | NaN, _ | _, NaN => NaN
  | Finite x, Finite y =>
      match sign y with
      | Eq => match sign x with Gt => PInf | Lt => NInf | Eq => NaN end
      | _ => round (x / y)
      end
  | Finite _, (PInf | NInf) => Fin 0
  | (PInf | NInf), (PInf | NInf) => NaN
  | PInf, Finite y => match sign y with Lt => NInf | _ => PInf end
  | NInf, Finite y => match sign y with Lt => PInf | _ => NInf end
  end.

(** [a <= b] *)
Definition leb (a b : number) : bool :=
  match a, b with
  | NaN, _ | _, NaN => false
  | NInf, _ | _, PInf => true
  | _, NInf | PInf, _ => false
  | Finite x, Finite y => Qle_bool x y
  end.

(** [a < b] *)
Definition ltb (a b : number) : bool :=
  match a, b with
  | NaN, _ | _, NaN => false
  | NInf, NInf | PInf, PInf => false
  | NInf, _ | _, PInf => true
  | _, NInf | PInf, _ => false
  | Finite x, Finite y => negb (Qle_bool y x)
  end.

(** [a === b] *)
Definition eqb (a b : number) : bool :=
  match a, b with
  | Finite x, Finite y => Qeq_bool x y
  | PInf, PInf | NInf, NInf => true
  | _, _ => false
  end.

Definition isFinite (a : number) : bool :=
  match a with Finite _ => true | _ => false end.

Definition isNaN (a : number) : bool :=
  match a with NaN => true | _ => false end.

End Num.

(** A float of the machine as a number: the kernel's binary64 values,
    read through their sign, significand and exponent.  It serves to
    compare the arithmetic of [Num] with the machine's. *)
Definition of_float (f : float) : number :=
  match Prim2SF f with
  | S754_zero _ => Num.zero
  | S754_infinity false => PInf
  | S754_infinity true => NInf
  | S754_nan => NaN
  | S754_finite s m e =>
      Num.round ((if s then -1 else 1) * inject_Z (Zpos m) * 2 ^ e)%Q
  end.

(** ** Addresses *)

(** Modelled from the spec: the address module ([core/graph],
    [NodeAddress]) is not part of the sources at hand.  An address is an
    "immutable ordered sequence of opaque tokens", and it has a prefix when
    the prefix's tokens "are a leading subsequence" of its own. *)
Definition NodeAddressT : Type := list string.

Module NodeAddress.

Definition empty : NodeAddressT := [].

Definition fromParts (parts : list string) : NodeAddressT := parts.

(** [hasPrefix address prefix]: does [address] start with [prefix]? *)
Fixpoint hasPrefix (address prefix : NodeAddressT) : bool :=
  match prefix, address with
  | [], _ => true
  | _ :: _, [] => false
  | p :: prefix', a :: address' =>
      if String.eqb p a then hasPrefix address' prefix' else false
  end.

End NodeAddress.

(** ** The prefix-conflict check *)

(** [addresses[i]]; every use below is in range. *)
Definition at_index (addresses : list NodeAddressT) (i : nat) : NodeAddressT :=
  nth i addresses NodeAddress.empty.

(** The two nested loops of [_anyCommonPrefixes] only ever leave early to
    return [true]; each is an [existsb] over the indices it visits:
    [i] from [0], and [j] from [i], both below [addresses.length]. *)
Definition _anyCommonPrefixes (addresses : list NodeAddressT) : bool :=
  existsb
    (fun i =>
       existsb
         (fun j =>
            if Nat.eqb i j then false
            else if NodeAddress.hasPrefix (at_index addresses i) (at_index addresses j)
                 then true
                 else NodeAddress.hasPrefix (at_index addresses j) (at_index addresses i))
         (seq i (length addresses - i)))
    (seq 0 (length addresses)).

(** ** The budget policy *)

Definition TimestampMs : Type := number.

Module BudgetPeriod.
Record t : Type := mk {
  startTimeMs : TimestampMs;  (* when this budget policy starts *)
  budget : number             (* how much may be minted per interval *)
}.
End BudgetPeriod.

Module BudgetEntry.
Record t : Type := mk {
  prefix : NodeAddressT;
  periods : list BudgetPeriod.t
}.
End BudgetEntry.

(** The static type of [intervalLength] has the single inhabitant
    ["WEEKLY"]; at run time the field is a string, and [applyBudget]
    compares it against that literal. *)
Module Budget.
Record t : Type := mk {
  entries : list BudgetEntry.t;
  intervalLength : string
}.
End Budget.

(** ** Nodes, intervals and the interval partition *)

(** Modelled from the spec: the declarations of graph nodes and of the
    interval partition ([core/graph], [core/interval]) are not part of the
    sources at hand.  A node has "an Address and a timestamp"; a partition
    is an "ordered sequence of {interval: {startTime}, nodes: sequence of
    graph nodes}".  The edges that a bucket also carries are never read by
    this module and are left out. *)
Module Node.
Record t : Type := mk {
  address : NodeAddressT;
  timestampMs : option TimestampMs
}.
End Node.

Module Interval.
Record t : Type := mk {
  startTimeMs : TimestampMs;
  endTimeMs : TimestampMs
}.
End Interval.

Module Bucket.
Record t : Type := mk {
  interval : Interval.t;
  nodes : list Node.t
}.
End Bucket.

Definition GraphIntervalPartition : Type := list Bucket.t.

(** ** Sortedness of the periods *)

(** The loop of [inSortedOrder], with [last] as the loop variable. *)
Fixpoint inSortedOrder_from (last : number) (xs : list number) : bool :=
  match xs with
  | [] => true
  | x :: xs' => if Num.ltb x last then false else inSortedOrder_from x xs'
  end.

Definition inSortedOrder (xs : list number) : bool :=
  inSortedOrder_from NInf xs.

(** ** The budget that is current at a timestamp *)

(** The [while] loop of [_findCurrentBudget].  [rest] is the part of
    [periods] from index [currentIndex + 1] on: the loop goes on while
    [rest] is not empty and its head has started by [timestamp]. *)
Fixpoint findCurrentBudget_loop (rest : list BudgetPeriod.t) (timestamp : TimestampMs)
    (currentBudget : number) : number :=
  match rest with
  | [] => currentBudget
  | p :: rest' =>
      if Num.leb (BudgetPeriod.startTimeMs p) timestamp
      then findCurrentBudget_loop rest' timestamp (BudgetPeriod.budget p)
      else currentBudget
  end.

Definition _findCurrentBudget (periods : list BudgetPeriod.t) (timestamp : TimestampMs) : number :=
  findCurrentBudget_loop periods timestamp PInf.

(** ** The normalization coefficient *)

Module AddressWeight.
Record t : Type := mk {
  address : NodeAddressT;
  weight : number
}.
End AddressWeight.

Module d3.
(** [sum(values, valueof)] of d3-array, an external package: the sum
    of the values the accessor returns, starting from [0] and ignoring
    the ones that are [NaN]. *)
Definition sum_step {A : Type} (valueof : A -> number) (sum : number) (v : A) : number :=
  let value := valueof v in
  if Num.isNaN value then sum else Num.add sum value.

Definition sum {A : Type} (values : list A) (valueof : A -> number) : number :=
  fold_left (sum_step valueof) values Num.zero.
End d3.

Definition _computeWeightNormalizer (aws : list AddressWeight.t) (budget : number) : number :=
  let totalWeight := d3.sum aws AddressWeight.weight in
  if Num.leb totalWeight budget then Num.one
  else Num.div budget totalWeight.

(** ** Weight tables, the heap and the monad *)

(** Modelled from the spec: the weight table ([core/weights]) is not
    part of the sources at hand.  It is a "mutable mapping Address ->
    weight"; the edge weights stored next to it are copied by
    [Weights.copy] and otherwise never touched by this module. *)
Module Weights.
Record t : Type := mk {
  nodeWeights : gmap NodeAddressT number
}.

Definition empty : t := mk ∅.

(** [weights.nodeWeights.set(address, weight)] on the table's value. *)
Definition set (address : NodeAddressT) (weight : number) (w : t) : t :=
  mk (<[address := weight]> (nodeWeights w)).
End Weights.

Module NullUtil.
(** [orElse(x, defaultValue)]: [x] unless it is null or undefined. *)
Definition orElse {A : Type} (x : option A) (defaultValue : A) : A :=
  match x with Some v => v | None => defaultValue end.
End NullUtil.

(** A reference to a weight table: its index in the heap. *)
Definition loc : Type := nat.

Inductive Event : Type :=
| Evaluate (address : NodeAddressT)
    (* the node-weight evaluator was called on [address] *)
| SetWeight (table : loc) (address : NodeAddressT) (weight : number).
    (* [nodeWeights.set(address, weight)] on the table at [table] *)

Record State : Type := mkState {
  heap : list Weights.t;
  trace : list Event
}.

Inductive Error : Type :=
| PrefixConflict                             (* budget prefix conflict detected *)
| NonWeekly                                  (* non-weekly budgets not supported *)
| PeriodsOutOfOrder (prefix : NodeAddressT)  (* budget for <prefix> has periods out-of-order *)
| TypeError.                                 (* a reference that names no object *)

Inductive Result (A : Type) : Type :=
| Ok (a : A)
| Throw (e : Error).
Arguments Ok {A} a.
Arguments Throw {A} e.

Definition M (A : Type) : Type := State -> Result A * State.

Definition ret {A : Type} (a : A) : M A := fun s => (Ok a, s).

Definition bind {A B : Type} (m : M A) (k : A -> M B) : M B :=
  fun s => match m s with
           | (Ok a, s') => k a s'
           | (Throw e, s') => (Throw e, s')
           end.

Definition throw {A : Type} (e : Error) : M A := fun s => (Throw e, s).

Notation "x <- m ;; k" := (bind m (fun x => k))
  (at level 100, m at next level, right associativity).
Notation "m ;;; k" := (bind m (fun _ => k))
  (at level 100, right associativity).

Definition emit (ev : Event) : M unit :=
  fun s => (Ok tt, mkState (heap s) (trace s ++ [ev])).

(** Dereference a table.  Every reference held by a JavaScript program
    names an object; a heap that lacks it makes the access a [TypeError]. *)
Definition readWeights (l : loc) : M Weights.t :=
  fun s => match heap s !! l with
           | Some w => (Ok w, s)
           | None => (Throw TypeError, s)
           end.

(** [table.nodeWeights.set(address, weight)] *)
Definition setNodeWeight (l : loc) (address : NodeAddressT) (weight : number) : M unit :=
  w <- readWeights l ;;
  fun s => (Ok tt, mkState (<[l := Weights.set address weight w]> (heap s))
                           (trace s ++ [SetWeight l address weight])).

(** Modelled from the spec: [Weights.copy] allocates "an
    independently-owned copy of the weight mapping". *)
Definition Weights_copy (l : loc) : M loc :=
  w <- readWeights l ;;
  fun s => (Ok (length (heap s)), mkState (heap s ++ [w]) (trace s)).

(** [xs.map(f)] for an [f] with effects, left to right. *)
Fixpoint mapM {A B : Type} (f : A -> M B) (xs : list A) : M (list B) :=
  match xs with
  | [] => ret []
  | x :: xs' => y <- f x ;; ys <- mapM f xs' ;; ret (y :: ys)
  end.

(** [for (const x of xs) body(x)] *)
Fixpoint forEach {A : Type} (xs : list A) (body : A -> M unit) : M unit :=
  match xs with
  | [] => ret tt
  | x :: xs' => body x ;;; forEach xs' body
  end.

(** ** The node-weight evaluator *)

(** The effective weight of an address under a table: its entry, or [1]. *)
Definition nodeWeight (w : Weights.t) (a : NodeAddressT) : number :=
  NullUtil.orElse (Weights.nodeWeights w !! a) Num.one.

Definition NodeWeightEvaluator : Type := NodeAddressT -> M number.

(** Modelled from the spec: the evaluator
    ([core/algorithm/weightEvaluator]) is not part of the sources at
    hand.  It "resolves a node's effective weight, defaulting unset
    entries to [1]"; it is built from the table as it is when
    [nodeWeightEvaluator] is called, and every call is recorded in the
    trace. *)
Definition evaluatorOf (w : Weights.t) : NodeWeightEvaluator :=
  fun a => emit (Evaluate a) ;;; ret (nodeWeight w a).

Definition nodeWeightEvaluator (weights : loc) : M NodeWeightEvaluator :=
  w <- readWeights weights ;;
  ret (evaluatorOf w).

(** ** Reweightings *)

Module Reweight.
Record t : Type := mk {
  address : NodeAddressT;
  weight : number
}.
End Reweight.

Definition Reweighting : Type := list Reweight.t.

(** The addresses of a bucket's nodes that have the prefix. *)
Definition filteredAddresses (prefix : NodeAddressT) (bucket : Bucket.t) : list NodeAddressT :=
  List.filter (fun a => NodeAddress.hasPrefix a prefix)
              (map Node.address (Bucket.nodes bucket)).

(** The body of the loop over the partition in [_reweightingForEntry];
    what it pushes onto [results] is its value. *)
Definition reweightingForBucket (evaluator : NodeWeightEvaluator)
    (entry : BudgetEntry.t) (bucket : Bucket.t) : M Reweighting :=
  let budget := _findCurrentBudget (BudgetEntry.periods entry)
                                   (Interval.startTimeMs (Bucket.interval bucket)) in
  let filtered := filteredAddresses (BudgetEntry.prefix entry) bucket in
  addressWeights <- mapM (fun a => w <- evaluator a ;; ret (AddressWeight.mk a w)) filtered ;;
  let normalizer := _computeWeightNormalizer addressWeights budget in
  if negb (Num.eqb normalizer Num.one)
  then ret (map (fun address => Reweight.mk address normalizer) filtered)
  else ret [].

Definition _reweightingForEntry (evaluator : NodeWeightEvaluator)
    (partition : GraphIntervalPartition) (entry : BudgetEntry.t) : M Reweighting :=
  if negb (inSortedOrder (map BudgetPeriod.startTimeMs (BudgetEntry.periods entry)))
  then throw (PeriodsOutOfOrder (BudgetEntry.prefix entry))
  else
    results <- mapM (reweightingForBucket evaluator entry) partition ;;
    ret (concat results).

Section MintBudget.

(** The graph is an object of [core/graph]; this module passes it on
    and asks for its interval partition, nothing else. *)
Variable Graph : Type.

(** [partitionGraph] of [core/interval], the external provider of the
    "ordered weekly bucket structure". *)
Variable partitionGraph : Graph -> GraphIntervalPartition.

Record WeightedGraphT : Type := mkWeightedGraph {
  graph : Graph;
  weights : loc
}.

Definition _computeReweighting (wg : WeightedGraphT) (budget : Budget.t) : M Reweighting :=
  evaluator <- nodeWeightEvaluator (weights wg) ;;
  let partition := partitionGraph (graph wg) in
  reweightingsForEachBudget <-
    mapM (fun entry => _reweightingForEntry evaluator partition entry)
         (Budget.entries budget) ;;
  ret (concat reweightingsForEachBudget).

Definition applyBudget (wg : WeightedGraphT) (budget : Budget.t) : M WeightedGraphT :=
  if _anyCommonPrefixes (map BudgetEntry.prefix (Budget.entries budget))
  then throw PrefixConflict
  else if negb (String.eqb (Budget.intervalLength budget) "WEEKLY")
  then throw NonWeekly
  else
    newWeights <- Weights_copy (weights wg) ;;
    reweighting <- _computeReweighting wg budget ;;
    forEach reweighting
      (fun r =>
         w <- readWeights (weights wg) ;;
         let existingWeight :=
           NullUtil.orElse (Weights.nodeWeights w !! Reweight.address r) Num.one in
         setNodeWeight newWeights (Reweight.address r)
                       (Num.mul existingWeight (Reweight.weight r))) ;;;
    ret (mkWeightedGraph (graph wg) newWeights).

End MintBudget.

Arguments graph {Graph} _.
Arguments weights {Graph} _.
Arguments mkWeightedGraph {Graph} _ _.
Arguments _computeReweighting {Graph} _ _ _.
Arguments applyBudget {Graph} _ _ _.

(** ** Notions used in the statements *)

(** Two addresses overlap when either is a prefix of the other. *)
Definition overlap (a b : NodeAddressT) : bool :=
  NodeAddress.hasPrefix a b || NodeAddress.hasPrefix b a.

(** A list of numbers is non-decreasing when each element is [<=] its
    successor.  A list of two or more elements that holds a [NaN] is not. *)
Definition nonDecreasing (xs : list number) : Prop :=
  forall i x y, xs !! i = Some x -> xs !! S i = Some y -> Num.leb x y = true.

(** The total effective weight of some addresses under a table, summed the
    way [_computeWeightNormalizer] sums. *)
Definition totalWeight (w : Weights.t) (addresses : list NodeAddressT) : number :=
  d3.sum addresses (nodeWeight w).

(** The budget of an entry for a bucket. *)
Definition bucketBudget (entry : BudgetEntry.t) (bucket : Bucket.t) : number :=
  _findCurrentBudget (BudgetEntry.periods entry)
                     (Interval.startTimeMs (Bucket.interval bucket)).

(** What [reweightingForBucket] returns, as a function of the table the
    evaluator was built from. *)
Definition bucketReweighting (w : Weights.t) (entry : BudgetEntry.t) (bucket : Bucket.t)
    : Reweighting :=
  let filtered := filteredAddresses (BudgetEntry.prefix entry) bucket in
  let addressWeights := map (fun a => AddressWeight.mk a (nodeWeight w a)) filtered in
  let normalizer := _computeWeightNormalizer addressWeights (bucketBudget entry bucket) in
  if negb (Num.eqb normalizer Num.one)
  then map (fun address => Reweight.mk address normalizer) filtered
  else [].

(** The coefficient that [reweightingForBucket] computes. *)
Definition bucketNormalizer (w : Weights.t) (entry : BudgetEntry.t) (bucket : Bucket.t)
    : number :=
  _computeWeightNormalizer
    (map (fun a => AddressWeight.mk a (nodeWeight w a))
         (filteredAddresses (BudgetEntry.prefix entry) bucket))
    (bucketBudget entry bucket).

(** All the addresses of a partition, bucket after bucket. *)
Definition partitionAddresses (partition : GraphIntervalPartition) : list NodeAddressT :=
  concat (map (fun bucket => map Node.address (Bucket.nodes bucket)) partition).

(** The addresses that an entry matches, bucket after bucket: the
    arguments of the evaluator calls made for the entry, in order. *)
Definition entryAddresses (partition : GraphIntervalPartition) (entry : BudgetEntry.t)
    : list NodeAddressT :=
  concat (map (filteredAddresses (BudgetEntry.prefix entry)) partition).

(** What [_reweightingForEntry] returns for an entry whose periods are in
    order, and what [_computeReweighting] returns when all entries are. *)
Definition entryReweighting (w : Weights.t) (partition : GraphIntervalPartition)
    (entry : BudgetEntry.t) : Reweighting :=
  concat (map (bucketReweighting w entry) partition).

Definition reweightingOf (w : Weights.t) (partition : GraphIntervalPartition)
    (entries : list BudgetEntry.t) : Reweighting :=
  concat (map (entryReweighting w partition) entries).

(** The check that [_reweightingForEntry] makes on an entry. *)
Definition periodsInOrder (entry : BudgetEntry.t) : bool :=
  inSortedOrder (map BudgetPeriod.startTimeMs (BudgetEntry.periods entry)).

(** The weight that [applyBudget] writes for a reweight record: the
    effective weight under the original table times the record's factor. *)
Definition newWeight (w : Weights.t) (r : Reweight.t) : number :=
  Num.mul (nodeWeight w (Reweight.address r)) (Reweight.weight r).

(** The table that the writes of [applyBudget] leave behind, starting from
    the copy [acc] of the original table [w]. *)
Definition applyReweighting (w : Weights.t) (reweighting : Reweighting) (acc : Weights.t)
    : Weights.t :=
  fold_left (fun acc r => Weights.set (Reweight.address r) (newWeight w r) acc)
            reweighting acc.

(** The trace of those writes. *)
Definition writeEvents (l : loc) (w : Weights.t) (reweighting : Reweighting) : list Event :=
  map (fun r => SetWeight l (Reweight.address r) (newWeight w r)) reweighting.

(** A state with more events at the end of its trace. *)
Definition logEvents (s : State) (events : list Event) : State :=
  mkState (heap s) (trace s ++ events).

(** The evaluator calls made for some entries, in order. *)
Definition evaluations (partition : GraphIntervalPartition) (entries : list BudgetEntry.t)
    : list Event :=
  concat (map (fun entry => map Evaluate (entryAddresses partition entry)) entries).

Definition isSetWeight (ev : Event) : bool :=
  match ev with SetWeight _ _ _ => true | Evaluate _ => false end.

(** ** The tests of the module, replayed *)

Module Tests.
Local Open Scope string_scope.

Definition foo : NodeAddressT := NodeAddress.fromParts ["foo"].
Definition bar : NodeAddressT := NodeAddress.fromParts ["bar"].

(** The graphs of the end-to-end tests: nodes ["1"] and ["2"] and their
    weights.  A graph is given here by its interval partition. *)
Definition a1 : NodeAddressT := NodeAddress.fromParts ["1"].
Definition a2 : NodeAddressT := NodeAddress.fromParts ["2"].

Definition week1 : Interval.t := Interval.mk (Fin (-345600000)) (Fin 259200000).
Definition week2 : Interval.t := Interval.mk (Fin 259200000) (Fin 864000000).

Definition node (a : NodeAddressT) (i : Interval.t) : Node.t :=
  Node.mk a (Some (Interval.startTimeMs i)).

Definition table (weight1 weight2 : number) : Weights.t :=
  Weights.set a2 weight2 (Weights.set a1 weight1 Weights.empty).

Definition oneNode : GraphIntervalPartition :=
  [Bucket.mk week1 [node a1 week1]].
Definition sameWeek : GraphIntervalPartition :=
  [Bucket.mk week1 [node a1 week1; node a2 week1]].
Definition twoWeeks : GraphIntervalPartition :=
  [Bucket.mk week1 [node a1 week1]; Bucket.mk week2 [node a2 week2]].

Definition weightedGraph (g : GraphIntervalPartition) : WeightedGraphT GraphIntervalPartition :=
  mkWeightedGraph g 0.

Definition partitionGraph (g : GraphIntervalPartition) : GraphIntervalPartition := g.

Definition initial (w : Weights.t) : State := mkState [w] [].

Definition always (budget : number) : BudgetEntry.t :=
  BudgetEntry.mk NodeAddress.empty [BudgetPeriod.mk NInf budget].
Definition weekly (entries : list BudgetEntry.t) : Budget.t :=
  Budget.mk entries "WEEKLY".

(** A policy whose second entry has its periods out of order. *)
Definition entry1 : BudgetEntry.t := BudgetEntry.mk a1 [BudgetPeriod.mk NInf (Fin 10)].
Definition entry2 : BudgetEntry.t :=
  BudgetEntry.mk a2 [BudgetPeriod.mk (Fin 50) (Fin 100); BudgetPeriod.mk (Fin 25) (Fin 50)].

(** The effective weights of ["1"] and ["2"] under the table that a run
    returns. *)
Definition resultWeights (run : Result (WeightedGraphT GraphIntervalPartition) * State)
    : option (number * number) :=
  match fst run with
  | Ok wg' =>
      match heap (snd run) !! weights wg' with
      | Some w' => Some (nodeWeight w' a1, nodeWeight w' a2)
      | None => None
      end
  | Throw _ => None
  end.

Definition p1 := BudgetPeriod.mk (Fin 0) (Fin 1).
Definition p2 := BudgetPeriod.mk (Fin 1) (Fin 2).
Definition p3 := BudgetPeriod.mk (Fin 1) (Fin 3).
Definition p4 := BudgetPeriod.mk (Fin 2) (Fin 4).

Example anyCommonPrefixes_empty_foo :
  _anyCommonPrefixes [NodeAddress.empty; foo] = true
  /\ _anyCommonPrefixes [foo; NodeAddress.empty] = true.
Proof. split; reflexivity. Qed.

Example anyCommonPrefixes_bar_foo : _anyCommonPrefixes [bar; foo] = false.
Proof. reflexivity. Qed.

Example findCurrentBudget_no_periods : _findCurrentBudget [] (Fin 0) = PInf.
Proof. reflexivity. Qed.

Example findCurrentBudget_not_yet_active :
  _findCurrentBudget [BudgetPeriod.mk (Fin 1) (Fin 100)] (Fin 0) = PInf.
Proof. reflexivity. Qed.

Example findCurrentBudget_latest : _findCurrentBudget [p1; p2; p3; p4] (Fin 1) = Fin 3.
Proof. reflexivity. Qed.

Example findCurrentBudget_last : _findCurrentBudget [p1; p2; p3; p4] (Fin 9) = Fin 4.
Proof. reflexivity. Qed.

Example applyBudget_prefix_conflict :
  fst (applyBudget partitionGraph (weightedGraph [])
         (weekly [BudgetEntry.mk NodeAddress.empty []; BudgetEntry.mk foo []])
         (initial Weights.empty))
  = Throw PrefixConflict.
Proof. reflexivity. Qed.

Example applyBudget_not_weekly :
  fst (applyBudget partitionGraph (weightedGraph []) (Budget.mk [] "DAILY")
         (initial Weights.empty))
  = Throw NonWeekly.
Proof. reflexivity. Qed.

Example applyBudget_out_of_order :
  fst (applyBudget partitionGraph (weightedGraph [])
         (weekly [BudgetEntry.mk NodeAddress.empty
                    [BudgetPeriod.mk (Fin 50) (Fin 100); BudgetPeriod.mk (Fin 25) (Fin 50)]])
         (initial Weights.empty))
  = Throw (PeriodsOutOfOrder NodeAddress.empty).
Proof. reflexivity. Qed.

(** Weights 100 and 200 in two weeks, budget 50: both become 50. *)
Example applyBudget_reduced :
  match resultWeights (applyBudget partitionGraph (weightedGraph twoWeeks)
                         (weekly [always (Fin 50)]) (initial (table (Fin 100) (Fin 200)))) with
  | Some (x, y) => Num.eqb x (Fin 50) && Num.eqb y (Fin 50)
  | None => false
  end = true.
Proof. vm_compute. reflexivity. Qed.

(** Weights 10 and 90 in one week, budget 10: they become 1 and 9. *)
Example applyBudget_contention :
  match resultWeights (applyBudget partitionGraph (weightedGraph sameWeek)
                         (weekly [always (Fin 10)]) (initial (table (Fin 10) (Fin 90)))) with
  | Some (x, y) => Num.eqb x (Fin 1) && Num.eqb y (Fin 9)
  | None => false
  end = true.
Proof. vm_compute. reflexivity. Qed.

(** Weights 5 and 15 in two weeks, budget 10: 5 stays, 15 becomes 10. *)
Example applyBudget_under_budget :
  match resultWeights (applyBudget partitionGraph (weightedGraph twoWeeks)
                         (weekly [always (Fin 10)]) (initial (table (Fin 5) (Fin 15)))) with
  | Some (x, y) => Num.eqb x (Fin 5) && Num.eqb y (Fin 10)
  | None => false
  end = true.
Proof. vm_compute. reflexivity. Qed.
End Tests.

(** * Properties *)

(** ** Addresses and prefixes *)

Section Prefixes.

Lemma hasPrefix_prefix_of (address prefix : NodeAddressT) :
  NodeAddress.hasPrefix address prefix = true <-> prefix `prefix_of` address.
Proof.
  revert address. induction prefix as [|p prefix IH]; intros address; simpl.
  - split; [intros _; apply prefix_nil | destruct address; reflexivity].
  - destruct address as [|a address]; simpl.
    + split; [discriminate | intros H; apply prefix_nil_inv in H; discriminate].
    + destruct (String.eqb_spec p a) as [->|Hne].
      * rewrite IH. split; [apply prefix_cons | apply prefix_cons_inv_2].
      * split; [discriminate | intros H; apply prefix_cons_inv_1 in H; contradiction].
Qed.

Lemma hasPrefix_refl (a : NodeAddressT) : NodeAddress.hasPrefix a a = true.
Proof. apply hasPrefix_prefix_of. reflexivity. Qed.

Lemma hasPrefix_empty (a : NodeAddressT) : NodeAddress.hasPrefix a NodeAddress.empty = true.
Proof. destruct a; reflexivity. Qed.

(** Two prefixes of one address overlap. *)
Lemma hasPrefix_common (a p q : NodeAddressT) :
  NodeAddress.hasPrefix a p = true -> NodeAddress.hasPrefix a q = true ->
  overlap p q = true.
Proof.
  rewrite !hasPrefix_prefix_of. intros Hp Hq. unfold overlap.
  apply orb_true_iff.
  destruct (prefix_weak_total _ _ _ Hp Hq) as [H|H];
    [right | left]; apply hasPrefix_prefix_of; exact H.
Qed.

Lemma overlap_sym (a b : NodeAddressT) : overlap a b = overlap b a.
Proof. unfold overlap. apply orb_comm. Qed.

Lemma overlap_refl (a : NodeAddressT) : overlap a a = true.
Proof. unfold overlap. rewrite hasPrefix_refl. reflexivity. Qed.

End Prefixes.

(** ** The prefix-conflict check *)

Section AnyCommonPrefixes.

Lemma at_index_lookup (addresses : list NodeAddressT) (i : nat) (x : NodeAddressT) :
  addresses !! i = Some x -> at_index addresses i = x.
Proof. intros H. unfold at_index. apply nth_lookup_Some. exact H. Qed.

Lemma lookup_at_index (addresses : list NodeAddressT) (i : nat) :
  i < length addresses -> addresses !! i = Some (at_index addresses i).
Proof.
  intros H. destruct (nth_lookup_or_length addresses i NodeAddress.empty) as [E|E].
  - exact E.
  - lia.
Qed.

(** The body of the inner loop, for two distinct indices. *)
Lemma inner_body_overlap (addresses : list NodeAddressT) (i j : nat) :
  i <> j ->
  (if Nat.eqb i j then false
   else if NodeAddress.hasPrefix (at_index addresses i) (at_index addresses j)
        then true
        else NodeAddress.hasPrefix (at_index addresses j) (at_index addresses i))
  = overlap (at_index addresses i) (at_index addresses j).
Proof.
  intros Hne. apply Nat.eqb_neq in Hne. rewrite Hne. unfold overlap.
  destruct (NodeAddress.hasPrefix (at_index addresses i) (at_index addresses j)); reflexivity.
Qed.

(** The loops find a conflict exactly when two positions [i < j] hold
    overlapping addresses. *)
Lemma anyCommonPrefixes_ordered (addresses : list NodeAddressT) :
  _anyCommonPrefixes addresses = true <->
  exists i j, i < j /\ j < length addresses /\
              overlap (at_index addresses i) (at_index addresses j) = true.
Proof.
  unfold _anyCommonPrefixes. rewrite existsb_exists. split.
  - intros (i & Hi & Hin). apply existsb_exists in Hin as (j & Hj & Hbody).
    apply in_seq in Hi, Hj.
    destruct (Nat.eq_dec i j) as [->|Hne].
    + rewrite Nat.eqb_refl in Hbody. discriminate.
    + rewrite inner_body_overlap in Hbody by exact Hne.
      exists i, j. repeat split; [lia | lia | exact Hbody].
  - intros (i & j & Hij & Hj & Hov). exists i. split.
    + apply in_seq. lia.
    + apply existsb_exists. exists j. split.
      * apply in_seq. lia.
      * rewrite inner_body_overlap by lia. exact Hov.
Qed.

Lemma anyCommonPrefixes_distinct (addresses : list NodeAddressT) :
  _anyCommonPrefixes addresses = true <->
  exists i j, i < length addresses /\ j < length addresses /\ i <> j /\
              overlap (at_index addresses i) (at_index addresses j) = true.
Proof.
  rewrite anyCommonPrefixes_ordered. split.
  - intros (i & j & Hij & Hj & Hov). exists i, j. repeat split; [lia | lia | lia | exact Hov].
  - intros (i & j & Hi & Hj & Hne & Hov).
    destruct (Nat.lt_ge_cases i j) as [Hlt|Hge].
    + exists i, j. repeat split; assumption.
    + exists j, i. repeat split; [lia | lia | rewrite overlap_sym; exact Hov].
Qed.

(** The same, over the elements that the positions hold. *)
Lemma anyCommonPrefixes_lookup (addresses : list NodeAddressT) :
  _anyCommonPrefixes addresses = true <->
  exists i j x y, i <> j /\ addresses !! i = Some x /\ addresses !! j = Some y /\
                  overlap x y = true.
Proof.
  rewrite anyCommonPrefixes_distinct. split.
  - intros (i & j & Hi & Hj & Hne & Hov).
    exists i, j, (at_index addresses i), (at_index addresses j).
    repeat split; [exact Hne | apply lookup_at_index; exact Hi
                  | apply lookup_at_index; exact Hj | exact Hov].
  - intros (i & j & x & y & Hne & Hx & Hy & Hov).
    exists i, j.
    rewrite (at_index_lookup _ _ _ Hx), (at_index_lookup _ _ _ Hy).
    repeat split; [ apply lookup_lt_is_Some; eauto | apply lookup_lt_is_Some; eauto
                  | exact Hne | exact Hov].
Qed.

Lemma anyCommonPrefixes_false_lookup (addresses : list NodeAddressT) (i j : nat)
    (x y : NodeAddressT) :
  _anyCommonPrefixes addresses = false ->
  addresses !! i = Some x -> addresses !! j = Some y -> overlap x y = true -> i = j.
Proof.
  intros Hfalse Hx Hy Hov. destruct (Nat.eq_dec i j) as [E|Hne]; [exact E|].
  assert (_anyCommonPrefixes addresses = true) as Htrue.
  { apply anyCommonPrefixes_lookup. exists i, j, x, y. auto. }
  congruence.
Qed.

Lemma anyCommonPrefixes_permutation_true (l k : list NodeAddressT) :
  l ≡ₚ k -> _anyCommonPrefixes l = true -> _anyCommonPrefixes k = true.
Proof.
  intros Hperm. rewrite !anyCommonPrefixes_lookup.
  apply Permutation_inj in Hperm as (_ & f & Hinj & Hf).
  intros (i & j & x & y & Hne & Hx & Hy & Hov).
  exists (f i), (f j), x, y. repeat split.
  - intros E. apply Hne, Hinj, E.
  - rewrite <- Hf. exact Hx.
  - rewrite <- Hf. exact Hy.
  - exact Hov.
Qed.

End AnyCommonPrefixes.

(** C7. [_anyCommonPrefixes] returns [true] exactly when two distinct
    positions of the list hold addresses one of which is a prefix of the
    other; it returns [false] on the empty list and [true] on a list that
    holds the same address twice. *)
Theorem anyCommonPrefixes_iff_some_pair :
  (forall addresses : list NodeAddressT,
      _anyCommonPrefixes addresses = true <->
      exists i j, i < length addresses /\ j < length addresses /\ i <> j /\
        (NodeAddress.hasPrefix (at_index addresses i) (at_index addresses j) = true \/
         NodeAddress.hasPrefix (at_index addresses j) (at_index addresses i) = true))
  /\ _anyCommonPrefixes [] = false
  /\ (forall x : NodeAddressT, _anyCommonPrefixes [x; x] = true).
Proof.
  split; [|split].
  - intros addresses. rewrite anyCommonPrefixes_distinct.
    unfold overlap. setoid_rewrite orb_true_iff. reflexivity.
  - reflexivity.
  - intros x. apply anyCommonPrefixes_lookup.
    exists 0, 1, x, x. repeat split; [lia | apply overlap_refl].
Qed.

(** C6. Permuting the list of addresses does not change the result of
    [_anyCommonPrefixes]. *)
Theorem anyCommonPrefixes_permutation (addresses addresses' : list NodeAddressT) :
  Permutation addresses addresses' ->
  _anyCommonPrefixes addresses = _anyCommonPrefixes addresses'.
Proof.
  intros Hperm.
  destruct (_anyCommonPrefixes addresses) eqn:E.
  - symmetry. eapply anyCommonPrefixes_permutation_true; eassumption.
  - destruct (_anyCommonPrefixes addresses') eqn:E'; [|reflexivity].
    symmetry in Hperm.
    rewrite (anyCommonPrefixes_permutation_true _ _ Hperm E') in E. discriminate.
Qed.

Lemma anyCommonPrefixes_permutation_witness :
  Permutation [Tests.foo; NodeAddress.empty; Tests.bar] [Tests.bar; Tests.foo; NodeAddress.empty]
  /\ _anyCommonPrefixes [Tests.foo; NodeAddress.empty; Tests.bar]
     = _anyCommonPrefixes [Tests.bar; Tests.foo; NodeAddress.empty].
Proof.
  assert (Permutation [Tests.foo; NodeAddress.empty; Tests.bar]
                      [Tests.bar; Tests.foo; NodeAddress.empty]) as Hperm.
  { apply Permutation_sym.
    apply (Permutation_cons_append [Tests.foo; NodeAddress.empty] Tests.bar). }
  split; [exact Hperm | apply (anyCommonPrefixes_permutation _ _ Hperm)].
Defined.

(** ** Rounding to the nearest double *)

Section Rounding.

Local Open Scope Q_scope.

Lemma pow2_pos (e : Z) : 0 < 2 ^ e.
Proof. apply Qpower_0_lt. reflexivity. Qed.

Lemma pow2_succ (e : Z) : 2 ^ (e + 1) == 2 * 2 ^ e.
Proof. rewrite Qpower_plus by discriminate. rewrite Qpower_1_r. ring. Qed.

Lemma pow2_le (a b : Z) : (a <= b)%Z -> 2 ^ a <= 2 ^ b.
Proof. intros H. apply Qpower_le_compat_l; [exact H | discriminate]. Qed.

Lemma pow2_lt_inv (a b : Z) : 2 ^ a < 2 ^ b -> (a < b)%Z.
Proof. intros H. apply (Qpower_lt_compat_l_inv 2); [exact H | reflexivity]. Qed.

Lemma pow2_inject (n : Z) : (0 <= n)%Z -> inject_Z (2 ^ n) == 2 ^ n.
Proof. intros H. apply (Zpower_Qpower 2 n H). Qed.

Lemma Qcompare_cases (x y : Q) :
  match x ?= y with Eq => x == y | Lt => x < y | Gt => y < x end.
Proof.
  destruct (x ?= y) eqn:C.
  - apply Qeq_alt, C.
  - apply Qlt_alt, C.
  - apply Qgt_alt, C.
Qed.

Lemma Q_sign_cases (q : Q) : q < 0 \/ q == 0 \/ 0 < q.
Proof. destruct (Q_dec q 0) as [[H|H]|H]; auto. Qed.

(** [ilog2 q] is the exponent of the binade of [q]. *)
Lemma ilog2_spec (q : Q) :
  0 < q -> 2 ^ Binary64.ilog2 q <= q < 2 ^ (Binary64.ilog2 q + 1).
Proof.
  intros Hq. unfold Binary64.ilog2.
  destruct q as [a b]. simpl Qnum. simpl Qden.
  assert (0 < a)%Z as Ha by (unfold Qlt in Hq; simpl in Hq; lia).
  pose proof (Z.log2_spec a Ha) as [Ha0 Ha1].
  pose proof (Z.log2_spec (Zpos b) eq_refl) as [Hb0 Hb1].
  pose proof (Z.log2_nonneg a) as Hla. pose proof (Z.log2_nonneg (Zpos b)) as Hlb.
  set (la := Z.log2 a) in *. set (lb := Z.log2 (Zpos b)) in *.
  rewrite Zle_Qle, pow2_inject in Ha0, Hb0 by assumption.
  rewrite Zlt_Qlt, <- Z.add_1_r, pow2_inject, pow2_succ in Ha1, Hb1 by lia.
  assert (a # b == inject_Z a / inject_Z (Zpos b)) as Eq by apply Qmake_Qdiv.
  pose proof (pow2_pos la) as Pa. pose proof (pow2_pos lb) as Pb.
  assert (0 < inject_Z (Zpos b)) as Pb' by lra.
  assert (2 ^ (la - lb) == 2 ^ la / 2 ^ lb) as E0 by (apply Qpower_minus; discriminate).
  assert (a # b < 2 * 2 ^ (la - lb)) as Hup.
  { rewrite Eq, E0. apply Qlt_shift_div_r; [exact Pb'|].
    assert (2 * (2 ^ la / 2 ^ lb) * inject_Z (Z.pos b)
            == 2 * 2 ^ la * (inject_Z (Z.pos b) / 2 ^ lb)) as -> by (field; lra).
    assert (1 <= inject_Z (Z.pos b) / 2 ^ lb) by (apply Qle_shift_div_l; lra).
    nra. }
  assert (2 ^ (la - lb) < 2 * (a # b)) as Hlow.
  { rewrite Eq, E0. apply Qlt_shift_div_r; [exact Pb|].
    assert (2 * (inject_Z a / inject_Z (Z.pos b)) * 2 ^ lb
            == inject_Z a * (2 * 2 ^ lb / inject_Z (Z.pos b))) as -> by (field; lra).
    assert (1 < 2 * 2 ^ lb / inject_Z (Z.pos b)) by (apply Qlt_shift_div_l; lra).
    nra. }
  destruct (Qle_bool (2 ^ (la - lb)) (a # b)) eqn:E.
  - apply Qle_bool_iff in E. rewrite pow2_succ. split; [exact E | exact Hup].
  - assert (a # b < 2 ^ (la - lb)) as Hlt.
    { apply Qnot_le_lt. intros H. apply Qle_bool_iff in H. congruence. }
    replace (la - lb - 1 + 1)%Z with (la - lb)%Z by lia.
    split; [|exact Hlt].
    assert (2 ^ (la - lb) == 2 * 2 ^ (la - lb - 1)) as E1.
    { rewrite <- pow2_succ. replace (la - lb - 1 + 1)%Z with (la - lb)%Z by lia. reflexivity. }
    lra.
Qed.

Lemma ilog2_unique (q : Q) (e : Z) : 2 ^ e <= q < 2 ^ (e + 1) -> Binary64.ilog2 q = e.
Proof.
  intros [H0 H1].
  assert (0 < q) as Hq by (pose proof (pow2_pos e); lra).
  destruct (ilog2_spec q Hq) as [I0 I1].
  assert (Binary64.ilog2 q < e + 1)%Z by (apply pow2_lt_inv; lra).
  assert (e < Binary64.ilog2 q + 1)%Z by (apply pow2_lt_inv; lra).
  lia.
Qed.

Lemma ilog2_mono (x y : Q) : 0 < x -> x <= y -> (Binary64.ilog2 x <= Binary64.ilog2 y)%Z.
Proof.
  intros Hx Hxy.
  destruct (ilog2_spec x Hx) as [X0 _].
  destruct (ilog2_spec y) as [_ Y1]; [lra|].
  assert (Binary64.ilog2 x < Binary64.ilog2 y + 1)%Z by (apply pow2_lt_inv; lra).
  lia.
Qed.

Lemma ilog2_comp (x y : Q) : 0 < x -> x == y -> Binary64.ilog2 x = Binary64.ilog2 y.
Proof.
  intros Hx E. symmetry. apply ilog2_unique. rewrite <- E. apply ilog2_spec, Hx.
Qed.

Lemma rne_cases (q : Q) :
  Binary64.rne q = Qfloor q \/ Binary64.rne q = (Qfloor q + 1)%Z.
Proof.
  unfold Binary64.rne. destruct (q - inject_Z (Qfloor q) ?= 1 # 2); auto.
  destruct (Z.even (Qfloor q)); auto.
Qed.

Lemma rne_mono (x y : Q) : x <= y -> (Binary64.rne x <= Binary64.rne y)%Z.
Proof.
  intros Hxy. pose proof (Qfloor_resp_le x y Hxy) as Hf.
  destruct (Z.eq_dec (Qfloor x) (Qfloor y)) as [E|N].
  - unfold Binary64.rne. rewrite <- E.
    pose proof (Qcompare_cases (x - inject_Z (Qfloor x)) (1 # 2)) as Cx.
    pose proof (Qcompare_cases (y - inject_Z (Qfloor x)) (1 # 2)) as Cy.
    destruct (x - inject_Z (Qfloor x) ?= 1 # 2);
      destruct (y - inject_Z (Qfloor x) ?= 1 # 2);
      destruct (Z.even (Qfloor x)); try lia; lra.
  - destruct (rne_cases x) as [-> | ->], (rne_cases y) as [-> | ->]; lia.
Qed.

Lemma rne_comp (x y : Q) : x == y -> Binary64.rne x = Binary64.rne y.
Proof.
  intros E. unfold Binary64.rne. rewrite (Qfloor_comp x y E).
  assert (x - inject_Z (Qfloor y) == y - inject_Z (Qfloor y)) as E' by (rewrite E; reflexivity).
  rewrite (Qcompare_comp _ _ E' (1 # 2) (1 # 2) (Qeq_refl _)). reflexivity.
Qed.

Lemma rne_Z (n : Z) : Binary64.rne (inject_Z n) = n.
Proof.
  unfold Binary64.rne. rewrite Qfloor_Z.
  assert ((inject_Z n - inject_Z n ?= 1 # 2) = Lt) as ->; [|reflexivity].
  apply (proj1 (Qlt_alt _ _)). lra.
Qed.

Lemma rne_nonneg (q : Q) : 0 <= q -> (0 <= Binary64.rne q)%Z.
Proof. intros H. rewrite <- (rne_Z 0). apply rne_mono. exact H. Qed.

Lemma ulp_exp_mono (x y : Q) :
  0 < x -> x <= y -> (Binary64.ulp_exp x <= Binary64.ulp_exp y)%Z.
Proof.
  intros Hx Hxy. unfold Binary64.ulp_exp. pose proof (ilog2_mono x y Hx Hxy). lia.
Qed.

Lemma ulp_exp_min (q : Q) : (-1074 <= Binary64.ulp_exp q)%Z.
Proof. unfold Binary64.ulp_exp. lia. Qed.

Lemma nearest_nonneg (q : Q) : 0 < q -> 0 <= Binary64.nearest q.
Proof.
  intros Hq. unfold Binary64.nearest.
  pose proof (pow2_pos (Binary64.ulp_exp q)) as P.
  assert (0 <= inject_Z (Binary64.rne (q / 2 ^ Binary64.ulp_exp q))) as H.
  { change 0 with (inject_Z 0). rewrite <- Zle_Qle. apply rne_nonneg.
    apply Qle_shift_div_l; lra. }
  nra.
Qed.

(** A positive [q] counts fewer than [2 ^ 53] units in the last place,
    and at least [2 ^ 52] of them when it is in the normal range. *)
Lemma below_next_binade (q : Q) : 0 < q -> q < 2 ^ (Binary64.ulp_exp q + 53).
Proof.
  intros Hq. destruct (ilog2_spec q Hq) as [_ H1].
  apply (Qlt_le_trans _ _ _ H1), pow2_le. unfold Binary64.ulp_exp. lia.
Qed.

Lemma scaled_upper (q : Q) : 0 < q -> q / 2 ^ Binary64.ulp_exp q <= 2 ^ 53.
Proof.
  intros Hq. pose proof (pow2_pos (Binary64.ulp_exp q)) as P.
  apply Qle_shift_div_r; [exact P|].
  rewrite <- Qpower_plus by discriminate.
  rewrite Z.add_comm. apply Qlt_le_weak, below_next_binade, Hq.
Qed.

Lemma normal_lower (q : Q) :
  0 < q -> (-1074 < Binary64.ulp_exp q)%Z -> 2 ^ (Binary64.ulp_exp q + 52) <= q.
Proof.
  intros Hq He. destruct (ilog2_spec q Hq) as [H0 _].
  apply (Qle_trans _ (2 ^ Binary64.ilog2 q)); [|exact H0].
  apply pow2_le. unfold Binary64.ulp_exp in *. lia.
Qed.

Lemma scaled_lower (q : Q) :
  0 < q -> (-1074 < Binary64.ulp_exp q)%Z -> 2 ^ 52 <= q / 2 ^ Binary64.ulp_exp q.
Proof.
  intros Hq He. pose proof (pow2_pos (Binary64.ulp_exp q)) as P.
  apply Qle_shift_div_l; [exact P|].
  rewrite <- Qpower_plus by discriminate.
  rewrite Z.add_comm. apply normal_lower; assumption.
Qed.

Lemma nearest_upper (q : Q) :
  0 < q -> Binary64.nearest q <= 2 ^ (Binary64.ulp_exp q + 53).
Proof.
  intros Hq. unfold Binary64.nearest. pose proof (pow2_pos (Binary64.ulp_exp q)) as P.
  rewrite Qpower_plus by discriminate. rewrite (Qmult_comm (2 ^ Binary64.ulp_exp q)).
  apply Qmult_le_compat_r; [|lra].
  rewrite <- (pow2_inject 53) by lia. rewrite <- Zle_Qle.
  rewrite <- (rne_Z (2 ^ 53)). apply rne_mono.
  rewrite (pow2_inject 53) by lia. apply scaled_upper, Hq.
Qed.

Lemma nearest_lower (q : Q) :
  0 < q -> (-1074 < Binary64.ulp_exp q)%Z ->
  2 ^ (Binary64.ulp_exp q + 52) <= Binary64.nearest q.
Proof.
  intros Hq He. unfold Binary64.nearest. pose proof (pow2_pos (Binary64.ulp_exp q)) as P.
  rewrite Qpower_plus by discriminate. rewrite (Qmult_comm (2 ^ Binary64.ulp_exp q)).
  apply Qmult_le_compat_r; [|lra].
  rewrite <- (pow2_inject 52) by lia. rewrite <- Zle_Qle.
  rewrite <- (rne_Z (2 ^ 52)). apply rne_mono.
  rewrite (pow2_inject 52) by lia. apply scaled_lower; assumption.
Qed.

(** Rounding to the nearest multiple is monotone. *)
Lemma nearest_mono (x y : Q) :
  0 < x -> x <= y -> Binary64.nearest x <= Binary64.nearest y.
Proof.
  intros Hx Hxy. assert (0 < y) as Hy by lra.
  pose proof (ulp_exp_mono x y Hx Hxy) as He.
  destruct (Z.eq_dec (Binary64.ulp_exp x) (Binary64.ulp_exp y)) as [E|N].
  - unfold Binary64.nearest. rewrite <- E. pose proof (pow2_pos (Binary64.ulp_exp x)) as P.
    apply Qmult_le_compat_r; [|lra].
    rewrite <- Zle_Qle. apply rne_mono.
    apply Qle_shift_div_l; [exact P|].
    assert (x / 2 ^ Binary64.ulp_exp x * 2 ^ Binary64.ulp_exp x == x) as -> by (field; lra).
    exact Hxy.
  - apply (Qle_trans _ _ _ (nearest_upper x Hx)).
    apply (Qle_trans _ (2 ^ (Binary64.ulp_exp y + 52))).
    + apply pow2_le. lia.
    + apply nearest_lower; [exact Hy|]. pose proof (ulp_exp_min x). lia.
Qed.

Lemma nearest_comp (x y : Q) : 0 < x -> x == y -> Binary64.nearest x = Binary64.nearest y.
Proof.
  intros Hx E. unfold Binary64.nearest, Binary64.ulp_exp.
  rewrite <- (ilog2_comp x y Hx E).
  rewrite (rne_comp (x / 2 ^ Z.max (Binary64.ilog2 x - 52) (-1074))
                    (y / 2 ^ Z.max (Binary64.ilog2 x - 52) (-1074))); [reflexivity|].
  unfold Qdiv. apply Qmult_comp; [exact E | reflexivity].
Qed.

(** A multiple of a power of two that is at least the unit in the last
    place is left as it is. *)
Lemma nearest_multiple (q : Q) (m e : Z) :
  0 < q -> q == inject_Z m * 2 ^ e -> (Binary64.ulp_exp q <= e)%Z ->
  Binary64.nearest q == q.
Proof.
  intros Hq E He. unfold Binary64.nearest.
  set (u := Binary64.ulp_exp q) in *. pose proof (pow2_pos u) as P.
  assert (q / 2 ^ u == inject_Z (m * 2 ^ (e - u))) as Escaled.
  { rewrite inject_Z_mult, pow2_inject by lia.
    rewrite Qpower_minus by discriminate. rewrite E. field. lra. }
  rewrite (rne_comp _ _ Escaled), rne_Z, <- Escaled. field. lra.
Qed.

(** What rounding returns is left as it is by rounding. *)
Lemma nearest_idempotent (q : Q) :
  0 < q -> 0 < Binary64.nearest q ->
  Binary64.nearest (Binary64.nearest q) == Binary64.nearest q.
Proof.
  intros Hq Hr.
  pose proof (nearest_upper q Hq) as Hup. pose proof (ulp_exp_min q) as Hmin.
  set (u := Binary64.ulp_exp q) in *.
  destruct (Qlt_le_dec (Binary64.nearest q) (2 ^ (u + 53))) as [Hlt|Hge].
  - apply (nearest_multiple _ (Binary64.rne (q / 2 ^ u)) u Hr); [reflexivity|].
    destruct (ilog2_spec _ Hr) as [H0 _].
    assert (Binary64.ilog2 (Binary64.nearest q) < u + 53)%Z by (apply pow2_lt_inv; lra).
    unfold Binary64.ulp_exp at 1. lia.
  - assert (Binary64.nearest q == 2 ^ (u + 53)) as E by lra.
    assert (Binary64.ilog2 (Binary64.nearest q) = (u + 53)%Z) as Elog.
    { apply ilog2_unique. rewrite E, pow2_succ. pose proof (pow2_pos (u + 53)). lra. }
    apply (nearest_multiple _ (2 ^ 52) (u + 1) Hr).
    + rewrite E, pow2_inject by lia. rewrite <- Qpower_plus by discriminate.
      replace (52 + (u + 1))%Z with (u + 53)%Z by lia. reflexivity.
    + unfold Binary64.ulp_exp at 1. rewrite Elog. lia.
Qed.

End Rounding.

(** ** Doubles *)

Section Doubles.

Local Open Scope Q_scope.

Lemma same_eq (x y : Q) : Binary64.same x y = true <-> x = y.
Proof.
  unfold Binary64.same. destruct x as [a b], y as [c d]. simpl.
  rewrite andb_true_iff, Z.eqb_eq, Pos.eqb_eq. split.
  - intros [-> ->]. reflexivity.
  - intros E. injection E as -> ->. split; reflexivity.
Qed.

Lemma double_ext (d1 d2 : Binary64.double) :
  Binary64.value d1 = Binary64.value d2 -> d1 = d2.
Proof.
  destruct d1 as [q1 H1], d2 as [q2 H2]. simpl. intros ->.
  f_equal. apply proof_irrel.
Qed.

Lemma of_Q_Some (q : Q) :
  Binary64.is_double q = true ->
  exists d, Binary64.of_Q q = Some d /\ Binary64.value d = q.
Proof.
  intros H. unfold Binary64.of_Q.
  generalize (eq_refl (Binary64.is_double q)).
  generalize (Binary64.is_double q) at 2 3.
  intros b e. destruct b; [|congruence].
  eexists. split; reflexivity.
Qed.

Lemma of_Q_value (d : Binary64.double) : Binary64.of_Q (Binary64.value d) = Some d.
Proof.
  destruct (of_Q_Some d (Binary64.value_is_double d)) as (d' & -> & E).
  f_equal. apply double_ext, E.
Qed.

Lemma round_pos_cases (q : Q) :
  (2 ^ 1024 <= Binary64.nearest q /\ Binary64.round_pos q = None)
  \/ (Binary64.nearest q < 2 ^ 1024
      /\ Binary64.round_pos q = Some (Qred (Binary64.nearest q))).
Proof.
  unfold Binary64.round_pos. destruct (Qle_bool (2 ^ 1024) (Binary64.nearest q)) eqn:E.
  - left. split; [apply Qle_bool_iff, E | reflexivity].
  - right. split; [|reflexivity].
    apply Qnot_le_lt. intros H. apply Qle_bool_iff in H. congruence.
Qed.

Lemma round_zero (q : Q) : q == 0 -> Binary64.round q = Some 0.
Proof.
  intros E. unfold Binary64.round. rewrite (proj1 (Qeq_alt q 0) E). reflexivity.
Qed.

Lemma round_positive (q : Q) : 0 < q -> Binary64.round q = Binary64.round_pos q.
Proof.
  intros H. unfold Binary64.round. rewrite (proj1 (Qgt_alt q 0) H). reflexivity.
Qed.

Lemma round_negative (q : Q) :
  q < 0 -> Binary64.round q = option_map Qopp (Binary64.round_pos (- q)).
Proof.
  intros H. unfold Binary64.round. rewrite (proj1 (Qlt_alt q 0) H). reflexivity.
Qed.

Lemma round_pos_comp (x y : Q) :
  0 < x -> x == y -> Binary64.round_pos x = Binary64.round_pos y.
Proof.
  intros Hx E. unfold Binary64.round_pos. rewrite (nearest_comp x y Hx E). reflexivity.
Qed.

(** Rounding depends on the value of the rational only. *)
Lemma round_comp (x y : Q) : x == y -> Binary64.round x = Binary64.round y.
Proof.
  intros E. destruct (Q_sign_cases x) as [Hx|[Hx|Hx]].
  - rewrite !round_negative by lra. f_equal. apply round_pos_comp; [lra | rewrite E; reflexivity].
  - rewrite !round_zero by lra. reflexivity.
  - rewrite !round_positive by lra. apply round_pos_comp; assumption.
Qed.

Lemma Qred_zero (q : Q) : q == 0 -> Qred q = 0.
Proof. intros E. apply (Qred_complete q 0 E). Qed.

Lemma Qred_pos (q : Q) : 0 < q -> 0 < Qred q.
Proof. intros H. rewrite Qred_correct. exact H. Qed.

(** What rounding returns is a double. *)
Lemma round_pos_is_double (q r : Q) :
  0 < q -> Binary64.round_pos q = Some r -> Binary64.is_double r = true.
Proof.
  intros Hq Hr. destruct (round_pos_cases q) as [[_ E]|[Hlt E]]; rewrite E in Hr; [discriminate|].
  injection Hr as <-.
  pose proof (nearest_nonneg q Hq) as H0.
  destruct (Qle_lt_or_eq _ _ H0) as [Hpos|Hzero].
  - unfold Binary64.is_double.
    rewrite (round_positive _ (Qred_pos _ Hpos)).
    assert (Binary64.nearest (Qred (Binary64.nearest q))
            = Binary64.nearest (Binary64.nearest q)) as En.
    { apply nearest_comp; [apply Qred_pos, Hpos | apply Qred_correct]. }
    unfold Binary64.round_pos. rewrite En.
    pose proof (nearest_idempotent q Hq Hpos) as Ei.
    assert (Qle_bool (2 ^ 1024) (Binary64.nearest (Binary64.nearest q)) = false) as ->.
    { apply not_true_iff_false. intros H. apply Qle_bool_iff in H. lra. }
    apply same_eq. apply Qred_complete, Ei.
  - rewrite (Qred_zero (Binary64.nearest q)) by (symmetry; exact Hzero). reflexivity.
Qed.

Lemma is_double_opp (r : Q) :
  Binary64.is_double r = true -> Binary64.is_double (- r) = true.
Proof.
  unfold Binary64.is_double. intros H.
  destruct (Binary64.round r) as [r'|] eqn:Er; [|discriminate].
  apply same_eq in H. subst r'.
  destruct (Q_sign_cases r) as [Hr|[Hr|Hr]].
  - rewrite round_negative in Er by exact Hr.
    rewrite round_positive by lra.
    destruct (Binary64.round_pos (- r)) as [p|]; [|discriminate].
    simpl in Er. injection Er as <-. apply same_eq. destruct p as [a b].
    unfold Qopp. simpl. rewrite Z.opp_involutive. reflexivity.
  - rewrite round_zero in Er by exact Hr. injection Er as <-. reflexivity.
  - rewrite round_positive in Er by exact Hr.
    rewrite round_negative by lra.
    rewrite (round_pos_comp (- - r) r) by (try lra; ring).
    rewrite Er. simpl. apply same_eq. reflexivity.
Qed.

Lemma round_is_double (q r : Q) :
  Binary64.round q = Some r -> Binary64.is_double r = true.
Proof.
  intros H. destruct (Q_sign_cases q) as [Hq|[Hq|Hq]].
  - rewrite round_negative in H by exact Hq.
    destruct (Binary64.round_pos (- q)) as [p|] eqn:Ep; [|discriminate].
    injection H as <-. apply is_double_opp.
    apply (round_pos_is_double (- q)); [lra | exact Ep].
  - rewrite round_zero in H by exact Hq. injection H as <-. reflexivity.
  - rewrite round_positive in H by exact Hq.
    apply (round_pos_is_double q); assumption.
Qed.

(** A double is what rounding it returns. *)
Lemma round_value (d : Binary64.double) :
  Binary64.round d = Some (Binary64.value d).
Proof.
  pose proof (Binary64.value_is_double d) as H. unfold Binary64.is_double in H.
  destruct (Binary64.round d) as [r|]; [|discriminate].
  apply same_eq in H. rewrite H. reflexivity.
Qed.

Lemma double_positive (d : Binary64.double) :
  0 < d -> Binary64.nearest d == d /\ d < 2 ^ 1024.
Proof.
  intros Hd. pose proof (round_value d) as H.
  rewrite round_positive in H by exact Hd.
  destruct (round_pos_cases d) as [[_ E]|[Hlt E]]; rewrite E in H; [discriminate|].
  injection H as H.
  assert (Binary64.nearest d == d) as E'.
  { rewrite <- H at 2. symmetry. apply Qred_correct. }
  split; [exact E' | lra].
Qed.

End Doubles.

(** ** Numbers *)

Section Numbers.

Lemma leb_Fin (x y : Binary64.double) : Num.leb (Finite x) (Finite y) = true <-> (x <= y)%Q.
Proof. apply Qle_bool_iff. Qed.

Lemma leb_Fin_false (x y : Binary64.double) :
  Num.leb (Finite x) (Finite y) = false <-> (y < x)%Q.
Proof.
  simpl. rewrite <- not_true_iff_false, Qle_bool_iff. split.
  - apply Qnot_le_lt.
  - apply Qlt_not_le.
Qed.


Lemma ltb_Fin_false (x y : Binary64.double) :
  Num.ltb (Finite x) (Finite y) = false <-> (y <= x)%Q.
Proof. simpl. rewrite negb_false_iff. apply Qle_bool_iff. Qed.

Lemma eqb_Fin (x y : Binary64.double) : Num.eqb (Finite x) (Finite y) = true <-> (x == y)%Q.
Proof. apply Qeq_bool_iff. Qed.

Lemma leb_trans (a b c : number) :
  Num.leb a b = true -> Num.leb b c = true -> Num.leb a c = true.
Proof.
  destruct a as [x| | |], b as [y| | |], c as [z| | |]; simpl; try congruence.
  rewrite !Qle_bool_iff. apply Qle_trans.
Qed.

Lemma ltb_leb_false (a b : number) : Num.ltb a b = true -> Num.leb b a = false.
Proof.
  destruct a as [x| | |], b as [y| | |]; simpl; try congruence.
  apply negb_true_iff.
Qed.

Lemma leb_not_NaN (a b : number) :
  Num.leb a b = true -> Num.isNaN a = false /\ Num.isNaN b = false.
Proof. destruct a, b; simpl; intros H; split; congruence. Qed.

Lemma sign_Eq (x : Q) : Num.sign x = Eq <-> (x == 0)%Q.
Proof. unfold Num.sign. symmetry. apply Qeq_alt. Qed.

Lemma sign_Lt (x : Q) : Num.sign x = Lt <-> (x < 0)%Q.
Proof. unfold Num.sign. symmetry. apply Qlt_alt. Qed.

Lemma sign_Gt (x : Q) : Num.sign x = Gt <-> (0 < x)%Q.
Proof. unfold Num.sign. symmetry. apply Qgt_alt. Qed.

Local Open Scope Q_scope.

(** The three outcomes of rounding: a double, or an infinity when the
    magnitude overflows. *)
Lemma round_of_zero (q : Q) : q == 0 -> Num.round q = Num.zero.
Proof.
  intros E. unfold Num.round. rewrite (round_zero q E). reflexivity.
Qed.

Lemma round_of_positive (q : Q) :
  0 < q ->
  (2 ^ 1024 <= Binary64.nearest q /\ Num.round q = PInf)
  \/ (Binary64.nearest q < 2 ^ 1024
      /\ exists d : Binary64.double, Num.round q = Finite d /\ d == Binary64.nearest q).
Proof.
  intros Hq. unfold Num.round. rewrite (round_positive q Hq).
  destruct (round_pos_cases q) as [[Hover E]|[Hlt E]].
  - left. rewrite E, (proj1 (Qgt_alt q 0) Hq). split; [exact Hover | reflexivity].
  - right. split; [exact Hlt|]. rewrite E.
    destruct (of_Q_Some _ (round_pos_is_double q _ Hq E)) as (d & -> & Ed).
    exists d. split; [reflexivity|]. rewrite Ed. apply Qred_correct.
Qed.

Lemma round_of_negative (q : Q) :
  q < 0 ->
  (2 ^ 1024 <= Binary64.nearest (- q) /\ Num.round q = NInf)
  \/ (Binary64.nearest (- q) < 2 ^ 1024
      /\ exists d : Binary64.double, Num.round q = Finite d /\ d == - Binary64.nearest (- q)).
Proof.
  intros Hq. assert (0 < - q) as Hq' by lra.
  unfold Num.round. rewrite (round_negative q Hq).
  destruct (round_pos_cases (- q)) as [[Hover E]|[Hlt E]].
  - left. rewrite E. simpl. rewrite (proj1 (Qlt_alt q 0) Hq). split; [exact Hover | reflexivity].
  - right. split; [exact Hlt|]. rewrite E. simpl.
    destruct (of_Q_Some _ (is_double_opp _ (round_pos_is_double (- q) _ Hq' E)))
      as (d & -> & Ed).
    exists d. split; [reflexivity|]. rewrite Ed, Qred_correct. reflexivity.
Qed.

(** Rounding never gives [NaN]. *)
Lemma round_not_NaN (q : Q) : Num.isNaN (Num.round q) = false.
Proof.
  destruct (Q_sign_cases q) as [H|[H|H]].
  - destruct (round_of_negative q H) as [[_ ->]|[_ (d & -> & _)]]; reflexivity.
  - rewrite (round_of_zero q H). reflexivity.
  - destruct (round_of_positive q H) as [[_ ->]|[_ (d & -> & _)]]; reflexivity.
Qed.

Lemma round_nonneg (q : Q) : 0 <= q -> Num.leb Num.zero (Num.round q) = true.
Proof.
  intros Hq. destruct (Q_sign_cases q) as [H|[H|H]]; [lra| |].
  - rewrite (round_of_zero q H). reflexivity.
  - destruct (round_of_positive q H) as [[_ ->]|[_ (d & -> & Ed)]]; [reflexivity|].
    apply Qle_bool_iff. simpl. rewrite Ed. apply nearest_nonneg, H.
Qed.

Lemma round_nonpos (q : Q) : q <= 0 -> Num.leb (Num.round q) Num.zero = true.
Proof.
  intros Hq. destruct (Q_sign_cases q) as [H|[H|H]]; [| |lra].
  - destruct (round_of_negative q H) as [[_ ->]|[_ (d & -> & Ed)]]; [reflexivity|].
    apply Qle_bool_iff. simpl. rewrite Ed.
    pose proof (nearest_nonneg (- q)). lra.
  - rewrite (round_of_zero q H). reflexivity.
Qed.

(** Rounding is monotone. *)
Lemma round_mono (x y : Q) : x <= y -> Num.leb (Num.round x) (Num.round y) = true.
Proof.
  intros Hxy. destruct (Q_sign_cases x) as [Hx|[Hx|Hx]].
  - destruct (Q_sign_cases y) as [Hy|[Hy|Hy]].
    + assert (Binary64.nearest (- y) <= Binary64.nearest (- x)) as Hn
        by (apply nearest_mono; lra).
      destruct (round_of_negative x Hx) as [[Ox ->]|[Ox (dx & -> & Ex)]];
        [pose proof (round_not_NaN y) as Hnan; destruct (Num.round y);
         [reflexivity | reflexivity | reflexivity | discriminate]|].
      destruct (round_of_negative y Hy) as [[Oy ->]|[Oy (dy & -> & Ey)]]; [lra|].
      apply Qle_bool_iff. lra.
    + apply leb_trans with Num.zero; [apply round_nonpos; lra | apply round_nonneg; lra].
    + apply leb_trans with Num.zero; [apply round_nonpos; lra | apply round_nonneg; lra].
  - rewrite (round_of_zero x Hx). apply (round_nonneg y). lra.
  - assert (0 < y) as Hy by lra.
    pose proof (nearest_mono x y Hx Hxy) as Hn.
    destruct (round_of_positive y Hy) as [[Oy ->]|[Oy (dy & -> & Ey)]].
    + destruct (Num.round x) eqn:E; try reflexivity.
      pose proof (round_not_NaN x) as Hnan. rewrite E in Hnan. discriminate.
    + destruct (round_of_positive x Hx) as [[Ox ->]|[Ox (dx & -> & Ex)]]; [lra|].
      apply Qle_bool_iff. lra.
Qed.

(** Rounding depends on the value of the rational only. *)
Lemma round_ext (x y : Q) : x == y -> Num.round x = Num.round y.
Proof.
  intros E. unfold Num.round. rewrite (round_comp x y E).
  rewrite (Qcompare_comp x y E 0 0 (Qeq_refl 0)). reflexivity.
Qed.

(** A double rounds to itself. *)
Lemma round_double (d : Binary64.double) : Num.round d = Finite d.
Proof. unfold Num.round. rewrite round_value, of_Q_value. reflexivity. Qed.

Lemma round_le_double (q : Q) (d : Binary64.double) :
  q <= d -> Num.leb (Num.round q) (Finite d) = true.
Proof. intros H. rewrite <- (round_double d). apply round_mono, H. Qed.

Lemma round_ge_double (q : Q) (d : Binary64.double) :
  d <= q -> Num.leb (Finite d) (Num.round q) = true.
Proof. intros H. rewrite <- (round_double d). apply round_mono, H. Qed.

Lemma div_Fin (x y : Binary64.double) :
  ~ y == 0 -> Num.div (Finite x) (Finite y) = Num.round (x / y).
Proof.
  intros Hy. simpl. destruct (Num.sign y) eqn:E; try reflexivity.
  apply (proj1 (sign_Eq y)) in E. contradiction.
Qed.

Lemma add_nonneg (a b : number) :
  Num.leb Num.zero a = true -> Num.leb Num.zero b = true ->
  Num.leb Num.zero (Num.add a b) = true.
Proof.
  destruct a as [x| | |], b as [y| | |]; simpl; try congruence.
  rewrite !Qle_bool_iff. intros Hx Hy. apply round_nonneg.
  change (Binary64.value (Binary64.mk 0 eq_refl)) with 0 in *. lra.
Qed.

End Numbers.

(** ** The gaps between doubles, and quotients near [1] *)

Section Gaps.

Local Open Scope Q_scope.

(** Two positive doubles differ by at least the unit in the last place of
    the smaller one. *)
Lemma gap_above (a b : Q) :
  0 < a -> Binary64.nearest a == a -> Binary64.nearest b == b -> a < b ->
  a + 2 ^ Binary64.ulp_exp a <= b.
Proof.
  intros Ha Ea Eb Hab. assert (0 < b) as Hb by lra.
  pose proof (ulp_exp_mono a b Ha (Qlt_le_weak _ _ Hab)) as He.
  set (ea := Binary64.ulp_exp a) in *. set (eb := Binary64.ulp_exp b) in *.
  pose proof (pow2_pos ea) as Pa.
  set (ma := Binary64.rne (a / 2 ^ ea)).
  set (mb := Binary64.rne (b / 2 ^ eb)).
  assert (a == inject_Z ma * 2 ^ ea) as Da by (symmetry; exact Ea).
  assert (b == inject_Z (mb * 2 ^ (eb - ea)) * 2 ^ ea) as Db.
  { rewrite inject_Z_mult, pow2_inject by lia.
    rewrite Qpower_minus by discriminate.
    rewrite <- Eb at 1. unfold Binary64.nearest. fold eb mb. field. lra. }
  assert (ma < mb * 2 ^ (eb - ea))%Z as Hlt.
  { rewrite Zlt_Qlt. apply (Qmult_lt_r _ _ (2 ^ ea) Pa). rewrite <- Da, <- Db. exact Hab. }
  assert (inject_Z ma + 1 <= inject_Z (mb * 2 ^ (eb - ea))) as Hle.
  { change 1 with (inject_Z 1). rewrite <- inject_Z_plus, <- Zle_Qle. lia. }
  rewrite Db, Da at 1. nra.
Qed.

(** They also differ by at least [2 ^ -53] of the larger one. *)
Lemma gap_below (a b : Q) :
  0 < a -> Binary64.nearest a == a -> Binary64.nearest b == b -> a < b ->
  2 ^ (-53) * b <= b - a.
Proof.
  intros Ha Ea Eb Hab. assert (0 < b) as Hb by lra.
  pose proof (gap_above a b Ha Ea Eb Hab) as Hgap.
  pose proof (ulp_exp_mono a b Ha (Qlt_le_weak _ _ Hab)) as He.
  pose proof (below_next_binade a Ha) as Ua.
  pose proof (below_next_binade b Hb) as Ub.
  pose proof (ulp_exp_min a) as Hmin.
  set (ea := Binary64.ulp_exp a) in *. set (eb := Binary64.ulp_exp b) in *.
  pose proof (pow2_pos ea) as Pa. pose proof (pow2_pos eb) as Pb.
  assert (forall e, 2 ^ (e + 53) == 2 ^ 53 * 2 ^ e) as E53.
  { intros e. rewrite Z.add_comm. apply Qpower_plus. discriminate. }
  assert (2 ^ 53 * 2 ^ (-53) == 1) as Einv by reflexivity.
  destruct (Z.eq_dec ea eb) as [E|N].
  - rewrite E53 in Ub. rewrite <- E in Ub.
    assert (2 ^ (-53) * b < 2 ^ ea); [|lra].
    apply (Qmult_lt_l _ _ (2 ^ 53)); [reflexivity|]. lra.
  - assert (-1074 < eb)%Z as Hnormal by lia.
    pose proof (normal_lower b Hb Hnormal) as Lb. fold eb in Lb.
    assert (2 ^ (ea + 53) <= 2 ^ (eb + 52)) as Hstep by (apply pow2_le; lia).
    assert (2 ^ (eb + 52) == 2 ^ 52 * 2 ^ eb) as E52.
    { rewrite Z.add_comm. apply Qpower_plus. discriminate. }
    destruct (Qle_lt_or_eq _ _ Lb) as [Hb'|Hb'].
    + (* [b] is above the start of its binade *)
      assert (b == inject_Z (Binary64.rne (b / 2 ^ eb)) * 2 ^ eb) as Db
        by (symmetry; exact Eb).
      set (mb := Binary64.rne (b / 2 ^ eb)) in *.
      assert (2 ^ 52 < mb)%Z as Hm.
      { rewrite Zlt_Qlt, pow2_inject by lia.
        apply (Qmult_lt_r _ _ (2 ^ eb) Pb). rewrite <- Db, <- E52. exact Hb'. }
      assert (inject_Z (2 ^ 52) + 1 <= inject_Z mb) as Hm'.
      { change 1 with (inject_Z 1). rewrite <- inject_Z_plus, <- Zle_Qle. lia. }
      rewrite pow2_inject in Hm' by lia.
      assert (2 ^ eb <= b - a) by nra.
      rewrite E53 in Ub.
      assert (2 ^ (-53) * b < 2 ^ eb); [|lra].
      apply (Qmult_lt_l _ _ (2 ^ 53)); [reflexivity|]. lra.
    + (* [b] is a power of two *)
      destruct (Z.eq_dec (ea + 1)%Z eb) as [E1|N1].
      * assert (2 ^ (-53) * b == 2 ^ ea); [|lra].
        rewrite <- Hb', <- E1. rewrite <- Qpower_plus by discriminate.
        assert (-53 + (ea + 1 + 52) = ea)%Z as -> by lia. reflexivity.
      * assert (2 ^ (ea + 53) <= 2 ^ (eb + 51)) as Hfar by (apply pow2_le; lia).
        assert (2 ^ (eb + 52) == 2 * 2 ^ (eb + 51)) as Ehalf.
        { rewrite <- pow2_succ. replace (eb + 51 + 1)%Z with (eb + 52)%Z by lia. reflexivity. }
        pose proof (pow2_pos (eb + 51)).
        assert (2 ^ (-53) * b <= (1 # 2) * b); [|lra].
        apply Qmult_le_compat_r; [|lra]. discriminate.
Qed.

Lemma rne_above_half (z : Q) (n : Z) : inject_Z n + (1 # 2) < z -> (n + 1 <= Binary64.rne z)%Z.
Proof.
  intros H. pose proof (Qfloor_resp_le (inject_Z n) z) as Hf.
  rewrite Qfloor_Z in Hf. specialize (Hf ltac:(lra)).
  destruct (Z.eq_dec (Qfloor z) n) as [E|N].
  - unfold Binary64.rne. rewrite E.
    assert ((z - inject_Z n ?= 1 # 2) = Gt) as ->; [|lia].
    apply (proj1 (Qgt_alt _ _)). lra.
  - destruct (rne_cases z) as [-> | ->]; lia.
Qed.

(** A quotient above [1 + 2 ^ -53] does not round to [1]. *)
Lemma round_above_one (q : Q) :
  1 + 2 ^ (-53) < q -> Num.eqb (Num.round q) Num.one = false.
Proof.
  intros Hq. assert (0 < 2 ^ (-53)) as P by reflexivity.
  destruct (Qlt_le_dec q 2) as [Hlt|Hge].
  - assert (Binary64.ilog2 q = 0%Z) as Elog.
    { apply ilog2_unique. change (2 ^ 0) with 1. change (2 ^ (0 + 1)) with 2. lra. }
    assert (Binary64.ulp_exp q = (-52)%Z) as Eulp.
    { unfold Binary64.ulp_exp. rewrite Elog. reflexivity. }
    assert (1 + 2 ^ (-52) <= Binary64.nearest q) as Hn.
    { unfold Binary64.nearest. rewrite Eulp.
      assert (2 ^ 52 + 1 <= Binary64.rne (q / 2 ^ (-52)))%Z as Hm.
      { apply rne_above_half.
        apply Qlt_shift_div_l; [reflexivity|].
        assert ((inject_Z (2 ^ 52) + (1 # 2)) * 2 ^ (-52) == 1 + 2 ^ (-53)) as -> by reflexivity.
        exact Hq. }
      rewrite Zle_Qle in Hm.
      assert (1 + 2 ^ (-52) == inject_Z (2 ^ 52 + 1) * 2 ^ (-52)) as -> by reflexivity.
      apply Qmult_le_compat_r; [exact Hm | discriminate]. }
    assert (0 < 2 ^ (-52)) as P' by reflexivity.
    destruct (round_of_positive q) as [[_ ->]|[_ (d & -> & Ed)]]; [lra | reflexivity |].
    apply not_true_iff_false. intros E. apply (proj1 (eqb_Fin _ _)) in E.
    change (Binary64.value (Binary64.mk 1 eq_refl)) with 1 in E. lra.
  - pose proof (round_ge_double q (Binary64.mk 2 eq_refl) Hge) as H.
    destruct (Num.round q) as [d| | |]; try reflexivity.
    apply (proj1 (leb_Fin _ _)) in H.
    apply not_true_iff_false. intros E. apply (proj1 (eqb_Fin _ _)) in E.
    change (Binary64.value (Binary64.mk 2 eq_refl)) with 2 in H.
    change (Binary64.value (Binary64.mk 1 eq_refl)) with 1 in E. lra.
Qed.

(** A quotient of at most [1 - 2 ^ -53] does not round to [1]. *)
Lemma round_below_one (q : Q) :
  q <= 1 - 2 ^ (-53) -> Num.eqb (Num.round q) Num.one = false.
Proof.
  intros Hq.
  pose proof (round_le_double q (Binary64.mk (9007199254740991 # 9007199254740992) eq_refl)) as H.
  assert (1 - 2 ^ (-53) == 9007199254740991 # 9007199254740992) as E1 by reflexivity.
  specialize (H ltac:(simpl; lra)).
  destruct (Num.round q) as [d| | |]; try reflexivity; try discriminate.
  apply (proj1 (leb_Fin _ _)) in H. simpl in H.
  apply not_true_iff_false. intros E. apply (proj1 (eqb_Fin _ _)) in E.
  change (Binary64.value (Binary64.mk 1 eq_refl)) with 1 in E.
  assert ((9007199254740991 # 9007199254740992) < 1) by reflexivity. lra.
Qed.

Lemma double_negative (d : Binary64.double) :
  d < 0 -> Binary64.nearest (- d) == - d /\ - d < 2 ^ 1024.
Proof.
  intros Hd. pose proof (round_value d) as H.
  rewrite round_negative in H by exact Hd.
  destruct (round_pos_cases (- d)) as [[_ E]|[Hlt E]]; rewrite E in H; [discriminate|].
  simpl in H. injection H as H.
  assert (Binary64.nearest (- d) == - d) as E'.
  { rewrite <- H at 2. rewrite Qred_correct. ring. }
  split; [exact E' | lra].
Qed.

(** The quotient of two distinct doubles never rounds to [1]: a budget
    smaller than the total gives a coefficient other than [1]. *)
Lemma div_doubles_not_one (y x : Binary64.double) :
  y < x -> Num.eqb (Num.div (Finite y) (Finite x)) Num.one = false.
Proof.
  intros Hlt. assert (0 < 2 ^ (-53)) as P53 by reflexivity.
  assert (2 ^ 53 * 2 ^ (-53) == 1) as Einv by reflexivity.
  destruct (Q_sign_cases x) as [Hx|[Hx|Hx]].
  - (* a negative total: the quotient is above [1] *)
    rewrite div_Fin by lra.
    destruct (double_negative x Hx) as [Ex _].
    destruct (double_negative y) as [Ey _]; [lra|].
    pose proof (gap_above (- x) (- y) ltac:(lra) Ex Ey ltac:(lra)) as Hgap.
    pose proof (below_next_binade (- x) ltac:(lra)) as Hup.
    rewrite Z.add_comm, Qpower_plus in Hup by discriminate.
    pose proof (pow2_pos (Binary64.ulp_exp (- x))) as Pu.
    rewrite (round_ext (y / x) (- y / - x)) by (field; lra).
    apply round_above_one.
    apply Qlt_shift_div_l; [lra|].
    assert (2 ^ (-53) * - x < 2 ^ Binary64.ulp_exp (- x)); [|lra].
    apply (Qmult_lt_l _ _ (2 ^ 53)); [reflexivity|]. lra.
  - (* a zero total: the budget is negative *)
    simpl. rewrite (proj2 (sign_Eq x) Hx), (proj2 (sign_Lt y)) by lra. reflexivity.
  - (* a positive total: the quotient is below [1] *)
    rewrite div_Fin by lra.
    apply round_below_one. apply Qle_shift_div_r; [exact Hx|].
    destruct (Qlt_le_dec 0 y) as [Hy|Hy]; [|nra].
    destruct (double_positive x Hx) as [Ex _].
    destruct (double_positive y Hy) as [Ey _].
    pose proof (gap_below y x Hy Ey Ex Hlt). lra.
Qed.

End Gaps.

(** ** The error of a rounding *)

Section RoundingErrors.

Local Open Scope Q_scope.

Lemma rne_upper (z : Q) : inject_Z (Binary64.rne z) <= z + (1 # 2).
Proof.
  unfold Binary64.rne. pose proof (Qfloor_le z) as Hf.
  pose proof (Qcompare_cases (z - inject_Z (Qfloor z)) (1 # 2)) as C.
  destruct (z - inject_Z (Qfloor z) ?= 1 # 2).
  - destruct (Z.even (Qfloor z)); [lra|].
    rewrite inject_Z_plus. change (inject_Z 1) with 1. lra.
  - lra.
  - rewrite inject_Z_plus. change (inject_Z 1) with 1. lra.
Qed.

(** Rounding adds at most half a unit in the last place. *)
Lemma nearest_upper_error (q : Q) :
  0 < q -> Binary64.nearest q <= q + (1 # 2) * 2 ^ Binary64.ulp_exp q.
Proof.
  intros Hq. unfold Binary64.nearest.
  set (u := Binary64.ulp_exp q). pose proof (pow2_pos u) as P.
  pose proof (rne_upper (q / 2 ^ u)) as H.
  apply (Qle_trans _ ((q / 2 ^ u + (1 # 2)) * 2 ^ u)).
  - apply Qmult_le_compat_r; [exact H | lra].
  - apply Qle_lteq. right. field. lra.
Qed.

(** In the normal range that is a relative error of at most [2 ^ -53]. *)
Lemma nearest_relative_error (q : Q) :
  2 ^ (-1022) <= q -> Binary64.nearest q <= q * (1 + 2 ^ (-53)).
Proof.
  intros Hq. assert (0 < 2 ^ (-1022)) as P by apply pow2_pos.
  assert (0 < q) as Hq' by lra.
  pose proof (nearest_upper_error q Hq') as H.
  destruct (ilog2_spec q Hq') as [H0 H1].
  assert (-1022 <= Binary64.ilog2 q)%Z as Hlog.
  { assert (-1022 < Binary64.ilog2 q + 1)%Z by (apply pow2_lt_inv; lra). lia. }
  assert (Binary64.ulp_exp q = (Binary64.ilog2 q - 52)%Z) as Eulp
    by (unfold Binary64.ulp_exp; lia).
  rewrite Eulp in H.
  assert (2 ^ (Binary64.ilog2 q - 52) == 2 ^ Binary64.ilog2 q * 2 ^ (-52)) as E.
  { apply (Qpower_plus 2 (Binary64.ilog2 q) (-52)). discriminate. }
  rewrite E in H.
  assert ((1 # 2) * 2 ^ (-52) == 2 ^ (-53)) as E' by reflexivity.
  assert (0 < 2 ^ (-53)) as P' by reflexivity.
  nra.
Qed.

(** The double that follows a positive double, when there is a double
    above it. *)
Lemma round_successor (y x : Binary64.double) :
  0 < y -> y < x ->
  exists d : Binary64.double,
    Num.round (y + 2 ^ Binary64.ulp_exp y) = Finite d /\ d == y + 2 ^ Binary64.ulp_exp y.
Proof.
  intros Hy Hlt. assert (0 < x) as Hx by lra.
  destruct (double_positive y Hy) as [Ey _].
  destruct (double_positive x Hx) as [Ex Hmax].
  pose proof (gap_above y x Hy Ey Ex Hlt) as Hgap.
  pose proof (below_next_binade y Hy) as Hup.
  pose proof (ulp_exp_min y) as Hmin.
  set (e := Binary64.ulp_exp y) in *. pose proof (pow2_pos e) as P.
  set (s := y + 2 ^ e) in *. assert (0 < s) as Hs by (unfold s; lra).
  assert (s == inject_Z (Binary64.rne (y / 2 ^ e) + 1) * 2 ^ e) as Es.
  { unfold s. rewrite inject_Z_plus. change (inject_Z 1) with 1.
    rewrite <- Ey at 1. unfold Binary64.nearest. fold e. ring. }
  assert (s <= 2 ^ (e + 53)) as Hs53.
  { assert (Binary64.rne (y / 2 ^ e) + 1 <= 2 ^ 53)%Z as Hm.
    { assert (Binary64.rne (y / 2 ^ e) < 2 ^ 53)%Z; [|lia].
      rewrite Zlt_Qlt, pow2_inject by lia.
      apply (Qmult_lt_r _ _ (2 ^ e) P).
      rewrite <- Qpower_plus by discriminate. rewrite (Z.add_comm 53 e).
      assert (inject_Z (Binary64.rne (y / 2 ^ e)) * 2 ^ e == y) as -> by exact Ey.
      exact Hup. }
    rewrite Zle_Qle, pow2_inject in Hm by lia.
    assert (2 ^ (e + 53) == 2 ^ 53 * 2 ^ e) as E53.
    { rewrite Z.add_comm. apply Qpower_plus. discriminate. }
    rewrite Es, E53. apply Qmult_le_compat_r; [exact Hm | lra]. }
  assert (Binary64.nearest s == s) as Enear.
  { destruct (Qle_lt_or_eq _ _ Hs53) as [Hlt53|Heq53].
    - apply (nearest_multiple s _ e Hs Es).
      destruct (ilog2_spec s Hs) as [H0 _].
      assert (Binary64.ilog2 s < e + 53)%Z by (apply pow2_lt_inv; lra).
      unfold Binary64.ulp_exp. lia.
    - assert (Binary64.ilog2 s = (e + 53)%Z) as Elog.
      { apply ilog2_unique. rewrite Heq53, pow2_succ. pose proof (pow2_pos (e + 53)). lra. }
      apply (nearest_multiple s (2 ^ 52) (e + 1) Hs).
      + rewrite Heq53, pow2_inject by lia. rewrite <- Qpower_plus by discriminate.
        replace (52 + (e + 1))%Z with (e + 53)%Z by lia. reflexivity.
      + unfold Binary64.ulp_exp. rewrite Elog. lia. }
  destruct (round_of_positive s Hs) as [[Hover _]|[_ (d & Ed & Ev)]]; [lra|].
  exists d. split; [exact Ed | lra].
Qed.

(** A budget divided by a larger total and multiplied by it again is at
    most one unit in the last place above the budget, as long as the
    quotient is not in the subnormal range. *)
Lemma product_within_ulp (y x : Binary64.double) :
  0 < y -> y < x -> 2 ^ (-1022) * x <= y ->
  exists p : Binary64.double,
    Num.mul (Num.div (Finite y) (Finite x)) (Finite x) = Finite p
    /\ 0 <= p <= y + 2 ^ Binary64.ulp_exp y.
Proof.
  intros Hy Hlt Hnormal. assert (0 < x) as Hx by lra.
  rewrite div_Fin by lra.
  assert (2 ^ (-1022) <= y / x) as Hq by (apply Qle_shift_div_l; lra).
  assert (y / x <= 1) as Hq1 by (apply Qle_shift_div_r; lra).
  assert (0 < 2 ^ (-1022)) as P by apply pow2_pos.
  assert (0 < 2 ^ (-53)) as P53 by reflexivity.
  pose proof (nearest_relative_error (y / x) Hq) as Herr.
  pose proof (round_le_double (y / x) (Binary64.mk 1 eq_refl) Hq1) as Hle1.
  destruct (round_of_positive (y / x)) as [[_ E]|[_ (c & E & Ec)]]; [lra | |];
    rewrite E in Hle1 |- *; [discriminate|].
  simpl Num.mul.
  assert (0 <= c) as Hc0 by (rewrite Ec; apply nearest_nonneg; lra).
  assert (c * x <= y * (1 + 2 ^ (-53))) as Hcx.
  { rewrite Ec. assert (y * (1 + 2 ^ (-53)) == y / x * (1 + 2 ^ (-53)) * x) as -> by (field; lra).
    apply Qmult_le_compat_r; [exact Herr | lra]. }
  pose proof (below_next_binade y Hy) as Hup.
  rewrite Z.add_comm, Qpower_plus in Hup by discriminate.
  assert (2 ^ 53 * 2 ^ (-53) == 1) as Einv by reflexivity.
  pose proof (pow2_pos (Binary64.ulp_exp y)) as Pu.
  assert (y * 2 ^ (-53) < 2 ^ Binary64.ulp_exp y) as Hfrac.
  { apply (Qmult_lt_l _ _ (2 ^ 53)); [reflexivity|]. 
    assert (2 ^ 53 * (y * 2 ^ (-53)) == y) as -> by (rewrite (Qmult_comm y), Qmult_assoc, Einv; ring).
    exact Hup. }
  destruct (round_successor y x Hy Hlt) as (d & Ed & Ev).
  assert (Num.leb (Num.round (c * x)) (Finite d) = true) as Hle.
  { rewrite <- Ed. apply round_mono. lra. }
  assert (Num.leb Num.zero (Num.round (c * x)) = true) as Hge.
  { apply round_nonneg. nra. }
  destruct (Num.round (c * x)) as [p| | |]; try discriminate.
  exists p. split; [reflexivity|].
  apply (proj1 (leb_Fin _ _)) in Hle, Hge. simpl in Hge. lra.
Qed.

End RoundingErrors.

(** ** Doubles as multiples of powers of two *)

Section DoublesAsMultiples.

Local Open Scope Q_scope.

(** The positive rationals that rounding leaves as they are, and that
    are below [2 ^ 1024], are the [m * 2 ^ e] with [0 < m < 2 ^ 53] and
    [-1074 <= e <= 971]. *)
Lemma positive_double_iff (q : Q) :
  0 < q ->
  (Binary64.nearest q == q /\ q < 2 ^ 1024)
  <-> exists m e : Z, (0 < m < 2 ^ 53)%Z /\ (-1074 <= e <= 971)%Z /\ q == inject_Z m * 2 ^ e.
Proof.
  intros Hq. split.
  - intros [E Hmax].
    pose proof (below_next_binade q Hq) as Hup.
    pose proof (ulp_exp_min q) as Hmin.
    set (e := Binary64.ulp_exp q) in *. pose proof (pow2_pos e) as P.
    exists (Binary64.rne (q / 2 ^ e)), e.
    assert (q == inject_Z (Binary64.rne (q / 2 ^ e)) * 2 ^ e) as Eq by (symmetry; exact E).
    split; [|split; [|exact Eq]].
    + split.
      * rewrite Zlt_Qlt. apply (Qmult_lt_r _ _ (2 ^ e) P). rewrite <- Eq.
        change (inject_Z 0) with 0. lra.
      * rewrite Zlt_Qlt, pow2_inject by lia. apply (Qmult_lt_r _ _ (2 ^ e) P).
        rewrite <- Eq, <- Qpower_plus by discriminate. rewrite Z.add_comm. exact Hup.
    + split; [exact Hmin|].
      destruct (ilog2_spec q Hq) as [H0 _].
      assert (Binary64.ilog2 q < 1024)%Z by (apply pow2_lt_inv; lra).
      unfold e, Binary64.ulp_exp. lia.
  - intros (m & e & [Hm0 Hm] & [He0 He] & Eq).
    pose proof (pow2_pos e) as P.
    assert (inject_Z m < 2 ^ 53) as Hm'.
    { rewrite <- (pow2_inject 53) by lia. rewrite <- Zlt_Qlt. exact Hm. }
    assert (q < 2 ^ (e + 53)) as Hup.
    { rewrite Eq, Z.add_comm, Qpower_plus by discriminate. apply Qmult_lt_r; assumption. }
    split.
    + apply (nearest_multiple q m e Hq Eq).
      destruct (ilog2_spec q Hq) as [H0 _].
      assert (Binary64.ilog2 q < e + 53)%Z by (apply pow2_lt_inv; lra).
      unfold Binary64.ulp_exp. lia.
    + apply (Qlt_le_trans _ _ _ Hup). apply pow2_le. lia.
Qed.

(** A double is a fraction in lowest terms that is [m * 2 ^ e] for
    integers [m] of magnitude below [2 ^ 53] and [-1074 <= e <= 971]. *)
Lemma is_double_iff (q : Q) :
  Binary64.is_double q = true
  <-> Qred q = q
      /\ exists m e : Z, (Z.abs m < 2 ^ 53)%Z /\ (-1074 <= e <= 971)%Z /\ q == inject_Z m * 2 ^ e.
Proof.
  split.
  - intros H. set (d := Binary64.mk q H).
    assert (Qred q = q) as Hred.
    { pose proof (round_value d) as Hr. simpl in Hr.
      destruct (Q_sign_cases q) as [Hq|[Hq|Hq]].
      - rewrite round_negative in Hr by exact Hq.
        destruct (round_pos_cases (- q)) as [[_ E]|[_ E]]; rewrite E in Hr; [discriminate|].
        simpl in Hr. injection Hr as Hr. rewrite <- Hr at 1.
        rewrite Qred_opp, (Qred_complete _ _ (Qred_correct _)), Hr. reflexivity.
      - rewrite round_zero in Hr by exact Hq. injection Hr as <-. reflexivity.
      - rewrite round_positive in Hr by exact Hq.
        destruct (round_pos_cases q) as [[_ E]|[_ E]]; rewrite E in Hr; [discriminate|].
        injection Hr as Hr. rewrite <- Hr at 1. rewrite (Qred_complete _ _ (Qred_correct _)). exact Hr. }
    split; [exact Hred|].
    destruct (Q_sign_cases q) as [Hq|[Hq|Hq]].
    + destruct (proj1 (positive_double_iff (- q) ltac:(lra)) (double_negative d Hq))
        as (m & e & Hm & He & Eq).
      exists (- m)%Z, e. split; [lia|]. split; [exact He|].
      rewrite inject_Z_opp. lra.
    + exists 0%Z, 0%Z. split; [reflexivity|]. split; [lia|]. rewrite Hq. reflexivity.
    + destruct (proj1 (positive_double_iff q Hq) (double_positive d Hq))
        as (m & e & Hm & He & Eq).
      exists m, e. split; [lia|]. split; [exact He | exact Eq].
  - intros (Hred & m & e & Hm & He & Eq).
    pose proof (pow2_pos e) as P. unfold Binary64.is_double.
    destruct (Q_sign_cases q) as [Hq|[Hq|Hq]].
    + assert (m < 0)%Z as Hneg.
      { rewrite Zlt_Qlt. change (inject_Z 0) with 0. nra. }
      destruct (proj2 (positive_double_iff (- q) ltac:(lra))) as [E Hmax].
      { exists (- m)%Z, e. split; [lia|]. split; [exact He|]. rewrite inject_Z_opp. lra. }
      rewrite round_negative by exact Hq.
      destruct (round_pos_cases (- q)) as [[Hover _]|[_ ->]]; [lra|].
      simpl. apply same_eq. rewrite (Qred_complete _ _ E), Qred_opp, Hred.
      destruct q as [a b]. unfold Qopp. simpl. rewrite Z.opp_involutive. reflexivity.
    + rewrite round_zero by exact Hq. apply same_eq.
      rewrite <- Hred. symmetry. apply (Qred_complete q 0 Hq).
    + assert (0 < m)%Z as Hpos.
      { rewrite Zlt_Qlt. change (inject_Z 0) with 0. nra. }
      destruct (proj2 (positive_double_iff q Hq)) as [E Hmax].
      { exists m, e. split; [lia|]. split; [exact He | exact Eq]. }
      rewrite round_positive by exact Hq.
      destruct (round_pos_cases q) as [[Hover _]|[_ ->]]; [lra|].
      apply same_eq. rewrite (Qred_complete _ _ E). exact Hred.
Qed.

End DoublesAsMultiples.

(** ** Rounding returns a nearest double *)

Section Nearest.

Local Open Scope Q_scope.

Lemma Qabs_cases (x : Q) : (0 <= x /\ Qabs x == x) \/ (x < 0 /\ Qabs x == - x).
Proof.
  destruct (Qlt_le_dec x 0) as [H|H].
  - right. split; [exact H|]. apply Qabs_neg. lra.
  - left. split; [exact H|]. apply Qabs_pos. exact H.
Qed.

(** No integer is nearer to a rational than the one [rne] returns. *)
Lemma rne_nearest (z : Q) (k : Z) :
  Qabs (inject_Z (Binary64.rne z) - z) <= Qabs (inject_Z k - z).
Proof.
  pose proof (Qfloor_le z) as Hf. pose proof (Qlt_floor z) as Hf'.
  rewrite inject_Z_plus in Hf'. change (inject_Z 1) with 1 in Hf'.
  assert (inject_Z k <= inject_Z (Qfloor z) \/ inject_Z (Qfloor z) + 1 <= inject_Z k) as Hk.
  { destruct (Z_le_gt_dec k (Qfloor z)) as [H|H].
    - left. rewrite <- Zle_Qle. exact H.
    - right. change 1 with (inject_Z 1). rewrite <- inject_Z_plus, <- Zle_Qle. lia. }
  unfold Binary64.rne.
  pose proof (Qcompare_cases (z - inject_Z (Qfloor z)) (1 # 2)) as C.
  destruct (Qabs_cases (inject_Z k - z)) as [[H1 ->]|[H1 ->]];
    destruct (z - inject_Z (Qfloor z) ?= 1 # 2); try destruct (Z.even (Qfloor z));
    rewrite ?inject_Z_plus; change (inject_Z 1) with 1;
    match goal with
    | |- Qabs ?x <= _ => destruct (Qabs_cases x) as [[H2 ->]|[H2 ->]]
    end; lra.
Qed.

(** No multiple of the unit in the last place is nearer to a positive
    rational than what [nearest] returns. *)
Lemma nearest_optimal_multiple (q : Q) (k : Z) :
  0 < q ->
  Qabs (Binary64.nearest q - q) <= Qabs (inject_Z k * 2 ^ Binary64.ulp_exp q - q).
Proof.
  intros Hq. unfold Binary64.nearest.
  set (e := Binary64.ulp_exp q). pose proof (pow2_pos e) as P.
  pose proof (rne_nearest (q / 2 ^ e) k) as H.
  assert (forall m : Z, inject_Z m * 2 ^ e - q == (inject_Z m - q / 2 ^ e) * 2 ^ e) as E
    by (intros m; field; lra).
  rewrite !E, !Qabs_Qmult, (Qabs_pos (2 ^ e)) by lra.
  apply Qmult_le_compat_r; [exact H | lra].
Qed.

(** Nor is zero or a negative rational. *)
Lemma nearest_optimal_nonpos (q d : Q) :
  0 < q -> d <= 0 -> Qabs (Binary64.nearest q - q) <= Qabs (d - q).
Proof.
  intros Hq Hd. pose proof (nearest_optimal_multiple q 0 Hq) as H.
  apply (Qle_trans _ _ _ H).
  assert (inject_Z 0 * 2 ^ Binary64.ulp_exp q - q == - q) as -> by (change (inject_Z 0) with 0; ring).
  rewrite (Qabs_neg (- q)), (Qabs_neg (d - q)) by lra. lra.
Qed.

(** No positive double is nearer to a positive rational than what
    [nearest] returns. *)
Lemma nearest_optimal (q d : Q) :
  0 < q -> 0 < d -> Binary64.nearest d == d ->
  Qabs (Binary64.nearest q - q) <= Qabs (d - q).
Proof.
  intros Hq Hd Ed.
  pose proof (ulp_exp_min q) as Hmin.
  pose proof (nearest_optimal_multiple q) as Hmult.
  set (e := Binary64.ulp_exp q) in *. pose proof (pow2_pos e) as P.
  destruct (Z_le_gt_dec e (Binary64.ulp_exp d)) as [Hle|Hgt].
  - (* [d] is a multiple of the unit in the last place at [q] *)
    set (ed := Binary64.ulp_exp d) in *.
    specialize (Hmult (Binary64.rne (d / 2 ^ ed) * 2 ^ (ed - e))%Z Hq).
    assert (inject_Z (Binary64.rne (d / 2 ^ ed) * 2 ^ (ed - e)) * 2 ^ e == d) as Ek.
    { rewrite inject_Z_mult, pow2_inject by lia.
      rewrite Qpower_minus by discriminate.
      rewrite <- Ed at 2. unfold Binary64.nearest. fold ed. field. lra. }
    rewrite Ek in Hmult. exact Hmult.
  - (* [d] is below the binade of [q] *)
    assert (e = (Binary64.ilog2 q - 52)%Z) as Ee by (unfold e, Binary64.ulp_exp in *; lia).
    destruct (ilog2_spec q Hq) as [Hlow _].
    destruct (ilog2_spec d Hd) as [_ Hdup].
    assert (2 ^ (Binary64.ilog2 d + 1) <= 2 ^ (e + 52)) as Hstep.
    { apply pow2_le. unfold Binary64.ulp_exp in Hgt. lia. }
    replace (Binary64.ilog2 q) with (e + 52)%Z in Hlow by lia.
    specialize (Hmult (2 ^ 52)%Z Hq).
    rewrite pow2_inject in Hmult by lia.
    rewrite <- Qpower_plus in Hmult by discriminate. rewrite (Z.add_comm 52 e) in Hmult.
    apply (Qle_trans _ _ _ Hmult).
    rewrite (Qabs_neg (2 ^ (e + 52) - q)), (Qabs_neg (d - q)) by lra. lra.
Qed.

(** A rounded rational is a double nearest to it: no double is nearer. *)
Lemma round_is_nearest (q : Q) (r d : Binary64.double) :
  Num.round q = Finite r -> Qabs (r - q) <= Qabs (d - q).
Proof.
  intros Hr. destruct (Q_sign_cases q) as [Hq|[Hq|Hq]].
  - destruct (round_of_negative q Hq) as [[_ E]|[_ (r' & E & Er)]];
      rewrite E in Hr; [discriminate|]. injection Hr as ->.
    assert (r - q == - (Binary64.nearest (- q) - - q)) as -> by (rewrite Er; ring).
    assert (d - q == - (- d - - q)) as -> by ring.
    rewrite !Qabs_opp.
    destruct (Qlt_le_dec d 0) as [Hd|Hd].
    + destruct (double_negative d Hd) as [Ed _].
      apply nearest_optimal; [lra | lra | exact Ed].
    + apply nearest_optimal_nonpos; lra.
  - rewrite (round_of_zero q Hq) in Hr. injection Hr as <-.
    pose proof (Qabs_nonneg (d - q)) as H0.
    change (Binary64.value (Binary64.mk 0 eq_refl)) with 0.
    destruct (Qabs_cases (0 - q)) as [[_ ->]|[_ ->]]; lra.
  - destruct (round_of_positive q Hq) as [[_ E]|[_ (r' & E & Er)]];
      rewrite E in Hr; [discriminate|]. injection Hr as ->.
    assert (r - q == Binary64.nearest q - q) as -> by (rewrite Er; ring).
    destruct (Qlt_le_dec 0 d) as [Hd|Hd].
    + destruct (double_positive d Hd) as [Ed _].
      apply nearest_optimal; assumption.
    + apply nearest_optimal_nonpos; assumption.
Qed.

End Nearest.

(** ** Overflow *)

Section Overflow.

Local Open Scope Q_scope.

(** Rounding overflows to [Infinity] from half a unit in the last place
    above the largest double on. *)
Lemma round_overflow (q : Q) : Num.round q = PInf <-> 2 ^ 1024 - 2 ^ 970 <= q.
Proof.
  assert (0 < 2 ^ 1024 - 2 ^ 970) as Hpos by reflexivity.
  split.
  - intros Hr. destruct (Q_sign_cases q) as [Hq|[Hq|Hq]].
    + destruct (round_of_negative q Hq) as [[_ E]|[_ (r & E & _)]];
        rewrite E in Hr; discriminate.
    + rewrite (round_of_zero q Hq) in Hr. discriminate.
    + destruct (round_of_positive q Hq) as [[Hover _]|[_ (r & E & _)]];
        [|rewrite E in Hr; discriminate].
      apply Qnot_lt_le. intros Hlt.
      pose proof (nearest_upper_error q Hq) as Herr.
      destruct (ilog2_spec q Hq) as [H0 _].
      assert (2 ^ 1024 - 2 ^ 970 < 2 ^ 1024) as Hlt' by reflexivity.
      assert (Binary64.ilog2 q < 1024)%Z as Hlog by (apply pow2_lt_inv; lra).
      assert (2 ^ Binary64.ulp_exp q <= 2 ^ 971) as Hulp.
      { apply pow2_le. unfold Binary64.ulp_exp. lia. }
      assert ((1 # 2) * 2 ^ 971 == 2 ^ 970) as Ehalf by reflexivity.
      lra.
  - intros Hq. assert (0 < q) as Hq' by lra.
    destruct (round_of_positive q Hq') as [[_ E]|[Hlt _]]; [exact E|].
    pose proof (nearest_mono (2 ^ 1024 - 2 ^ 970) q Hpos Hq) as Hmono.
    assert (2 ^ 1024 <= Binary64.nearest (2 ^ 1024 - 2 ^ 970)) as Hedge.
    { apply Qle_bool_iff. vm_compute. reflexivity. }
    lra.
Qed.

End Overflow.

(** ** The arithmetic on some inputs *)

(** The arithmetic on some inputs, as JavaScript computes it:
    [7 / 100 * 100] is [7.000000000000001], [0.1 + 0.2] is
    [0.30000000000000004], [1e16 + 1] is [1e16], [1e308 + 1e308] is
    [Infinity], [5e-324 / 2] is [0] and [1.5e-323 / 2] is [1e-323]. *)
Example arithmetic_rounds :
  Num.div (Fin 7) (Fin 100) = Fin (1261007895663739 # 18014398509481984)
  /\ Num.mul (Num.div (Fin 7) (Fin 100)) (Fin 100) = Fin (7881299347898369 # 1125899906842624)
  /\ Num.add (Num.round (1 # 10)) (Num.round (2 # 10)) = Fin (1351079888211149 # 4503599627370496)
  /\ Num.add (Fin 10000000000000000) (Fin 1) = Fin 10000000000000000
  /\ Num.add (Num.round (10 ^ 308)) (Num.round (10 ^ 308)) = PInf
  /\ Num.div (Fin (2 ^ (-1074))) (Fin 2) = Fin 0
  /\ Num.div (Fin (3 * 2 ^ (-1074))) (Fin 2) = Fin (2 ^ (-1073)).
Proof. repeat split; vm_compute; reflexivity. Qed.

(** On these inputs the arithmetic of [Num] returns what the machine's
    binary64 arithmetic returns: quotients, products and sums that are not
    doubles, a sum that absorbs its second term, ties, subnormal results,
    underflow and overflow, and the special values. *)
Example arithmetic_as_the_machine :
  Num.div (Fin 7) (Fin 100) = of_float (7 / 100)
  /\ Num.mul (Num.div (Fin 7) (Fin 100)) (Fin 100) = of_float (7 / 100 * 100)
  /\ Num.mul (Fin 10) (Num.div (Fin 7) (Fin 100)) = of_float (10 * (7 / 100))
  /\ Num.mul (Fin 90) (Num.div (Fin 7) (Fin 100)) = of_float (90 * (7 / 100))
  /\ Num.add (Num.div (Fin 1) (Fin 10)) (Num.div (Fin 2) (Fin 10)) = of_float (1 / 10 + 2 / 10)
  /\ Num.div (Fin (-1)) (Fin 3) = of_float (-1 / 3)
  /\ Num.add (Fin 10000000000000000) (Fin 1) = of_float (10000000000000000 + 1)
  /\ Num.add (Fin 9007199254740992) (Fin 1) = of_float (9007199254740992 + 1)
  /\ Num.add (Fin 9007199254740992) (Fin 3) = of_float (9007199254740992 + 3)
  /\ Num.add (Fin (2 ^ 1023)) (Fin (2 ^ 1023)) = of_float (0x1p1023 + 0x1p1023)
  /\ Num.mul (Fin (2 ^ 1023)) (Fin (-2)) = of_float (0x1p1023 * -2)
  /\ Num.div (Fin (2 ^ (-1074))) (Fin 2) = of_float (0x1p-1074 / 2)
  /\ Num.div (Fin (3 * 2 ^ (-1074))) (Fin 2) = of_float (0x3p-1074 / 2)
  /\ Num.mul (Fin (2 ^ (-600))) (Fin (2 ^ (-600))) = of_float (0x1p-600 * 0x1p-600)
  /\ Num.div (Fin 1) (Fin 0) = of_float (1 / 0)
  /\ Num.div (Fin 0) (Fin 0) = of_float (0 / 0)
  /\ Num.mul (Fin 0) PInf = of_float (0 * infinity)
  /\ Num.div (Fin 7) PInf = of_float (7 / infinity)
  /\ Num.add PInf NInf = of_float (infinity + neg_infinity).
Proof. repeat split; vm_compute; reflexivity. Qed.

(** ** Sums *)

Section Sums.

Context {A : Type} (valueof : A -> number).

Lemma sum_fold (values : list A) :
  d3.sum values valueof = fold_left (d3.sum_step valueof) values Num.zero.
Proof. reflexivity. Qed.

Lemma sum_nil : d3.sum [] valueof = Num.zero.
Proof. reflexivity. Qed.

Lemma fold_sum_nonneg (values : list A) (acc : number) :
  Num.leb Num.zero acc = true ->
  (forall v, In v values -> Num.leb Num.zero (valueof v) = true) ->
  Num.leb Num.zero (fold_left (d3.sum_step valueof) values acc) = true.
Proof.
  revert acc. induction values as [|v values IH]; intros acc Hacc Hall; simpl.
  - exact Hacc.
  - apply IH.
    + unfold d3.sum_step. destruct (Num.isNaN (valueof v)); [exact Hacc|].
      apply add_nonneg; [exact Hacc | apply Hall; left; reflexivity].
    + intros v' Hv'. apply Hall. right. exact Hv'.
Qed.

Lemma sum_nonneg (values : list A) :
  (forall v, In v values -> Num.leb Num.zero (valueof v) = true) ->
  Num.leb Num.zero (d3.sum values valueof) = true.
Proof. intros H. rewrite sum_fold. apply fold_sum_nonneg; [reflexivity | exact H]. Qed.

Lemma fold_sum_zero (values : list A) (acc : number) :
  Num.eqb acc Num.zero = true ->
  (forall v, In v values -> Num.eqb (valueof v) Num.zero = true) ->
  Num.eqb (fold_left (d3.sum_step valueof) values acc) Num.zero = true.
Proof.
  revert acc. induction values as [|v values IH]; intros acc Hacc Hall; simpl.
  - exact Hacc.
  - apply IH.
    + unfold d3.sum_step. specialize (Hall v (or_introl eq_refl)).
      destruct (valueof v) as [y| | |], acc as [x| | |]; simpl in *; try congruence.
      apply Qeq_bool_iff in Hacc, Hall. simpl in Hacc, Hall.
      rewrite (round_of_zero (x + y)) by lra. reflexivity.
    + intros v' Hv'. apply Hall. right. exact Hv'.
Qed.

Lemma sum_all_zero (values : list A) :
  (forall v, In v values -> Num.eqb (valueof v) Num.zero = true) ->
  Num.eqb (d3.sum values valueof) Num.zero = true.
Proof. intros H. rewrite sum_fold. apply fold_sum_zero; [reflexivity | exact H]. Qed.

End Sums.

(** ** The current budget *)

Section FindCurrentBudget.

Lemma nonDecreasing_tail (x : number) (xs : list number) :
  nonDecreasing (x :: xs) -> nonDecreasing xs.
Proof. intros H i a b Ha Hb. apply (H (S i) a b); assumption. Qed.

(** In a non-decreasing list an element is [<=] every later one. *)
Lemma nonDecreasing_lt (xs : list number) (i j : nat) (x y : number) :
  nonDecreasing xs -> i < j -> xs !! i = Some x -> xs !! j = Some y ->
  Num.leb x y = true.
Proof.
  intros Hs Hij. revert y. induction Hij as [|j Hij IH]; intros y Hx Hy.
  - apply (Hs i); assumption.
  - destruct (xs !! j) as [z|] eqn:Hz.
    + apply leb_trans with z; [apply IH; [exact Hx | reflexivity] | apply (Hs j); assumption].
    + apply lookup_ge_None in Hz.
      assert (is_Some (xs !! S j)) as Hsome by eauto.
      apply lookup_lt_is_Some in Hsome. lia.
Qed.

(** The loop stops at once when the head has not started. *)
Lemma findCurrentBudget_loop_none (rest : list BudgetPeriod.t) (t : TimestampMs)
    (current : number) :
  (forall p, In p rest -> Num.leb (BudgetPeriod.startTimeMs p) t = false) ->
  findCurrentBudget_loop rest t current = current.
Proof.
  destruct rest as [|p rest]; intros H; simpl; [reflexivity|].
  rewrite (H p) by (left; reflexivity). reflexivity.
Qed.

Lemma findCurrentBudget_loop_last (rest : list BudgetPeriod.t) (t : TimestampMs) :
  nonDecreasing (map BudgetPeriod.startTimeMs rest) ->
  forall (i : nat) (p : BudgetPeriod.t) (current : number),
    rest !! i = Some p ->
    Num.leb (BudgetPeriod.startTimeMs p) t = true ->
    (forall j q, i < j -> rest !! j = Some q ->
                 Num.leb (BudgetPeriod.startTimeMs q) t = false) ->
    findCurrentBudget_loop rest t current = BudgetPeriod.budget p.
Proof.
  induction rest as [|r rest IH]; intros Hs i p current Hp Hstarted Hlater.
  - discriminate.
  - destruct i as [|i]; simpl in Hp.
    + injection Hp as ->. simpl. rewrite Hstarted.
      apply findCurrentBudget_loop_none. intros q Hq.
      apply list_elem_of_In, list_elem_of_lookup in Hq as [j Hj].
      apply (Hlater (S j)); [lia | exact Hj].
    + assert (Num.leb (BudgetPeriod.startTimeMs r) t = true) as Hr.
      { apply leb_trans with (BudgetPeriod.startTimeMs p); [|exact Hstarted].
        apply (nonDecreasing_lt _ 0 (S i) _ _ Hs); [lia | reflexivity |].
        simpl. rewrite list_lookup_fmap, Hp. reflexivity. }
      simpl. rewrite Hr. apply (IH (nonDecreasing_tail _ _ Hs) i); [exact Hp | exact Hstarted |].
      intros j q Hij Hq. apply (Hlater (S j)); [lia | exact Hq].
Qed.

End FindCurrentBudget.

(** ** The order check and non-decreasing lists *)

Section InSortedOrder.

Lemma leb_ltb_false (a b : number) : Num.leb a b = true -> Num.ltb b a = false.
Proof.
  destruct a as [x| | |], b as [y| | |]; simpl; try congruence.
  intros ->. reflexivity.
Qed.

Lemma ltb_false_leb (a b : number) :
  Num.isNaN a = false -> Num.isNaN b = false -> Num.ltb b a = false -> Num.leb a b = true.
Proof.
  destruct a as [x| | |], b as [y| | |]; simpl; try congruence.
  intros _ _. apply negb_false_iff.
Qed.

Lemma inSortedOrder_from_nonDecreasing (xs : list number) (last : number) :
  nonDecreasing xs ->
  match xs with [] => True | x :: _ => Num.ltb x last = false end ->
  inSortedOrder_from last xs = true.
Proof.
  revert last. induction xs as [|x xs IH]; intros last Hs Hhead; simpl; [reflexivity|].
  rewrite Hhead. apply IH; [exact (nonDecreasing_tail _ _ Hs)|].
  destruct xs as [|y xs]; [exact I|].
  apply leb_ltb_false. apply (Hs 0 x y); reflexivity.
Qed.

(** The check accepts every non-decreasing list. *)
Lemma nonDecreasing_inSortedOrder (xs : list number) :
  nonDecreasing xs -> inSortedOrder xs = true.
Proof.
  intros Hs. apply inSortedOrder_from_nonDecreasing; [exact Hs|].
  destruct xs as [|x xs]; [exact I | destruct x; reflexivity].
Qed.

(** A list without [NaN] that the check accepts is non-decreasing. *)
Lemma inSortedOrder_from_inv (xs : list number) (last : number) :
  inSortedOrder_from last xs = true ->
  (forall x, In x xs -> Num.isNaN x = false) ->
  nonDecreasing xs.
Proof.
  revert last. induction xs as [|x xs IH]; intros last Hcheck Hnan i a b Ha Hb.
  - discriminate.
  - simpl in Hcheck. destruct (Num.ltb x last); [discriminate|].
    destruct i as [|i]; simpl in Ha, Hb.
    + injection Ha as <-. destruct xs as [|y xs]; [discriminate|].
      injection Hb as <-. simpl in Hcheck.
      destruct (Num.ltb y x) eqn:E; [discriminate|].
      apply ltb_false_leb; [apply Hnan; left; reflexivity
                           | apply Hnan; right; left; reflexivity | exact E].
    + apply (IH x Hcheck (fun y Hy => Hnan y (or_intror Hy)) i a b Ha Hb).
Qed.

Lemma inSortedOrder_nonDecreasing (xs : list number) :
  (forall x, In x xs -> Num.isNaN x = false) ->
  inSortedOrder xs = true <-> nonDecreasing xs.
Proof.
  intros Hnan. split.
  - intros H. apply (inSortedOrder_from_inv xs NInf H Hnan).
  - apply nonDecreasing_inSortedOrder.
Qed.

End InSortedOrder.

(** C3. On periods that are non-decreasing by start time,
    [_findCurrentBudget] returns the budget of the period at the greatest
    index among those that have started by the timestamp (so among periods
    with equal start times the later one wins), and positive infinity when
    no period has started: when the list is empty, or every start time is
    greater than the timestamp. *)
Theorem findCurrentBudget_last_started (periods : list BudgetPeriod.t) (t : TimestampMs) :
  nonDecreasing (map BudgetPeriod.startTimeMs periods) ->
  (forall i p,
      periods !! i = Some p ->
      Num.leb (BudgetPeriod.startTimeMs p) t = true ->
      (forall j q, i < j -> periods !! j = Some q ->
                   Num.leb (BudgetPeriod.startTimeMs q) t = false) ->
      _findCurrentBudget periods t = BudgetPeriod.budget p)
  /\ ((forall p, In p periods -> Num.leb (BudgetPeriod.startTimeMs p) t = false) ->
      _findCurrentBudget periods t = PInf)
  /\ ((forall p, In p periods -> Num.ltb t (BudgetPeriod.startTimeMs p) = true) ->
      _findCurrentBudget periods t = PInf).
Proof.
  intros Hs. unfold _findCurrentBudget. split; [|split].
  - intros i p Hp Hstarted Hlater.
    apply (findCurrentBudget_loop_last periods t Hs i p PInf Hp Hstarted Hlater).
  - apply findCurrentBudget_loop_none.
  - intros H. apply findCurrentBudget_loop_none.
    intros p Hp. apply ltb_leb_false, H, Hp.
Qed.

Lemma findCurrentBudget_last_started_witness :
  _findCurrentBudget [Tests.p1; Tests.p2; Tests.p3; Tests.p4] (Fin 1) = Fin 3.
Proof.
  assert (nonDecreasing (map BudgetPeriod.startTimeMs [Tests.p1; Tests.p2; Tests.p3; Tests.p4]))
    as Hs.
  { apply (inSortedOrder_nonDecreasing
             (map BudgetPeriod.startTimeMs [Tests.p1; Tests.p2; Tests.p3; Tests.p4])).
    - intros x [<-|[<-|[<-|[<-|[]]]]]; reflexivity.
    - reflexivity. }
  destruct (findCurrentBudget_last_started [Tests.p1; Tests.p2; Tests.p3; Tests.p4] (Fin 1) Hs)
    as (Hlast & _).
  apply (Hlast 2 Tests.p3); [reflexivity | reflexivity |].
  intros j q Hj Hq. destruct j as [|[|[|[|j]]]]; try lia; simpl in Hq; [|discriminate].
  injection Hq as <-. reflexivity.
Defined.

(** ** The normalization coefficient *)

(** A coefficient computed by division is never [1]: the quotient of a
    budget by a larger total rounds to a double below [1]. *)
Lemma div_not_one (budget total : number) :
  Num.leb total budget = false -> Num.eqb (Num.div budget total) Num.one = false.
Proof.
  destruct budget as [y| | |], total as [x| | |]; simpl Num.leb; try reflexivity;
    try discriminate.
  - intros Hle. apply div_doubles_not_one. apply leb_Fin_false, Hle.
  - intros _. simpl. destruct (Num.sign x); reflexivity.
Qed.

(** C4, as amended. [_computeWeightNormalizer] returns exactly [1] when the
    sum of the weights is [<=] the budget, an infinite budget included,
    and otherwise the budget divided by the sum, which is never [1].  In
    that second case, for a finite sum and a finite budget, the coefficient
    times the sum is [0] when the budget is [0], and when the budget is
    positive and at least [2 ^ -1022] times the sum it is a finite number
    between [0] and the budget plus one unit in the last place of the
    budget; for an infinite sum and a finite budget it is [NaN]. *)
Theorem computeWeightNormalizer_cases (aws : list AddressWeight.t) (budget : number) :
  let total := d3.sum aws AddressWeight.weight in
  (Num.leb total budget = true -> _computeWeightNormalizer aws budget = Num.one)
  /\ (budget = PInf -> Num.isNaN total = false -> _computeWeightNormalizer aws budget = Num.one)
  /\ (Num.leb total budget = false ->
      _computeWeightNormalizer aws budget = Num.div budget total
      /\ Num.eqb (_computeWeightNormalizer aws budget) Num.one = false
      /\ (forall x y : Binary64.double,
             total = Finite x -> budget = Finite y -> (y == 0)%Q ->
             Num.mul (_computeWeightNormalizer aws budget) total = Num.zero)
      /\ (forall x y : Binary64.double,
             total = Finite x -> budget = Finite y ->
             (0 < y)%Q -> (2 ^ (-1022) * x <= y)%Q ->
             exists p : Binary64.double,
               Num.mul (_computeWeightNormalizer aws budget) total = Finite p
               /\ (0 <= p <= y + 2 ^ Binary64.ulp_exp y)%Q)
      /\ (total = PInf -> Num.isFinite budget = true ->
          Num.mul (_computeWeightNormalizer aws budget) total = NaN)).
Proof.
  intros total. unfold _computeWeightNormalizer. fold total. split; [|split].
  - intros ->. reflexivity.
  - intros -> Hnan. destruct total; try discriminate; reflexivity.
  - intros Hle. rewrite Hle. split; [reflexivity|]. split; [apply div_not_one, Hle|].
    split; [|split].
    + intros x y Ex Ey Hy. rewrite Ex, Ey in Hle |- *.
      apply (proj1 (leb_Fin_false _ _)) in Hle.
      rewrite div_Fin by lra.
      rewrite (round_of_zero (y / x)) by (rewrite Hy; field; lra).
      apply (round_of_zero (0 * x)). ring.
    + intros x y Ex Ey Hy Hnormal. rewrite Ex, Ey in Hle |- *.
      apply (proj1 (leb_Fin_false _ _)) in Hle.
      apply (product_within_ulp y x Hy Hle Hnormal).
    + intros -> Hfinite. destruct budget; try discriminate. reflexivity.
Qed.

Lemma computeWeightNormalizer_cases_witness :
  _computeWeightNormalizer [AddressWeight.mk Tests.a1 (Fin 10); AddressWeight.mk Tests.a2 (Fin 90)]
                           (Fin 10)
  = Num.div (Fin 10) (Fin 100)
  /\ _computeWeightNormalizer [AddressWeight.mk Tests.a1 (Fin 10)] PInf = Num.one.
Proof.
  split.
  - apply (computeWeightNormalizer_cases
             [AddressWeight.mk Tests.a1 (Fin 10); AddressWeight.mk Tests.a2 (Fin 90)] (Fin 10)).
    reflexivity.
  - apply (computeWeightNormalizer_cases [AddressWeight.mk Tests.a1 (Fin 10)] PInf); reflexivity.
Defined.

(** C4, as stated, fails.  With the weights [10] and [90] and the budget
    [7] the sum is [100], the coefficient is the double nearest to
    [7 / 100], and the coefficient times the sum is [7.000000000000001],
    the double after [7].  With the single weight [Infinity] and the
    budget [7] the coefficient is [0] and the coefficient times the sum is
    [NaN], which is not [<=] the budget either. *)
Lemma computeWeightNormalizer_exceeds_budget_counterexample :
  (let aws := [AddressWeight.mk Tests.a1 (Fin 10); AddressWeight.mk Tests.a2 (Fin 90)] in
   let total := d3.sum aws AddressWeight.weight in
   let coefficient := _computeWeightNormalizer aws (Fin 7) in
   total = Fin 100
   /\ Num.leb total (Fin 7) = false
   /\ coefficient = Num.div (Fin 7) (Fin 100)
   /\ coefficient = Fin (1261007895663739 # 18014398509481984)
   /\ Num.mul coefficient total = Fin (7881299347898369 # 1125899906842624)
   /\ Num.ltb (Fin 7) (Num.mul coefficient total) = true
   /\ Num.leb (Num.mul coefficient total) (Fin 7) = false)
  /\ (let aws := [AddressWeight.mk Tests.a1 PInf] in
      let total := d3.sum aws AddressWeight.weight in
      let coefficient := _computeWeightNormalizer aws (Fin 7) in
      total = PInf
      /\ Num.leb total (Fin 7) = false
      /\ coefficient = Num.zero
      /\ Num.mul coefficient total = NaN
      /\ Num.leb (Num.mul coefficient total) (Fin 7) = false).
Proof. repeat split; vm_compute; reflexivity. Qed.

(** The sum is rounded as well.  The weights [1e16] and [1] sum to
    [1e16], which is within the budget [1e16]: the coefficient is [1].
    The weights [1e308] and [1e308] sum to [Infinity]: under the budget
    [1e308] the coefficient is [0]. *)
Example computeWeightNormalizer_rounded_sum :
  _computeWeightNormalizer [AddressWeight.mk Tests.a1 (Fin 10000000000000000);
                            AddressWeight.mk Tests.a2 (Fin 1)]
                           (Fin 10000000000000000) = Num.one
  /\ _computeWeightNormalizer [AddressWeight.mk Tests.a1 (Num.round (10 ^ 308));
                               AddressWeight.mk Tests.a2 (Num.round (10 ^ 308))]
                              (Num.round (10 ^ 308)) = Num.zero.
Proof. split; vm_compute; reflexivity. Qed.

(** The coefficient of non-negative weights under a budget [>= 0] is a
    finite number between [0] and [1]. *)
Lemma computeWeightNormalizer_unit (aws : list AddressWeight.t) (budget : number) :
  (forall aw, In aw aws -> Num.leb Num.zero (AddressWeight.weight aw) = true) ->
  Num.leb Num.zero budget = true ->
  exists q : Binary64.double,
    _computeWeightNormalizer aws budget = Finite q /\ (0 <= q <= 1)%Q.
Proof.
  intros Hws Hb. pose proof (sum_nonneg AddressWeight.weight aws Hws) as Htotal.
  unfold _computeWeightNormalizer.
  destruct (Num.leb (d3.sum aws AddressWeight.weight) budget) eqn:Ele.
  { exists (Binary64.mk 1 eq_refl). split; [reflexivity | simpl; lra]. }
  destruct (d3.sum aws AddressWeight.weight) as [x| | |]; try discriminate;
    destruct budget as [y| | |]; try discriminate.
  - apply (proj1 (leb_Fin _ _)) in Htotal, Hb. simpl in Htotal, Hb.
    apply (proj1 (leb_Fin_false _ _)) in Ele.
    rewrite div_Fin by lra.
    pose proof (round_nonneg (y / x)) as H0.
    pose proof (round_le_double (y / x) (Binary64.mk 1 eq_refl)) as H1.
    specialize (H0 ltac:(apply Qle_shift_div_l; lra)).
    specialize (H1 ltac:(apply Qle_shift_div_r; simpl; lra)).
    destruct (Num.round (y / x)) as [q| | |]; try discriminate.
    exists q. split; [reflexivity|].
    apply (proj1 (leb_Fin _ _)) in H0, H1. simpl in H0, H1. lra.
  - exists (Binary64.mk 0 eq_refl). split; [reflexivity | simpl; lra].
Qed.

(** ** Running the monad *)

Section Runs.

Lemma logEvents_nil (s : State) : logEvents s [] = s.
Proof. destruct s as [h t]. unfold logEvents. simpl. rewrite app_nil_r. reflexivity. Qed.

Lemma logEvents_app (s : State) (evs1 evs2 : list Event) :
  logEvents (logEvents s evs1) evs2 = logEvents s (evs1 ++ evs2).
Proof. unfold logEvents. simpl. rewrite app_assoc. reflexivity. Qed.

Lemma heap_logEvents (s : State) (evs : list Event) : heap (logEvents s evs) = heap s.
Proof. reflexivity. Qed.

Lemma bind_Ok {A B : Type} (m : M A) (k : A -> M B) (s s' : State) (a : A) :
  m s = (Ok a, s') -> bind m k s = k a s'.
Proof. intros H. unfold bind. rewrite H. reflexivity. Qed.

Lemma bind_Throw {A B : Type} (m : M A) (k : A -> M B) (s s' : State) (e : Error) :
  m s = (Throw e, s') -> bind m k s = (Throw e, s').
Proof. intros H. unfold bind. rewrite H. reflexivity. Qed.

(** A [map] whose function returns normally, as a function of its
    argument, and only appends to the trace. *)
Lemma mapM_logging {A B : Type} (f : A -> M B) (g : A -> B) (ev : A -> list Event)
    (xs : list A) :
  (forall x s, In x xs -> f x s = (Ok (g x), logEvents s (ev x))) ->
  forall s, mapM f xs s = (Ok (map g xs), logEvents s (concat (map ev xs))).
Proof.
  induction xs as [|x xs IH]; intros Hf s; simpl.
  - unfold ret. rewrite logEvents_nil. reflexivity.
  - rewrite (bind_Ok _ _ _ _ _ (Hf x s (or_introl eq_refl))).
    rewrite (bind_Ok _ _ _ _ _ (IH (fun y s' Hy => Hf y s' (or_intror Hy)) _)).
    unfold ret. rewrite logEvents_app. reflexivity.
Qed.

(** A [map] stops at the first element on which the function throws. *)
Lemma mapM_throwing {A B : Type} (f : A -> M B) (g : A -> B) (ev : A -> list Event)
    (before after : list A) (x : A) (e : Error) :
  (forall y s, In y before -> f y s = (Ok (g y), logEvents s (ev y))) ->
  (forall s, f x s = (Throw e, s)) ->
  forall s, mapM f (before ++ x :: after) s
            = (Throw e, logEvents s (concat (map ev before))).
Proof.
  induction before as [|y before IH]; intros Hf Hx s; simpl.
  - rewrite (bind_Throw _ _ _ _ _ (Hx s)), logEvents_nil. reflexivity.
  - rewrite (bind_Ok _ _ _ _ _ (Hf y s (or_introl eq_refl))).
    rewrite (bind_Throw _ _ _ _ _ (IH (fun z s' Hz => Hf z s' (or_intror Hz)) Hx _)).
    rewrite logEvents_app. reflexivity.
Qed.

Lemma evaluatorOf_run (w : Weights.t) (a : NodeAddressT) (s : State) :
  evaluatorOf w a s = (Ok (nodeWeight w a), logEvents s [Evaluate a]).
Proof. reflexivity. Qed.

Lemma reweightingForBucket_run (w : Weights.t) (entry : BudgetEntry.t) (bucket : Bucket.t)
    (s : State) :
  reweightingForBucket (evaluatorOf w) entry bucket s
  = (Ok (bucketReweighting w entry bucket),
     logEvents s (map Evaluate (filteredAddresses (BudgetEntry.prefix entry) bucket))).
Proof.
  unfold reweightingForBucket, bucketReweighting, bucketBudget.
  set (filtered := filteredAddresses (BudgetEntry.prefix entry) bucket).
  erewrite bind_Ok; cycle 1.
  { apply (mapM_logging _ (fun a => AddressWeight.mk a (nodeWeight w a))
                        (fun a => [Evaluate a])).
    intros a s' _. reflexivity. }
  replace (concat (map (fun a => [Evaluate a]) filtered)) with (map Evaluate filtered)
    by (induction filtered as [|a l IH]; simpl; [reflexivity | rewrite <- IH; reflexivity]).
  destruct (negb _); reflexivity.
Qed.

Lemma map_Evaluate_concat (ls : list (list NodeAddressT)) :
  concat (map (map Evaluate) ls) = map Evaluate (concat ls).
Proof. rewrite concat_map. reflexivity. Qed.

Lemma reweightingForEntry_run (w : Weights.t) (partition : GraphIntervalPartition)
    (entry : BudgetEntry.t) (s : State) :
  periodsInOrder entry = true ->
  _reweightingForEntry (evaluatorOf w) partition entry s
  = (Ok (entryReweighting w partition entry),
     logEvents s (map Evaluate (entryAddresses partition entry))).
Proof.
  intros Hsorted. unfold _reweightingForEntry. fold (periodsInOrder entry).
  rewrite Hsorted. simpl.
  erewrite bind_Ok; cycle 1.
  { apply (mapM_logging _ (bucketReweighting w entry)
             (fun bucket => map Evaluate (filteredAddresses (BudgetEntry.prefix entry) bucket))).
    intros bucket s' _. apply reweightingForBucket_run. }
  unfold ret, entryReweighting, entryAddresses.
  rewrite <- map_Evaluate_concat, map_map. reflexivity.
Qed.

Lemma reweightingForEntry_throw (evaluator : NodeWeightEvaluator)
    (partition : GraphIntervalPartition) (entry : BudgetEntry.t) (s : State) :
  periodsInOrder entry = false ->
  _reweightingForEntry evaluator partition entry s
  = (Throw (PeriodsOutOfOrder (BudgetEntry.prefix entry)), s).
Proof.
  intros Hsorted. unfold _reweightingForEntry. fold (periodsInOrder entry).
  rewrite Hsorted. reflexivity.
Qed.

(** Either every entry has its periods in order, or there is a first one
    that has not. *)
Lemma periodsInOrder_first (entries : list BudgetEntry.t) :
  forallb periodsInOrder entries = true
  \/ exists before entry after,
      entries = before ++ entry :: after
      /\ forallb periodsInOrder before = true
      /\ periodsInOrder entry = false.
Proof.
  induction entries as [|e entries IH]; simpl.
  - left. reflexivity.
  - destruct (periodsInOrder e) eqn:He.
    + destruct IH as [IH|(before & entry & after & -> & Hb & Hentry)].
      * left. exact IH.
      * right. exists (e :: before), entry, after. simpl. rewrite He. auto.
    + right. exists [], e, entries. auto.
Qed.

Lemma forallb_In {A : Type} (f : A -> bool) (xs : list A) (x : A) :
  forallb f xs = true -> In x xs -> f x = true.
Proof. intros H Hx. rewrite forallb_forall in H. apply H, Hx. Qed.

End Runs.

Section RunsOfApplyBudget.

Context {Graph : Type} (partitionGraph : Graph -> GraphIntervalPartition).

Lemma computeReweighting_run (wg : WeightedGraphT Graph) (budget : Budget.t)
    (w : Weights.t) (s : State) :
  heap s !! weights wg = Some w ->
  forallb periodsInOrder (Budget.entries budget) = true ->
  _computeReweighting partitionGraph wg budget s
  = (Ok (reweightingOf w (partitionGraph (graph wg)) (Budget.entries budget)),
     logEvents s (evaluations (partitionGraph (graph wg)) (Budget.entries budget))).
Proof.
  intros Hw Hsorted. unfold _computeReweighting, nodeWeightEvaluator, readWeights.
  unfold bind at 1 2. rewrite Hw. unfold ret at 1.
  erewrite bind_Ok; cycle 1.
  { apply (mapM_logging _ (entryReweighting w (partitionGraph (graph wg)))
             (fun entry => map Evaluate (entryAddresses (partitionGraph (graph wg)) entry))).
    intros entry s' Hentry. apply reweightingForEntry_run.
    apply (forallb_In _ _ _ Hsorted Hentry). }
  reflexivity.
Qed.

Lemma computeReweighting_throw (wg : WeightedGraphT Graph) (budget : Budget.t)
    (w : Weights.t) (s : State) (before after : list BudgetEntry.t) (entry : BudgetEntry.t) :
  heap s !! weights wg = Some w ->
  Budget.entries budget = before ++ entry :: after ->
  forallb periodsInOrder before = true ->
  periodsInOrder entry = false ->
  _computeReweighting partitionGraph wg budget s
  = (Throw (PeriodsOutOfOrder (BudgetEntry.prefix entry)),
     logEvents s (evaluations (partitionGraph (graph wg)) before)).
Proof.
  intros Hw Hentries Hbefore Hentry.
  unfold _computeReweighting, nodeWeightEvaluator, readWeights.
  unfold bind at 1 2. rewrite Hw. unfold ret at 1. rewrite Hentries.
  erewrite bind_Throw; [reflexivity|].
  apply (mapM_throwing _ (entryReweighting w (partitionGraph (graph wg)))
           (fun entry => map Evaluate (entryAddresses (partitionGraph (graph wg)) entry))).
  - intros e s' He. apply reweightingForEntry_run. apply (forallb_In _ _ _ Hbefore He).
  - intros s'. apply reweightingForEntry_throw. exact Hentry.
Qed.

Lemma computeReweighting_dangling (wg : WeightedGraphT Graph) (budget : Budget.t) (s : State) :
  heap s !! weights wg = None ->
  _computeReweighting partitionGraph wg budget s = (Throw TypeError, s).
Proof.
  intros Hw. unfold _computeReweighting, nodeWeightEvaluator, readWeights.
  unfold bind at 1 2. rewrite Hw. reflexivity.
Qed.

(** The loop of writes: every iteration reads the original table at [l]
    and writes into the table at [l']. *)
Lemma writes_run (l l' : loc) (w : Weights.t) (reweighting : Reweighting) :
  l <> l' ->
  forall (acc : Weights.t) (s : State),
    heap s !! l = Some w -> heap s !! l' = Some acc ->
    forEach reweighting
      (fun r =>
         w0 <- readWeights l ;;
         let existingWeight :=
           NullUtil.orElse (Weights.nodeWeights w0 !! Reweight.address r) Num.one in
         setNodeWeight l' (Reweight.address r)
                       (Num.mul existingWeight (Reweight.weight r))) s
    = (Ok tt, mkState (<[l' := applyReweighting w reweighting acc]> (heap s))
                      (trace s ++ writeEvents l' w reweighting)).
Proof.
  intros Hne. induction reweighting as [|r reweighting IH]; intros acc s Hl Hl'; simpl.
  - unfold ret. rewrite app_nil_r, list_insert_id by exact Hl'.
    destruct s; reflexivity.
  - unfold bind at 1. unfold bind at 1. unfold readWeights at 1. rewrite Hl.
    unfold setNodeWeight, bind at 1. unfold readWeights at 1. rewrite Hl'.
    rewrite (IH (Weights.set (Reweight.address r) (newWeight w r) acc)).
    + simpl. rewrite list_insert_insert_eq, <- app_assoc. reflexivity.
    + simpl. rewrite list_lookup_insert_ne by auto. exact Hl.
    + simpl. apply list_lookup_insert_eq. apply lookup_lt_is_Some. eauto.
Qed.

(** The run of [applyBudget] on a policy that passes every validation. *)
Lemma applyBudget_run (wg : WeightedGraphT Graph) (budget : Budget.t)
    (w : Weights.t) (s : State) :
  heap s !! weights wg = Some w ->
  _anyCommonPrefixes (map BudgetEntry.prefix (Budget.entries budget)) = false ->
  String.eqb (Budget.intervalLength budget) "WEEKLY" = true ->
  forallb periodsInOrder (Budget.entries budget) = true ->
  let partition := partitionGraph (graph wg) in
  let reweighting := reweightingOf w partition (Budget.entries budget) in
  applyBudget partitionGraph wg budget s
  = (Ok (mkWeightedGraph (graph wg) (length (heap s))),
     mkState (heap s ++ [applyReweighting w reweighting w])
             (trace s ++ evaluations partition (Budget.entries budget)
                      ++ writeEvents (length (heap s)) w reweighting)).
Proof.
  intros Hw Hconflict Hweekly Hsorted partition reweighting.
  unfold applyBudget. rewrite Hconflict, Hweekly. simpl.
  unfold Weights_copy, readWeights. unfold bind at 1 2. rewrite Hw.
  assert (weights wg < length (heap s)) as Hlt by (apply lookup_lt_is_Some; eauto).
  erewrite bind_Ok; cycle 1.
  { apply (computeReweighting_run wg budget w); [|exact Hsorted].
    simpl. rewrite lookup_app_l by exact Hlt. exact Hw. }
  fold partition. fold reweighting.
  erewrite bind_Ok; cycle 1.
  { apply (writes_run (weights wg) (length (heap s)) w reweighting) with (acc := w).
    - lia.
    - simpl. rewrite lookup_app_l by exact Hlt. exact Hw.
    - simpl. apply list_lookup_middle. reflexivity. }
  unfold ret. simpl.
  rewrite insert_app_r_alt, Nat.sub_diag by lia. simpl.
  rewrite <- app_assoc. reflexivity.
Qed.

Lemma applyBudget_conflict (wg : WeightedGraphT Graph) (budget : Budget.t) (s : State) :
  _anyCommonPrefixes (map BudgetEntry.prefix (Budget.entries budget)) = true ->
  applyBudget partitionGraph wg budget s = (Throw PrefixConflict, s).
Proof. intros H. unfold applyBudget. rewrite H. reflexivity. Qed.

Lemma applyBudget_nonWeekly (wg : WeightedGraphT Graph) (budget : Budget.t) (s : State) :
  _anyCommonPrefixes (map BudgetEntry.prefix (Budget.entries budget)) = false ->
  String.eqb (Budget.intervalLength budget) "WEEKLY" = false ->
  applyBudget partitionGraph wg budget s = (Throw NonWeekly, s).
Proof. intros H1 H2. unfold applyBudget. rewrite H1, H2. reflexivity. Qed.

Lemma applyBudget_dangling (wg : WeightedGraphT Graph) (budget : Budget.t) (s : State) :
  _anyCommonPrefixes (map BudgetEntry.prefix (Budget.entries budget)) = false ->
  String.eqb (Budget.intervalLength budget) "WEEKLY" = true ->
  heap s !! weights wg = None ->
  applyBudget partitionGraph wg budget s = (Throw TypeError, s).
Proof.
  intros H1 H2 Hw. unfold applyBudget. rewrite H1, H2. simpl.
  unfold Weights_copy, readWeights. unfold bind at 1 2. rewrite Hw. reflexivity.
Qed.

Lemma applyBudget_outOfOrder (wg : WeightedGraphT Graph) (budget : Budget.t)
    (w : Weights.t) (s : State) (before after : list BudgetEntry.t) (entry : BudgetEntry.t) :
  _anyCommonPrefixes (map BudgetEntry.prefix (Budget.entries budget)) = false ->
  String.eqb (Budget.intervalLength budget) "WEEKLY" = true ->
  heap s !! weights wg = Some w ->
  Budget.entries budget = before ++ entry :: after ->
  forallb periodsInOrder before = true ->
  periodsInOrder entry = false ->
  applyBudget partitionGraph wg budget s
  = (Throw (PeriodsOutOfOrder (BudgetEntry.prefix entry)),
     mkState (heap s ++ [w])
             (trace s ++ evaluations (partitionGraph (graph wg)) before)).
Proof.
  intros H1 H2 Hw Hentries Hbefore Hentry. unfold applyBudget. rewrite H1, H2. simpl.
  unfold Weights_copy, readWeights. unfold bind at 1 2. rewrite Hw.
  assert (weights wg < length (heap s)) as Hlt by (apply lookup_lt_is_Some; eauto).
  assert (heap (mkState (heap s ++ [w]) (trace s)) !! weights wg = Some w) as Hw'.
  { simpl. rewrite lookup_app_l by exact Hlt. exact Hw. }
  rewrite (bind_Throw _ _ _ _ _
             (computeReweighting_throw wg budget w _ before after entry
                                       Hw' Hentries Hbefore Hentry)).
  reflexivity.
Qed.

End RunsOfApplyBudget.

(** ** What a run leaves of the heap and the trace *)

Section Frames.

Context {Graph : Type} (partitionGraph : Graph -> GraphIntervalPartition).

Lemma evaluations_no_write (partition : GraphIntervalPartition)
    (entries : list BudgetEntry.t) :
  forallb (fun ev => negb (isSetWeight ev)) (evaluations partition entries) = true.
Proof.
  unfold evaluations. apply forallb_forall. intros ev Hev.
  apply in_concat in Hev as (evs & Hevs & Hev).
  apply in_map_iff in Hevs as (entry & <- & _).
  apply in_map_iff in Hev as (a & <- & _). reflexivity.
Qed.

(** The heap after a run agrees with the heap before it on every table
    that was there, and a run that throws has written nothing. *)
Lemma applyBudget_frame (wg : WeightedGraphT Graph) (budget : Budget.t) (s : State) :
  let result := applyBudget partitionGraph wg budget s in
  (forall l w, heap s !! l = Some w -> heap (snd result) !! l = Some w)
  /\ (forall e, fst result = Throw e ->
        exists evs, trace (snd result) = trace s ++ evs
                    /\ forallb (fun ev => negb (isSetWeight ev)) evs = true)
  /\ (forall wg', fst result = Ok wg' ->
        wg' = mkWeightedGraph (graph wg) (length (heap s))
        /\ length (heap (snd result)) = S (length (heap s))
        /\ _anyCommonPrefixes (map BudgetEntry.prefix (Budget.entries budget)) = false
        /\ String.eqb (Budget.intervalLength budget) "WEEKLY" = true
        /\ forallb periodsInOrder (Budget.entries budget) = true).
Proof.
  intros result. subst result.
  assert (forall s0 : State, exists evs, trace s0 = trace s0 ++ evs
            /\ forallb (fun ev => negb (isSetWeight ev)) evs = true) as Hnil.
  { intros s0. exists []. rewrite app_nil_r. auto. }
  destruct (_anyCommonPrefixes (map BudgetEntry.prefix (Budget.entries budget))) eqn:Hconflict.
  { rewrite applyBudget_conflict by exact Hconflict. simpl.
    repeat split; auto; discriminate. }
  destruct (String.eqb (Budget.intervalLength budget) "WEEKLY") eqn:Hweekly; cycle 1.
  { rewrite applyBudget_nonWeekly by assumption. simpl.
    repeat split; auto; discriminate. }
  destruct (heap s !! weights wg) as [w|] eqn:Hw; cycle 1.
  { rewrite applyBudget_dangling by assumption. simpl.
    repeat split; auto; discriminate. }
  assert (forall l w0 tail, heap s !! l = Some w0 -> (heap s ++ tail) !! l = Some w0) as Hold.
  { intros l w0 tail Hl. rewrite lookup_app_l; [exact Hl|].
    apply lookup_lt_is_Some. eauto. }
  destruct (periodsInOrder_first (Budget.entries budget))
    as [Hsorted|(before & entry & after & Hentries & Hbefore & Hentry)].
  - rewrite (applyBudget_run partitionGraph wg budget w s Hw Hconflict Hweekly Hsorted).
    simpl. repeat split; auto.
    + discriminate.
    + injection H as <-. reflexivity.
    + rewrite length_app. simpl. lia.
  - rewrite (applyBudget_outOfOrder partitionGraph wg budget w s before after entry
               Hconflict Hweekly Hw Hentries Hbefore Hentry).
    simpl. repeat split; auto; try discriminate.
    intros e _. eexists. split; [reflexivity | apply evaluations_no_write].
Qed.

End Frames.

(** C8. [applyBudget] mutates neither input: after the call every weight
    table that existed before, the input's among them, holds what it held;
    a returned weighted graph has the graph of the input and a weight table
    that did not exist before the call. *)
Theorem applyBudget_inputs_untouched {Graph : Type}
    (partitionGraph : Graph -> GraphIntervalPartition)
    (wg : WeightedGraphT Graph) (budget : Budget.t) (s : State) :
  let result := applyBudget partitionGraph wg budget s in
  (forall l w, heap s !! l = Some w -> heap (snd result) !! l = Some w)
  /\ (forall wg', fst result = Ok wg' ->
        graph wg' = graph wg
        /\ weights wg' <> weights wg
        /\ heap s !! weights wg' = None
        /\ is_Some (heap (snd result) !! weights wg')).
Proof.
  intros result.
  destruct (applyBudget_frame partitionGraph wg budget s) as (Hold & _ & Hok).
  fold result in Hold, Hok. split; [exact Hold|].
  intros wg' Hwg'. destruct (Hok wg' Hwg') as (-> & Hlen & Hconflict & Hweekly & _). simpl.
  assert (heap s !! length (heap s) = None) as Hfresh by (apply lookup_ge_None; lia).
  repeat split.
  - intros E. destruct (heap s !! weights wg) as [w|] eqn:Hw.
    + rewrite <- E in Hw. pose proof (eq_trans (eq_sym Hfresh) Hw) as Habs. discriminate Habs.
    + subst result. rewrite applyBudget_dangling in Hwg' by assumption. discriminate.
  - exact Hfresh.
  - apply lookup_lt_is_Some. lia.
Qed.

(** C2, as amended. The prefix-conflict check and the interval-length check
    come first: when one fails, [applyBudget] throws and the state is what
    it was.  The periods of an entry are checked when its turn comes, after
    the weights matched by the entries before it have been evaluated: when
    that check fails, [applyBudget] throws the error that names the entry's
    prefix, having allocated the copy and made those evaluator calls.  No
    run that throws has written to a weight table, or changed a table that
    existed before the call; a run that returns has passed all three
    checks. *)
Theorem applyBudget_validation {Graph : Type}
    (partitionGraph : Graph -> GraphIntervalPartition)
    (wg : WeightedGraphT Graph) (budget : Budget.t) (s : State) (w : Weights.t) :
  heap s !! weights wg = Some w ->
  let conflict := _anyCommonPrefixes (map BudgetEntry.prefix (Budget.entries budget)) in
  let weekly := String.eqb (Budget.intervalLength budget) "WEEKLY" in
  let result := applyBudget partitionGraph wg budget s in
  (conflict = true -> result = (Throw PrefixConflict, s))
  /\ (conflict = false -> weekly = false -> result = (Throw NonWeekly, s))
  /\ (forall before entry after,
         conflict = false -> weekly = true ->
         Budget.entries budget = before ++ entry :: after ->
         forallb periodsInOrder before = true ->
         periodsInOrder entry = false ->
         result = (Throw (PeriodsOutOfOrder (BudgetEntry.prefix entry)),
                   mkState (heap s ++ [w])
                           (trace s ++ evaluations (partitionGraph (graph wg)) before)))
  /\ (forall e, fst result = Throw e ->
         (forall l w0, heap s !! l = Some w0 -> heap (snd result) !! l = Some w0)
         /\ exists evs, trace (snd result) = trace s ++ evs
                        /\ forallb (fun ev => negb (isSetWeight ev)) evs = true)
  /\ (forall wg', fst result = Ok wg' ->
         conflict = false /\ weekly = true
         /\ forallb periodsInOrder (Budget.entries budget) = true).
Proof.
  intros Hw conflict weekly result.
  destruct (applyBudget_frame partitionGraph wg budget s) as (Hold & Hthrow & Hok).
  fold result in Hold, Hthrow, Hok.
  split; [|split; [|split; [|split]]].
  - apply applyBudget_conflict.
  - apply applyBudget_nonWeekly.
  - intros before entry after Hconflict Hweekly Hentries Hbefore Hentry.
    apply (applyBudget_outOfOrder partitionGraph wg budget w s before after entry); assumption.
  - intros e He. split; [exact Hold | exact (Hthrow e He)].
  - intros wg' Hwg'. destruct (Hok wg' Hwg') as (_ & _ & H1 & H2 & H3). auto.
Qed.

Lemma applyBudget_validation_witness :
  applyBudget Tests.partitionGraph (Tests.weightedGraph Tests.sameWeek)
              (Tests.weekly [Tests.entry1; Tests.entry2])
              (Tests.initial (Tests.table (Fin 10) (Fin 90)))
  = (Throw (PeriodsOutOfOrder Tests.a2),
     mkState [Tests.table (Fin 10) (Fin 90); Tests.table (Fin 10) (Fin 90)]
             [Evaluate Tests.a1]).
Proof.
  destruct (applyBudget_validation Tests.partitionGraph (Tests.weightedGraph Tests.sameWeek)
              (Tests.weekly [Tests.entry1; Tests.entry2])
              (Tests.initial (Tests.table (Fin 10) (Fin 90)))
              (Tests.table (Fin 10) (Fin 90)) eq_refl) as (_ & _ & H & _).
  apply (H [Tests.entry1] Tests.entry2 []); reflexivity.
Defined.

(** C2, as stated, fails: with a first entry in order and a second entry
    out of order, the evaluator has been called on the node that the first
    entry matches by the time the check of the second entry throws. *)
Lemma applyBudget_evaluates_before_last_check_counterexample :
  let result := applyBudget Tests.partitionGraph (Tests.weightedGraph Tests.sameWeek)
                            (Tests.weekly [Tests.entry1; Tests.entry2])
                            (Tests.initial (Tests.table (Fin 10) (Fin 90))) in
  fst result = Throw (PeriodsOutOfOrder Tests.a2)
  /\ trace (Tests.initial (Tests.table (Fin 10) (Fin 90))) = []
  /\ trace (snd result) = [Evaluate Tests.a1].
Proof. repeat split. Qed.

(** ** The reweighting list *)

Section Reweightings.

Lemma sum_map {A B : Type} (f : A -> B) (g : B -> number) (l : list A) :
  d3.sum (map f l) g = d3.sum l (fun x => g (f x)).
Proof.
  unfold d3.sum. generalize Num.zero.
  induction l as [|x l IH]; intros acc; simpl; [reflexivity | apply IH].
Qed.


(** The total that [_computeWeightNormalizer] computes for a bucket. *)
Lemma sum_addressWeights (w : Weights.t) (addresses : list NodeAddressT) :
  d3.sum (map (fun a => AddressWeight.mk a (nodeWeight w a)) addresses) AddressWeight.weight
  = totalWeight w addresses.
Proof. rewrite sum_map. reflexivity. Qed.


Lemma bucketNormalizer_within (w : Weights.t) (entry : BudgetEntry.t) (bucket : Bucket.t) :
  let total := totalWeight w (filteredAddresses (BudgetEntry.prefix entry) bucket) in
  Num.leb total (bucketBudget entry bucket) = true ->
  bucketNormalizer w entry bucket = Num.one /\ bucketReweighting w entry bucket = [].
Proof.
  intros total Hle.
  assert (bucketNormalizer w entry bucket = Num.one) as E.
  { unfold bucketNormalizer, _computeWeightNormalizer.
    rewrite sum_addressWeights. fold total. rewrite Hle. reflexivity. }
  split; [exact E|].
  unfold bucketReweighting. fold (bucketNormalizer w entry bucket).
  rewrite E. reflexivity.
Qed.

(** The records of a bucket are for addresses that the entry matches in
    that bucket, all with the bucket's coefficient. *)
Lemma in_bucketReweighting (w : Weights.t) (entry : BudgetEntry.t) (bucket : Bucket.t)
    (r : Reweight.t) :
  In r (bucketReweighting w entry bucket) ->
  In (Reweight.address r) (filteredAddresses (BudgetEntry.prefix entry) bucket)
  /\ Reweight.weight r = bucketNormalizer w entry bucket.
Proof.
  unfold bucketReweighting. fold (bucketNormalizer w entry bucket).
  destruct (negb _); [|intros []].
  intros Hr. apply in_map_iff in Hr as (a & <- & Ha). auto.
Qed.

Lemma in_filteredAddresses (prefix : NodeAddressT) (bucket : Bucket.t) (a : NodeAddressT) :
  In a (filteredAddresses prefix bucket) <->
  In a (map Node.address (Bucket.nodes bucket)) /\ NodeAddress.hasPrefix a prefix = true.
Proof. unfold filteredAddresses. rewrite filter_In. reflexivity. Qed.

Lemma in_reweightingOf (w : Weights.t) (partition : GraphIntervalPartition)
    (entries : list BudgetEntry.t) (r : Reweight.t) :
  In r (reweightingOf w partition entries) <->
  exists entry bucket, In entry entries /\ In bucket partition
                       /\ In r (bucketReweighting w entry bucket).
Proof.
  unfold reweightingOf, entryReweighting. rewrite in_concat. split.
  - intros (l & Hl & Hr). apply in_map_iff in Hl as (entry & <- & Hentry).
    apply in_concat in Hr as (l' & Hl' & Hr).
    apply in_map_iff in Hl' as (bucket & <- & Hbucket). eauto.
  - intros (entry & bucket & Hentry & Hbucket & Hr).
    exists (concat (map (bucketReweighting w entry) partition)). split.
    + apply in_map_iff. eauto.
    + apply in_concat. exists (bucketReweighting w entry bucket). split; [|exact Hr].
      apply in_map_iff. eauto.
Qed.

Lemma filter_sublist {A : Type} (f : A -> bool) (l : list A) :
  List.filter f l `sublist_of` l.
Proof.
  induction l as [|x l IH]; simpl; [constructor|].
  destruct (f x); constructor; exact IH.
Qed.

Lemma bucketReweighting_sublist (w : Weights.t) (entry : BudgetEntry.t) (bucket : Bucket.t) :
  map Reweight.address (bucketReweighting w entry bucket)
  `sublist_of` map Node.address (Bucket.nodes bucket).
Proof.
  unfold bucketReweighting. destruct (negb _); simpl; [|apply sublist_nil_l].
  rewrite map_map. simpl. rewrite map_id. apply filter_sublist.
Qed.

Lemma entryReweighting_sublist (w : Weights.t) (partition : GraphIntervalPartition)
    (entry : BudgetEntry.t) :
  map Reweight.address (entryReweighting w partition entry)
  `sublist_of` partitionAddresses partition.
Proof.
  unfold entryReweighting, partitionAddresses.
  induction partition as [|bucket partition IH]; simpl; [constructor|].
  rewrite map_app. apply sublist_app; [apply bucketReweighting_sublist | exact IH].
Qed.

Lemma entryReweighting_prefix (w : Weights.t) (partition : GraphIntervalPartition)
    (entry : BudgetEntry.t) (a : NodeAddressT) :
  In a (map Reweight.address (entryReweighting w partition entry)) ->
  NodeAddress.hasPrefix a (BudgetEntry.prefix entry) = true.
Proof.
  intros Ha. apply in_map_iff in Ha as (r & <- & Hr).
  unfold entryReweighting in Hr. apply in_concat in Hr as (l & Hl & Hr).
  apply in_map_iff in Hl as (bucket & <- & _).
  apply in_bucketReweighting in Hr as [Hr _].
  apply in_filteredAddresses in Hr as [_ Hr]. exact Hr.
Qed.

(** Prefixes without a conflict: the head overlaps nothing in the tail,
    and the tail is without a conflict. *)
Lemma anyCommonPrefixes_cons_false (p : NodeAddressT) (ps : list NodeAddressT) :
  _anyCommonPrefixes (p :: ps) = false ->
  (forall q, In q ps -> overlap p q = false) /\ _anyCommonPrefixes ps = false.
Proof.
  intros H. split.
  - intros q Hq. apply list_elem_of_In, list_elem_of_lookup in Hq as [j Hj].
    apply not_true_iff_false. intros Hov.
    pose proof (anyCommonPrefixes_false_lookup (p :: ps) 0 (S j) p q H eq_refl Hj Hov).
    discriminate.
  - apply not_true_iff_false. intros Htail.
    apply anyCommonPrefixes_lookup in Htail as (i & j & x & y & Hne & Hx & Hy & Hov).
    pose proof (anyCommonPrefixes_false_lookup (p :: ps) (S i) (S j) x y H Hx Hy Hov).
    lia.
Qed.

(** With prefixes that do not overlap and addresses that occur once in
    the partition, no address has two records. *)
Lemma reweightingOf_NoDup (w : Weights.t) (partition : GraphIntervalPartition)
    (entries : list BudgetEntry.t) :
  _anyCommonPrefixes (map BudgetEntry.prefix entries) = false ->
  NoDup (partitionAddresses partition) ->
  NoDup (map Reweight.address (reweightingOf w partition entries)).
Proof.
  intros Hconflict Hpartition. unfold reweightingOf.
  induction entries as [|entry entries IH]; simpl; [constructor|].
  simpl in Hconflict. apply anyCommonPrefixes_cons_false in Hconflict as [Hhead Htail].
  rewrite map_app. apply NoDup_app. split; [|split].
  - apply (sublist_NoDup _ _ Hpartition), entryReweighting_sublist.
  - intros a Ha Ha'. apply list_elem_of_In in Ha, Ha'.
    apply entryReweighting_prefix in Ha.
    apply in_map_iff in Ha' as (r & <- & Hr).
    apply in_concat in Hr as (l & Hl & Hr).
    apply in_map_iff in Hl as (entry' & <- & Hentry').
    assert (In (Reweight.address r) (map Reweight.address (entryReweighting w partition entry')))
      as Hr' by (apply in_map; exact Hr).
    apply entryReweighting_prefix in Hr'.
    pose proof (hasPrefix_common _ _ _ Ha Hr') as Hov.
    rewrite Hhead in Hov; [discriminate|]. apply in_map. exact Hentry'.
  - apply IH. exact Htail.
Qed.



End Reweightings.

(** ** The table that the writes leave *)

Section Materialization.

Lemma applyReweighting_lookup_notin (w : Weights.t) (reweighting : Reweighting)
    (acc : Weights.t) (a : NodeAddressT) :
  ~ In a (map Reweight.address reweighting) ->
  Weights.nodeWeights (applyReweighting w reweighting acc) !! a = Weights.nodeWeights acc !! a.
Proof.
  unfold applyReweighting. revert acc.
  induction reweighting as [|r reweighting IH]; intros acc Hnotin; simpl; [reflexivity|].
  rewrite IH by (intros H; apply Hnotin; right; exact H).
  simpl. apply lookup_insert_ne. intros E. apply Hnotin. left. exact E.
Qed.

Lemma applyReweighting_lookup_in (w : Weights.t) (reweighting : Reweighting)
    (acc : Weights.t) (r : Reweight.t) :
  NoDup (map Reweight.address reweighting) ->
  In r reweighting ->
  Weights.nodeWeights (applyReweighting w reweighting acc) !! Reweight.address r
  = Some (newWeight w r).
Proof.
  unfold applyReweighting. revert acc.
  induction reweighting as [|r0 reweighting IH]; intros acc Hnd Hr; [destruct Hr|].
  simpl in Hnd. apply NoDup_cons in Hnd as [Hfirst Hnd]. destruct Hr as [->|Hr]; simpl.
  - fold (applyReweighting w reweighting (Weights.set (Reweight.address r) (newWeight w r) acc)).
    rewrite applyReweighting_lookup_notin.
    + simpl. apply lookup_insert_eq.
    + intros H. apply Hfirst, list_elem_of_In, H.
  - apply IH; assumption.
Qed.

Lemma writeEvents_are_writes (l : loc) (w : Weights.t) (reweighting : Reweighting) :
  forallb isSetWeight (writeEvents l w reweighting) = true.
Proof.
  apply forallb_forall. intros ev Hev.
  apply in_map_iff in Hev as (r & <- & _). reflexivity.
Qed.

End Materialization.

(** ** The range of the coefficient *)




(** ** Buckets whose weights sum to zero *)

(** C10. For a budget [>= 0], zero included, [_computeWeightNormalizer]
    returns [1] on a list whose weights sum to [0]: on the empty list and on
    a list of zero weights in particular.  So a bucket in which the entry
    matches no node, or only nodes of weight [0], gets no reweight
    record. *)
Theorem computeWeightNormalizer_zero_total (b : number) :
  Num.leb Num.zero b = true ->
  (forall aws, Num.eqb (d3.sum aws AddressWeight.weight) Num.zero = true ->
               _computeWeightNormalizer aws b = Num.one)
  /\ _computeWeightNormalizer [] b = Num.one
  /\ (forall aws, (forall aw, In aw aws -> Num.eqb (AddressWeight.weight aw) Num.zero = true) ->
                  _computeWeightNormalizer aws b = Num.one)
  /\ (forall w entry bucket s,
         bucketBudget entry bucket = b ->
         (forall a, In a (filteredAddresses (BudgetEntry.prefix entry) bucket) ->
                    Num.eqb (nodeWeight w a) Num.zero = true) ->
         fst (reweightingForBucket (evaluatorOf w) entry bucket s) = Ok []).
Proof.
  intros Hb.
  assert (forall aws, Num.eqb (d3.sum aws AddressWeight.weight) Num.zero = true ->
                      _computeWeightNormalizer aws b = Num.one) as Hzero.
  { intros aws Hsum. unfold _computeWeightNormalizer.
    destruct (d3.sum aws AddressWeight.weight) as [x| | |]; try discriminate.
    apply (proj1 (eqb_Fin _ _)) in Hsum.
    destruct b as [y| | |]; try discriminate; [|reflexivity].
    apply (proj1 (leb_Fin _ _)) in Hb.
    assert (Num.leb (Finite x) (Finite y) = true) as ->
      by (apply leb_Fin; simpl in Hsum, Hb; lra).
    reflexivity. }
  split; [exact Hzero|]. split; [apply Hzero; reflexivity|]. split.
  - intros aws Hall. apply Hzero, sum_all_zero, Hall.
  - intros w entry bucket s Hbudget Hall.
    rewrite reweightingForBucket_run. simpl.
    unfold bucketReweighting. rewrite Hbudget, Hzero; [reflexivity|].
    apply sum_all_zero. intros aw Haw.
    apply in_map_iff in Haw as (a & <- & Ha). simpl. apply Hall, Ha.
Qed.

Lemma computeWeightNormalizer_zero_total_witness :
  _computeWeightNormalizer [] (Fin 0) = Num.one
  /\ _computeWeightNormalizer [AddressWeight.mk Tests.a1 (Fin 0); AddressWeight.mk Tests.a2 (Fin 0)]
                              (Fin 0) = Num.one.
Proof.
  destruct (computeWeightNormalizer_zero_total (Fin 0) eq_refl) as (H & Hnil & _).
  split; [exact Hnil | apply H; reflexivity].
Defined.

(** ** One record per address *)

(** C9. When the entries' prefixes do not overlap and every address occurs
    once in the interval partition, the list that [_computeReweighting]
    returns holds at most one record per address; [applyBudget] then makes
    one write per record, each of the address's weight under the original
    table times the record's factor, and that is the weight the returned
    table holds for the address. *)
Theorem computeReweighting_one_record_per_address {Graph : Type}
    (partitionGraph : Graph -> GraphIntervalPartition)
    (wg : WeightedGraphT Graph) (budget : Budget.t) (s : State) :
  _anyCommonPrefixes (map BudgetEntry.prefix (Budget.entries budget)) = false ->
  NoDup (partitionAddresses (partitionGraph (graph wg))) ->
  (forall reweighting s1,
      _computeReweighting partitionGraph wg budget s = (Ok reweighting, s1) ->
      NoDup (map Reweight.address reweighting))
  /\ (forall wg' s',
         applyBudget partitionGraph wg budget s = (Ok wg', s') ->
         exists w w' reweighting evaluated,
           heap s !! weights wg = Some w
           /\ heap s' !! weights wg' = Some w'
           /\ fst (_computeReweighting partitionGraph wg budget s) = Ok reweighting
           /\ NoDup (map Reweight.address reweighting)
           /\ trace s' = trace s ++ map Evaluate evaluated
                                 ++ writeEvents (weights wg') w reweighting
           /\ forall r, In r reweighting ->
                        Weights.nodeWeights w' !! Reweight.address r = Some (newWeight w r)).
Proof.
  intros Hconflict Hpartition. split.
  - intros reweighting s1 Hrun.
    destruct (heap s !! weights wg) as [w|] eqn:Hw; cycle 1.
    { rewrite computeReweighting_dangling in Hrun by exact Hw. discriminate. }
    destruct (periodsInOrder_first (Budget.entries budget))
      as [Hsorted|(before & entry & after & Hentries & Hbefore & Hentry)].
    + rewrite (computeReweighting_run partitionGraph wg budget w s Hw Hsorted) in Hrun.
      injection Hrun as <- _. apply reweightingOf_NoDup; assumption.
    + rewrite (computeReweighting_throw partitionGraph wg budget w s before after entry
                 Hw Hentries Hbefore Hentry) in Hrun.
      discriminate.
  - intros wg' s' Hrun.
    destruct (applyBudget_frame partitionGraph wg budget s) as (_ & _ & Hok).
    rewrite Hrun in Hok. destruct (Hok wg' eq_refl) as (-> & _ & _ & Hweekly & Hsorted).
    destruct (heap s !! weights wg) as [w|] eqn:Hw; cycle 1.
    { rewrite applyBudget_dangling in Hrun by assumption. discriminate. }
    rewrite (applyBudget_run partitionGraph wg budget w s Hw Hconflict Hweekly Hsorted) in Hrun.
    injection Hrun as <-.
    pose proof (reweightingOf_NoDup w (partitionGraph (graph wg)) (Budget.entries budget)
                  Hconflict Hpartition) as Hnd.
    exists w,
      (applyReweighting w (reweightingOf w (partitionGraph (graph wg)) (Budget.entries budget)) w),
      (reweightingOf w (partitionGraph (graph wg)) (Budget.entries budget)),
      (concat (map (entryAddresses (partitionGraph (graph wg))) (Budget.entries budget))).
    simpl. repeat split.
    + apply list_lookup_middle. reflexivity.
    + rewrite (computeReweighting_run partitionGraph wg budget w s Hw Hsorted). reflexivity.
    + exact Hnd.
    + unfold evaluations. rewrite concat_map, map_map. reflexivity.
    + intros r Hr. apply applyReweighting_lookup_in; assumption.
Qed.

Lemma sameWeek_NoDup : NoDup (partitionAddresses Tests.sameWeek).
Proof. apply (bool_decide_unpack _). vm_compute. exact I. Qed.

Lemma computeReweighting_one_record_per_address_witness :
  let reweighting := [Reweight.mk Tests.a1 (Num.div (Fin 10) (Fin 100));
                      Reweight.mk Tests.a2 (Num.div (Fin 10) (Fin 100))] in
  _computeReweighting Tests.partitionGraph (Tests.weightedGraph Tests.sameWeek)
                      (Tests.weekly [Tests.always (Fin 10)])
                      (Tests.initial (Tests.table (Fin 10) (Fin 90)))
  = (Ok reweighting,
     mkState [Tests.table (Fin 10) (Fin 90)] [Evaluate Tests.a1; Evaluate Tests.a2])
  /\ NoDup (map Reweight.address reweighting).
Proof.
  assert (_computeReweighting Tests.partitionGraph (Tests.weightedGraph Tests.sameWeek)
                      (Tests.weekly [Tests.always (Fin 10)])
                      (Tests.initial (Tests.table (Fin 10) (Fin 90)))
          = (Ok [Reweight.mk Tests.a1 (Num.div (Fin 10) (Fin 100));
                 Reweight.mk Tests.a2 (Num.div (Fin 10) (Fin 100))],
             mkState [Tests.table (Fin 10) (Fin 90)] [Evaluate Tests.a1; Evaluate Tests.a2]))
    as Hrun by (vm_compute; reflexivity).
  split; [exact Hrun|].
  apply (proj1 (computeReweighting_one_record_per_address
                  Tests.partitionGraph (Tests.weightedGraph Tests.sameWeek)
                  (Tests.weekly [Tests.always (Fin 10)])
                  (Tests.initial (Tests.table (Fin 10) (Fin 90)))
                  eq_refl sameWeek_NoDup) _ _ Hrun).
Defined.

(** ** The weights of the returned graph *)




(** * Further properties *)

(** ** What the order check accepts *)

Section OrderCheck.

Lemma ltb_NInf (x : number) : Num.ltb x NInf = false.
Proof. destruct x; reflexivity. Qed.

Lemma ltb_NaN (x : number) : Num.ltb x NaN = false.
Proof. destruct x; reflexivity. Qed.

(** The loop accepts a list exactly when its head is not below [last] and
    no element is below the one before it. *)
Lemma inSortedOrder_from_iff (xs : list number) (last : number) :
  inSortedOrder_from last xs = true <->
  match xs with [] => True | x :: _ => Num.ltb x last = false end
  /\ forall i x y, xs !! i = Some x -> xs !! S i = Some y -> Num.ltb y x = false.
Proof.
  revert last. induction xs as [|x xs IH]; intros last; simpl.
  - split; [intros _; split; [exact I | discriminate] | reflexivity].
  - destruct (Num.ltb x last) eqn:Ex.
    + split; [discriminate | intros [H _]; discriminate].
    + rewrite IH. split.
      * intros [Hhead Hadj]. split; [reflexivity|].
        intros [|i] a b Ha Hb; simpl in Ha, Hb.
        -- injection Ha as <-. destruct xs as [|y xs]; [discriminate|].
           injection Hb as <-. exact Hhead.
        -- apply (Hadj i a b Ha Hb).
      * intros [_ Hadj]. split.
        -- destruct xs as [|y xs]; [exact I|]. apply (Hadj 0 x y); reflexivity.
        -- intros i a b Ha Hb. apply (Hadj (S i) a b Ha Hb).
Qed.

Lemma inSortedOrder_from_NaN (xs : list number) :
  inSortedOrder_from NaN xs = inSortedOrder_from NInf xs.
Proof. destruct xs as [|x xs]; simpl; [reflexivity|]. rewrite ltb_NaN, ltb_NInf. reflexivity. Qed.

Lemma inSortedOrder_from_app_NaN (xs ys : list number) (last : number) :
  inSortedOrder_from last (xs ++ NaN :: ys)
  = inSortedOrder_from last xs && inSortedOrder_from NInf ys.
Proof.
  revert last. induction xs as [|x xs IH]; intros last; simpl.
  - apply inSortedOrder_from_NaN.
  - destruct (Num.ltb x last); [reflexivity | apply IH].
Qed.

End OrderCheck.

(** X1. [inSortedOrder] accepts a list exactly when no element is less
    than the element before it: equal neighbours pass, and so does the
    empty list. *)
Theorem inSortedOrder_iff_no_descent (xs : list number) :
  inSortedOrder xs = true <->
  forall i x y, xs !! i = Some x -> xs !! S i = Some y -> Num.ltb y x = false.
Proof.
  unfold inSortedOrder. rewrite inSortedOrder_from_iff. split.
  - intros [_ H]. exact H.
  - intros H. split; [|exact H]. destruct xs as [|x xs]; [exact I | apply ltb_NInf].
Qed.

(** X2. A [NaN] in the list is never out of order and cuts the check in
    two: the list is accepted exactly when the part before the [NaN] and
    the part after it are, whatever their order against each other. *)
Theorem inSortedOrder_NaN_splits (xs ys : list number) :
  inSortedOrder (xs ++ NaN :: ys) = inSortedOrder xs && inSortedOrder ys.
Proof. apply inSortedOrder_from_app_NaN. Qed.

(** ** The current budget, whatever the order of the periods *)

Section LeadingRun.

Lemma last_cons_Some {A : Type} (x : A) (l : list A) :
  last (x :: l) = Some (default x (last l)).
Proof.
  revert x. induction l as [|y l IH]; intros x; [reflexivity|].
  change (last (x :: y :: l)) with (last (y :: l)). rewrite IH.
  simpl. destruct l; reflexivity.
Qed.

(** The loop runs through the leading run of started periods and stops. *)
Lemma findCurrentBudget_loop_run (started rest : list BudgetPeriod.t) (t : TimestampMs)
    (current : number) :
  (forall p, In p started -> Num.leb (BudgetPeriod.startTimeMs p) t = true) ->
  match rest with [] => True | p :: _ => Num.leb (BudgetPeriod.startTimeMs p) t = false end ->
  findCurrentBudget_loop (started ++ rest) t current
  = from_option BudgetPeriod.budget current (last started).
Proof.
  revert current. induction started as [|p started IH]; intros current Hstarted Hrest; simpl.
  - destruct rest as [|q rest]; simpl; [reflexivity | rewrite Hrest; reflexivity].
  - rewrite (Hstarted p (or_introl eq_refl)).
    rewrite IH by (auto; intros q Hq; apply Hstarted; right; exact Hq).
    rewrite last_cons_Some. destruct (last started); reflexivity.
Qed.

(** Every list splits into its leading run of started periods and a rest
    whose head, if any, has not started. *)
Lemma leading_run_exists (periods : list BudgetPeriod.t) (t : TimestampMs) :
  exists started rest,
    periods = started ++ rest
    /\ (forall p, In p started -> Num.leb (BudgetPeriod.startTimeMs p) t = true)
    /\ match rest with [] => True | p :: _ => Num.leb (BudgetPeriod.startTimeMs p) t = false end.
Proof.
  induction periods as [|p periods (started & rest & -> & Hstarted & Hrest)].
  - exists [], []. repeat split. intros p [].
  - destruct (Num.leb (BudgetPeriod.startTimeMs p) t) eqn:Ep.
    + exists (p :: started), rest. repeat split; [|exact Hrest].
      intros q [<-|Hq]; [exact Ep | apply Hstarted, Hq].
    + exists [], (p :: started ++ rest). repeat split; [intros q []|exact Ep].
Qed.

End LeadingRun.

(** X3. Whatever the order of the periods, [_findCurrentBudget] returns the
    budget of the last period of the leading run of periods that have
    started by the timestamp, and positive infinity when that run is empty:
    a period behind one that has not started is never looked at. *)
Theorem findCurrentBudget_leading_run (periods : list BudgetPeriod.t) (t : TimestampMs) :
  exists started rest,
    periods = started ++ rest
    /\ (forall p, In p started -> Num.leb (BudgetPeriod.startTimeMs p) t = true)
    /\ match rest with [] => True | p :: _ => Num.leb (BudgetPeriod.startTimeMs p) t = false end
    /\ _findCurrentBudget periods t = from_option BudgetPeriod.budget PInf (last started).
Proof.
  destruct (leading_run_exists periods t) as (started & rest & -> & Hstarted & Hrest).
  exists started, rest. repeat split; try assumption.
  apply findCurrentBudget_loop_run; assumption.
Qed.

(** X4. Periods that have not started by the timestamp, added at the end
    of the list, do not change the current budget. *)
Theorem findCurrentBudget_ignores_later (periods later : list BudgetPeriod.t)
    (t : TimestampMs) :
  (forall p, In p later -> Num.leb (BudgetPeriod.startTimeMs p) t = false) ->
  _findCurrentBudget (periods ++ later) t = _findCurrentBudget periods t.
Proof.
  intros Hlater. unfold _findCurrentBudget. generalize PInf.
  induction periods as [|p periods IH]; intros current; simpl.
  - apply findCurrentBudget_loop_none. exact Hlater.
  - destruct (Num.leb (BudgetPeriod.startTimeMs p) t); [apply IH | reflexivity].
Qed.

Lemma findCurrentBudget_ignores_later_witness :
  _findCurrentBudget ([Tests.p1; Tests.p2] ++ [Tests.p4]) (Fin 1)
  = _findCurrentBudget [Tests.p1; Tests.p2] (Fin 1).
Proof.
  apply (findCurrentBudget_ignores_later [Tests.p1; Tests.p2] [Tests.p4] (Fin 1)).
  intros p [<-|[]]. reflexivity.
Defined.

(** ** The current budget of periods that passed the order check *)

Section Validated.

(** In a non-decreasing list nothing starts after a period that has not. *)
Lemma nonDecreasing_none_started (p : BudgetPeriod.t) (rest : list BudgetPeriod.t)
    (t : TimestampMs) :
  nonDecreasing (map BudgetPeriod.startTimeMs (p :: rest)) ->
  Num.leb (BudgetPeriod.startTimeMs p) t = false ->
  List.filter (fun q => Num.leb (BudgetPeriod.startTimeMs q) t) rest = [].
Proof.
  intros Hs Hp. induction rest as [|q rest IH] using rev_ind; [reflexivity|].
  rewrite List.filter_app. simpl.
  assert (nonDecreasing (map BudgetPeriod.startTimeMs (p :: rest))) as Hs'.
  { intros i x y Hx Hy. apply (Hs i x y).
    - rewrite <- Hx. change (p :: rest ++ [q]) with ((p :: rest) ++ [q]).
      rewrite map_app. apply lookup_app_l. apply lookup_lt_is_Some. eauto.
    - rewrite <- Hy. change (p :: rest ++ [q]) with ((p :: rest) ++ [q]).
      rewrite map_app. apply lookup_app_l. apply lookup_lt_is_Some. eauto. }
  rewrite (IH Hs'). simpl.
  destruct (Num.leb (BudgetPeriod.startTimeMs q) t) eqn:Eq; [|reflexivity].
  assert (Num.leb (BudgetPeriod.startTimeMs p) (BudgetPeriod.startTimeMs q) = true) as Hpq.
  { apply (nonDecreasing_lt _ 0 (S (length rest)) _ _ Hs); [lia | reflexivity |].
    simpl. rewrite list_lookup_fmap, list_lookup_middle by reflexivity. reflexivity. }
  rewrite (leb_trans _ _ _ Hpq Eq) in Hp. discriminate.
Qed.

Lemma findCurrentBudget_loop_filter (periods : list BudgetPeriod.t) (t : TimestampMs)
    (current : number) :
  nonDecreasing (map BudgetPeriod.startTimeMs periods) ->
  findCurrentBudget_loop periods t current
  = from_option BudgetPeriod.budget current
      (last (List.filter (fun q => Num.leb (BudgetPeriod.startTimeMs q) t) periods)).
Proof.
  revert current. induction periods as [|p periods IH]; intros current Hs; [reflexivity|].
  simpl. destruct (Num.leb (BudgetPeriod.startTimeMs p) t) eqn:Ep.
  - rewrite (IH _ (nonDecreasing_tail _ _ Hs)), last_cons_Some.
    destruct (last _); reflexivity.
  - rewrite (nonDecreasing_none_started p periods t Hs Ep). reflexivity.
Qed.

End Validated.

(** X5. For periods that pass the order check of [_reweightingForEntry]
    and hold no [NaN] start time, [_findCurrentBudget] returns the budget of
    the last period, by position, among all the periods that have started
    by the timestamp, and positive infinity when none has. *)
Theorem findCurrentBudget_after_order_check (periods : list BudgetPeriod.t) (t : TimestampMs) :
  inSortedOrder (map BudgetPeriod.startTimeMs periods) = true ->
  (forall p, In p periods -> Num.isNaN (BudgetPeriod.startTimeMs p) = false) ->
  _findCurrentBudget periods t
  = from_option BudgetPeriod.budget PInf
      (last (List.filter (fun q => Num.leb (BudgetPeriod.startTimeMs q) t) periods)).
Proof.
  intros Hcheck Hnan. apply findCurrentBudget_loop_filter.
  apply inSortedOrder_nonDecreasing; [|exact Hcheck].
  intros x Hx. apply in_map_iff in Hx as (p & <- & Hp). apply Hnan, Hp.
Qed.

Lemma findCurrentBudget_after_order_check_witness :
  _findCurrentBudget [Tests.p1; Tests.p2; Tests.p3; Tests.p4] (Fin 1)
  = BudgetPeriod.budget Tests.p3.
Proof.
  rewrite (findCurrentBudget_after_order_check [Tests.p1; Tests.p2; Tests.p3; Tests.p4] (Fin 1)).
  - reflexivity.
  - reflexivity.
  - intros p [<-|[<-|[<-|[<-|[]]]]]; reflexivity.
Defined.

(** ** Growing and shrinking the list of prefixes *)

Section ConflictLists.

(** A conflict in [x :: l] is either between [x] and an element of [l],
    or inside [l]. *)
Lemma anyCommonPrefixes_cons (x : NodeAddressT) (l : list NodeAddressT) :
  _anyCommonPrefixes (x :: l) = true <->
  (exists y, In y l /\ overlap x y = true) \/ _anyCommonPrefixes l = true.
Proof.
  split.
  - intros H. destruct (_anyCommonPrefixes l) eqn:El; [right; reflexivity | left].
    apply anyCommonPrefixes_lookup in H as (i & j & a & b & Hne & Ha & Hb & Hov).
    destruct i as [|i], j as [|j]; simpl in Ha, Hb.
    + contradiction.
    + injection Ha as <-. exists b. split; [|exact Hov].
      apply list_elem_of_In, list_elem_of_lookup. eauto.
    + injection Hb as <-. exists a. split; [|rewrite overlap_sym; exact Hov].
      apply list_elem_of_In, list_elem_of_lookup. eauto.
    + assert (_anyCommonPrefixes l = true) as Hl.
      { apply anyCommonPrefixes_lookup. exists i, j, a, b. repeat split; auto. }
      congruence.
  - intros [(y & Hy & Hov)|Hl]; apply anyCommonPrefixes_lookup.
    + apply list_elem_of_In, list_elem_of_lookup in Hy as [j Hj].
      exists 0, (S j), x, y. repeat split; auto.
    + apply anyCommonPrefixes_lookup in Hl as (i & j & a & b & Hne & Ha & Hb & Hov).
      exists (S i), (S j), a, b. repeat split; auto.
Qed.

End ConflictLists.

(** X6. A conflict stays when addresses are added and goes only when
    addresses are taken away: if a list has a conflict, so has every list
    of which it is a sublist. *)
Theorem anyCommonPrefixes_sublist (l k : list NodeAddressT) :
  l `sublist_of` k -> _anyCommonPrefixes l = true -> _anyCommonPrefixes k = true.
Proof.
  induction 1 as [|x l k Hsub IH|x l k Hsub IH]; intros Hl.
  - exact Hl.
  - apply anyCommonPrefixes_cons. apply anyCommonPrefixes_cons in Hl as [(y & Hy & Hov)|Hl].
    + left. exists y. split; [|exact Hov].
      apply list_elem_of_In. apply (elem_of_sublist l k y); [apply list_elem_of_In, Hy | exact Hsub].
    + right. apply IH, Hl.
  - apply anyCommonPrefixes_cons. right. apply IH, Hl.
Qed.

Lemma anyCommonPrefixes_sublist_witness :
  _anyCommonPrefixes [Tests.bar; NodeAddress.empty; Tests.foo] = true.
Proof.
  apply (anyCommonPrefixes_sublist [NodeAddress.empty; Tests.foo]).
  - apply sublist_cons. reflexivity.
  - reflexivity.
Defined.

(** X7. A list of prefixes without a conflict holds no address twice, at
    whatever positions. *)
Theorem anyCommonPrefixes_false_NoDup (addresses : list NodeAddressT) :
  _anyCommonPrefixes addresses = false -> NoDup addresses.
Proof.
  induction addresses as [|x l IH]; intros H; [constructor|].
  apply anyCommonPrefixes_cons_false in H as [Hhead Htail].
  constructor; [|apply IH, Htail].
  intros Hx. apply list_elem_of_In in Hx.
  pose proof (overlap_refl x) as Hrefl. rewrite (Hhead x Hx) in Hrefl. discriminate.
Qed.

Lemma anyCommonPrefixes_false_NoDup_witness : NoDup [Tests.bar; Tests.foo].
Proof. apply (anyCommonPrefixes_false_NoDup [Tests.bar; Tests.foo]). reflexivity. Defined.

(** ** The records and the writes of a run *)

Section Records.

Lemma concat_map_nil {A B : Type} (f : A -> list B) (l : list A) :
  (forall x, In x l -> f x = []) -> concat (map f l) = [].
Proof.
  induction l as [|x l IH]; intros H; simpl; [reflexivity|].
  rewrite (H x (or_introl eq_refl)), IH; [reflexivity|].
  intros y Hy. apply H. right. exact Hy.
Qed.

(** A bucket pushes records only with a coefficient that is not [1]. *)
Lemma in_bucketReweighting_not_one (w : Weights.t) (entry : BudgetEntry.t) (bucket : Bucket.t)
    (r : Reweight.t) :
  In r (bucketReweighting w entry bucket) ->
  Num.eqb (bucketNormalizer w entry bucket) Num.one = false.
Proof.
  unfold bucketReweighting. fold (bucketNormalizer w entry bucket).
  destruct (Num.eqb (bucketNormalizer w entry bucket) Num.one); [intros [] | reflexivity].
Qed.

(** After the writes an address holds what the copy held, or what one of
    its records made of its original weight. *)
Lemma applyReweighting_lookup_cases (w : Weights.t) (reweighting : Reweighting)
    (acc : Weights.t) (a : NodeAddressT) :
  Weights.nodeWeights (applyReweighting w reweighting acc) !! a = Weights.nodeWeights acc !! a
  \/ exists r, In r reweighting /\ Reweight.address r = a
               /\ Weights.nodeWeights (applyReweighting w reweighting acc) !! a
                  = Some (newWeight w r).
Proof.
  unfold applyReweighting. revert acc.
  induction reweighting as [|r0 reweighting IH]; intros acc; simpl; [left; reflexivity|].
  destruct (IH (Weights.set (Reweight.address r0) (newWeight w r0) acc))
    as [Hsame|(r & Hr & Ha & Hlookup)].
  - rewrite Hsame. simpl.
    destruct (decide (Reweight.address r0 = a)) as [E|Hne].
    + right. exists r0. repeat split; [left; reflexivity | exact E |].
      rewrite E. apply lookup_insert_eq.
    + left. apply lookup_insert_ne. exact Hne.
  - right. exists r. repeat split; [right; exact Hr | exact Ha | exact Hlookup].
Qed.

End Records.

Section RunsThatReturn.

Context {Graph : Type} (partitionGraph : Graph -> GraphIntervalPartition).

(** A run of [_computeReweighting] that returns has read a table and found
    every entry in order. *)
Lemma computeReweighting_Ok_inv (wg : WeightedGraphT Graph) (budget : Budget.t)
    (s s1 : State) (reweighting : Reweighting) :
  _computeReweighting partitionGraph wg budget s = (Ok reweighting, s1) ->
  exists w, heap s !! weights wg = Some w
            /\ reweighting = reweightingOf w (partitionGraph (graph wg)) (Budget.entries budget)
            /\ s1 = logEvents s (evaluations (partitionGraph (graph wg)) (Budget.entries budget)).
Proof.
  intros Hrun.
  destruct (heap s !! weights wg) as [w|] eqn:Hw; cycle 1.
  { rewrite computeReweighting_dangling in Hrun by exact Hw. discriminate. }
  destruct (periodsInOrder_first (Budget.entries budget))
    as [Hsorted|(before & entry & after & Hentries & Hbefore & Hentry)].
  - rewrite (computeReweighting_run partitionGraph wg budget w s Hw Hsorted) in Hrun.
    injection Hrun as <- <-. eauto.
  - rewrite (computeReweighting_throw partitionGraph wg budget w s before after entry
               Hw Hentries Hbefore Hentry) in Hrun.
    discriminate.
Qed.

(** A run of [applyBudget] that returns is the run of a policy that passed
    the checks. *)
Lemma applyBudget_Ok_inv (wg wg' : WeightedGraphT Graph) (budget : Budget.t) (s s' : State) :
  applyBudget partitionGraph wg budget s = (Ok wg', s') ->
  exists w, heap s !! weights wg = Some w
            /\ wg' = mkWeightedGraph (graph wg) (length (heap s))
            /\ heap s'
               = heap s ++ [applyReweighting w
                              (reweightingOf w (partitionGraph (graph wg)) (Budget.entries budget))
                              w].
Proof.
  intros Hrun.
  destruct (applyBudget_frame partitionGraph wg budget s) as (_ & _ & Hok).
  rewrite Hrun in Hok.
  destruct (Hok wg' eq_refl) as (-> & _ & Hconflict & Hweekly & Hsorted).
  destruct (heap s !! weights wg) as [w|] eqn:Hw; cycle 1.
  { rewrite applyBudget_dangling in Hrun by assumption. discriminate. }
  rewrite (applyBudget_run partitionGraph wg budget w s Hw Hconflict Hweekly Hsorted) in Hrun.
  injection Hrun as <-. exists w. repeat split.
Qed.

End RunsThatReturn.

(** X8. Every record that [_computeReweighting] returns is for the address
    of a node of the partition that has the prefix of an entry, and carries
    the coefficient of that entry and bucket, which is not [1]; computing
    the records changes no weight table. *)
Theorem computeReweighting_records {Graph : Type}
    (partitionGraph : Graph -> GraphIntervalPartition)
    (wg : WeightedGraphT Graph) (budget : Budget.t) (s s1 : State) (reweighting : Reweighting) :
  _computeReweighting partitionGraph wg budget s = (Ok reweighting, s1) ->
  heap s1 = heap s
  /\ exists w, heap s !! weights wg = Some w
     /\ forall r, In r reweighting ->
          exists entry bucket,
            In entry (Budget.entries budget)
            /\ In bucket (partitionGraph (graph wg))
            /\ In (Reweight.address r) (map Node.address (Bucket.nodes bucket))
            /\ NodeAddress.hasPrefix (Reweight.address r) (BudgetEntry.prefix entry) = true
            /\ Reweight.weight r = bucketNormalizer w entry bucket
            /\ Num.eqb (Reweight.weight r) Num.one = false.
Proof.
  intros Hrun.
  destruct (computeReweighting_Ok_inv partitionGraph wg budget s s1 reweighting Hrun)
    as (w & Hw & -> & ->).
  split; [reflexivity|]. exists w. split; [exact Hw|].
  intros r Hr. apply in_reweightingOf in Hr as (entry & bucket & Hentry & Hbucket & Hr).
  pose proof (in_bucketReweighting_not_one w entry bucket r Hr) as Hone.
  apply in_bucketReweighting in Hr as [Ha Hweight].
  apply in_filteredAddresses in Ha as [Hnode Hprefix].
  exists entry, bucket. rewrite Hweight. auto 10.
Qed.

Lemma computeReweighting_records_witness :
  heap (snd (_computeReweighting Tests.partitionGraph (Tests.weightedGraph Tests.sameWeek)
               (Tests.weekly [Tests.always (Fin 10)])
               (Tests.initial (Tests.table (Fin 10) (Fin 90)))))
  = [Tests.table (Fin 10) (Fin 90)].
Proof.
  destruct (_computeReweighting Tests.partitionGraph (Tests.weightedGraph Tests.sameWeek)
              (Tests.weekly [Tests.always (Fin 10)])
              (Tests.initial (Tests.table (Fin 10) (Fin 90)))) as [[reweighting|e] s1] eqn:Hrun.
  - apply (computeReweighting_records _ _ _ _ _ _ Hrun).
  - vm_compute in Hrun. discriminate.
Defined.

(** X9. When the total of every entry in every bucket is within its
    budget, [applyBudget] makes no write: the table of the returned graph
    is the copy of the original table, entry for entry. *)
Theorem applyBudget_within_budget {Graph : Type}
    (partitionGraph : Graph -> GraphIntervalPartition)
    (wg : WeightedGraphT Graph) (budget : Budget.t) (s : State) (w : Weights.t) :
  heap s !! weights wg = Some w ->
  _anyCommonPrefixes (map BudgetEntry.prefix (Budget.entries budget)) = false ->
  String.eqb (Budget.intervalLength budget) "WEEKLY" = true ->
  forallb periodsInOrder (Budget.entries budget) = true ->
  (forall entry bucket,
      In entry (Budget.entries budget) -> In bucket (partitionGraph (graph wg)) ->
      Num.leb (totalWeight w (filteredAddresses (BudgetEntry.prefix entry) bucket))
              (bucketBudget entry bucket) = true) ->
  applyBudget partitionGraph wg budget s
  = (Ok (mkWeightedGraph (graph wg) (length (heap s))),
     mkState (heap s ++ [w])
             (trace s ++ evaluations (partitionGraph (graph wg)) (Budget.entries budget))).
Proof.
  intros Hw Hconflict Hweekly Hsorted Hwithin.
  rewrite (applyBudget_run partitionGraph wg budget w s Hw Hconflict Hweekly Hsorted).
  assert (reweightingOf w (partitionGraph (graph wg)) (Budget.entries budget) = []) as ->.
  { apply concat_map_nil. intros entry Hentry. apply concat_map_nil. intros bucket Hbucket.
    apply (bucketNormalizer_within w entry bucket), Hwithin; assumption. }
  simpl. rewrite app_nil_r. reflexivity.
Qed.

Lemma applyBudget_within_budget_witness :
  applyBudget Tests.partitionGraph (Tests.weightedGraph Tests.twoWeeks)
              (Tests.weekly [Tests.always (Fin 15)])
              (Tests.initial (Tests.table (Fin 5) (Fin 15)))
  = (Ok (mkWeightedGraph Tests.twoWeeks 1),
     mkState [Tests.table (Fin 5) (Fin 15); Tests.table (Fin 5) (Fin 15)]
             [Evaluate Tests.a1; Evaluate Tests.a2]).
Proof.
  apply (applyBudget_within_budget Tests.partitionGraph (Tests.weightedGraph Tests.twoWeeks)
           (Tests.weekly [Tests.always (Fin 15)])
           (Tests.initial (Tests.table (Fin 5) (Fin 15))) (Tests.table (Fin 5) (Fin 15)));
    try reflexivity.
  intros entry bucket [<-|[]] [<-|[<-|[]]]; reflexivity.
Defined.

(** X10. [applyBudget] touches only what an entry matches: in the returned
    table, an address that has no entry's prefix, or that is the address of
    no node of the partition, has the entry it had; and no entry of the
    original table is missing. *)
Theorem applyBudget_other_addresses {Graph : Type}
    (partitionGraph : Graph -> GraphIntervalPartition)
    (wg wg' : WeightedGraphT Graph) (budget : Budget.t) (s s' : State) :
  applyBudget partitionGraph wg budget s = (Ok wg', s') ->
  exists w w',
    heap s !! weights wg = Some w
    /\ heap s' !! weights wg' = Some w'
    /\ (forall a,
          (forall entry, In entry (Budget.entries budget) ->
                         NodeAddress.hasPrefix a (BudgetEntry.prefix entry) = false) ->
          Weights.nodeWeights w' !! a = Weights.nodeWeights w !! a)
    /\ (forall a,
          ~ In a (partitionAddresses (partitionGraph (graph wg))) ->
          Weights.nodeWeights w' !! a = Weights.nodeWeights w !! a)
    /\ (forall a, is_Some (Weights.nodeWeights w !! a) -> is_Some (Weights.nodeWeights w' !! a)).
Proof.
  intros Hrun.
  destruct (applyBudget_Ok_inv partitionGraph wg wg' budget s s' Hrun) as (w & Hw & -> & Hheap).
  set (reweighting := reweightingOf w (partitionGraph (graph wg)) (Budget.entries budget)) in *.
  exists w, (applyReweighting w reweighting w). split; [exact Hw|]. split.
  { simpl. rewrite Hheap. apply list_lookup_middle. reflexivity. }
  assert (forall a r, In r reweighting -> Reweight.address r = a ->
            exists entry bucket,
              In entry (Budget.entries budget) /\ In bucket (partitionGraph (graph wg))
              /\ In a (filteredAddresses (BudgetEntry.prefix entry) bucket)) as Hmatched.
  { intros a r Hr <-. apply in_reweightingOf in Hr as (entry & bucket & Hentry & Hbucket & Hr).
    apply in_bucketReweighting in Hr as [Ha _]. eauto. }
  split; [|split].
  - intros a Hnone.
    destruct (applyReweighting_lookup_cases w reweighting w a) as [E|(r & Hr & Ha & _)];
      [exact E|].
    destruct (Hmatched a r Hr Ha) as (entry & bucket & Hentry & _ & Hin).
    apply in_filteredAddresses in Hin as [_ Hprefix].
    rewrite (Hnone entry Hentry) in Hprefix. discriminate.
  - intros a Hnotin.
    destruct (applyReweighting_lookup_cases w reweighting w a) as [E|(r & Hr & Ha & _)];
      [exact E|].
    destruct (Hmatched a r Hr Ha) as (entry & bucket & _ & Hbucket & Hin).
    apply in_filteredAddresses in Hin as [Hnode _].
    exfalso. apply Hnotin. unfold partitionAddresses. apply in_concat.
    exists (map Node.address (Bucket.nodes bucket)). split; [|exact Hnode].
    apply in_map_iff. eauto.
  - intros a Hsome.
    destruct (applyReweighting_lookup_cases w reweighting w a) as [E|(r & _ & _ & E)];
      rewrite E; eauto.
Qed.

Lemma applyBudget_other_addresses_witness :
  let w := Tests.table (Fin 10) (Fin 90) in
  let w' := Weights.set Tests.a1 (Num.mul (Fin 10) (Num.div (Fin 5) (Fin 10))) w in
  applyBudget Tests.partitionGraph (Tests.weightedGraph Tests.sameWeek)
              (Tests.weekly [BudgetEntry.mk Tests.a1 [BudgetPeriod.mk NInf (Fin 5)]])
              (Tests.initial w)
  = (Ok (mkWeightedGraph Tests.sameWeek 1),
     mkState [w; w'] [Evaluate Tests.a1; SetWeight 1 Tests.a1 (Num.mul (Fin 10) (Num.div (Fin 5) (Fin 10)))])
  /\ Weights.nodeWeights w' !! Tests.a2 = Weights.nodeWeights w !! Tests.a2.
Proof.
  intros w w'.
  assert (applyBudget Tests.partitionGraph (Tests.weightedGraph Tests.sameWeek)
            (Tests.weekly [BudgetEntry.mk Tests.a1 [BudgetPeriod.mk NInf (Fin 5)]])
            (Tests.initial w)
          = (Ok (mkWeightedGraph Tests.sameWeek 1),
             mkState [w; w'] [Evaluate Tests.a1;
                              SetWeight 1 Tests.a1 (Num.mul (Fin 10) (Num.div (Fin 5) (Fin 10)))]))
    as Hrun by (vm_compute; reflexivity).
  split; [exact Hrun|].
  destruct (applyBudget_other_addresses Tests.partitionGraph _ _ _ _ _ Hrun)
    as (w0 & w0' & Hw & Hw' & Hprefix & _ & _).
  injection Hw as <-. injection Hw' as <-.
  apply Hprefix. intros entry [<-|[]]. reflexivity.
Defined.

(** ** Weights are only ever reduced *)

Section Reduced.

(** The loop returns the budget it was given or the budget of a period. *)
Lemma findCurrentBudget_loop_cases (rest : list BudgetPeriod.t) (t : TimestampMs)
    (current : number) :
  findCurrentBudget_loop rest t current = current
  \/ exists p, In p rest /\ findCurrentBudget_loop rest t current = BudgetPeriod.budget p.
Proof.
  revert current. induction rest as [|p rest IH]; intros current; simpl; [left; reflexivity|].
  destruct (Num.leb (BudgetPeriod.startTimeMs p) t); [|left; reflexivity].
  destruct (IH (BudgetPeriod.budget p)) as [E|(q & Hq & E)]; right.
  - exists p. split; [left; reflexivity | exact E].
  - exists q. split; [right; exact Hq | exact E].
Qed.

Lemma bucketBudget_nonneg (entry : BudgetEntry.t) (bucket : Bucket.t) :
  (forall p, In p (BudgetEntry.periods entry) ->
             Num.leb Num.zero (BudgetPeriod.budget p) = true) ->
  Num.leb Num.zero (bucketBudget entry bucket) = true.
Proof.
  intros Hperiods. unfold bucketBudget, _findCurrentBudget.
  destruct (findCurrentBudget_loop_cases (BudgetEntry.periods entry)
              (Interval.startTimeMs (Bucket.interval bucket)) PInf) as [->|(p & Hp & ->)].
  - reflexivity.
  - apply Hperiods, Hp.
Qed.

Lemma nodeWeight_finite_nonneg (w : Weights.t) (a : NodeAddressT) :
  (forall a v, Weights.nodeWeights w !! a = Some v ->
               Num.isFinite v = true /\ Num.leb Num.zero v = true) ->
  exists y : Binary64.double, nodeWeight w a = Finite y /\ (0 <= y)%Q.
Proof.
  intros Htable. unfold nodeWeight.
  destruct (Weights.nodeWeights w !! a) as [v|] eqn:Ev; simpl.
  - destruct (Htable a v Ev) as [Hfin Hpos].
    destruct v as [y| | |]; try discriminate. exists y. split; [reflexivity|].
    apply (proj1 (leb_Fin _ _)) in Hpos. exact Hpos.
  - exists (Binary64.mk 1 eq_refl). split; [reflexivity | simpl; lra].
Qed.

End Reduced.

(** X11. When every weight of the table is finite and non-negative and
    every budget of the policy is [>= 0], [applyBudget] only reduces: in
    the returned table the effective weight of every address is
    non-negative and at most its effective weight in the original table. *)
Theorem applyBudget_only_reduces {Graph : Type}
    (partitionGraph : Graph -> GraphIntervalPartition)
    (wg wg' : WeightedGraphT Graph) (budget : Budget.t) (s s' : State) (w : Weights.t) :
  heap s !! weights wg = Some w ->
  applyBudget partitionGraph wg budget s = (Ok wg', s') ->
  (forall a v, Weights.nodeWeights w !! a = Some v ->
               Num.isFinite v = true /\ Num.leb Num.zero v = true) ->
  (forall entry p, In entry (Budget.entries budget) -> In p (BudgetEntry.periods entry) ->
                   Num.leb Num.zero (BudgetPeriod.budget p) = true) ->
  exists w',
    heap s' !! weights wg' = Some w'
    /\ forall a, Num.leb Num.zero (nodeWeight w' a) = true
                 /\ Num.leb (nodeWeight w' a) (nodeWeight w a) = true.
Proof.
  intros Hw Hrun Htable Hbudgets.
  destruct (applyBudget_Ok_inv partitionGraph wg wg' budget s s' Hrun) as (w0 & Hw0 & -> & Hheap).
  assert (w0 = w) as -> by congruence.
  set (reweighting := reweightingOf w (partitionGraph (graph wg)) (Budget.entries budget)) in *.
  exists (applyReweighting w reweighting w). split.
  { simpl. rewrite Hheap. apply list_lookup_middle. reflexivity. }
  intros a. destruct (nodeWeight_finite_nonneg w a Htable) as (y & Ey & Hy).
  destruct (applyReweighting_lookup_cases w reweighting w a) as [E|(r & Hr & Ha & E)].
  - unfold nodeWeight at 1 2. rewrite E. fold (nodeWeight w a). rewrite Ey.
    split; apply leb_Fin; simpl; lra.
  - apply in_reweightingOf in Hr as (entry & bucket & Hentry & _ & Hr).
    apply in_bucketReweighting in Hr as [_ Hweight].
    destruct (computeWeightNormalizer_unit
                (map (fun a => AddressWeight.mk a (nodeWeight w a))
                     (filteredAddresses (BudgetEntry.prefix entry) bucket))
                (bucketBudget entry bucket)) as (q & Eq & Hq).
    { intros aw Haw. apply in_map_iff in Haw as (a0 & <- & _). simpl.
      destruct (nodeWeight_finite_nonneg w a0 Htable) as (y0 & -> & Hy0).
      apply Qle_bool_iff. exact Hy0. }
    { apply bucketBudget_nonneg. intros p Hp. apply (Hbudgets entry p Hentry Hp). }
    fold (bucketNormalizer w entry bucket) in Eq.
    unfold nodeWeight at 1 2. rewrite E. simpl.
    unfold newWeight. rewrite Ha, Ey, Hweight, Eq. simpl. split.
    + apply round_nonneg. nra.
    + apply round_le_double. nra.
Qed.

Lemma applyBudget_only_reduces_witness :
  let w := Tests.table (Fin 10) (Fin 90) in
  let w' := Weights.set Tests.a2 (Num.mul (Fin 90) (Num.div (Fin 10) (Fin 100)))
              (Weights.set Tests.a1 (Num.mul (Fin 10) (Num.div (Fin 10) (Fin 100))) w) in
  heap (snd (applyBudget Tests.partitionGraph (Tests.weightedGraph Tests.sameWeek)
               (Tests.weekly [Tests.always (Fin 10)]) (Tests.initial w))) = [w; w']
  /\ Num.leb (nodeWeight w' Tests.a2) (nodeWeight w Tests.a2) = true.
Proof.
  intros w w'.
  assert (applyBudget Tests.partitionGraph (Tests.weightedGraph Tests.sameWeek)
            (Tests.weekly [Tests.always (Fin 10)]) (Tests.initial w)
          = (Ok (mkWeightedGraph Tests.sameWeek 1),
             mkState [w; w']
               [Evaluate Tests.a1; Evaluate Tests.a2;
                SetWeight 1 Tests.a1 (Num.mul (Fin 10) (Num.div (Fin 10) (Fin 100)));
                SetWeight 1 Tests.a2 (Num.mul (Fin 90) (Num.div (Fin 10) (Fin 100)))]))
    as Hrun by (vm_compute; reflexivity).
  split; [rewrite Hrun; reflexivity|].
  destruct (applyBudget_only_reduces Tests.partitionGraph
              (Tests.weightedGraph Tests.sameWeek) (mkWeightedGraph Tests.sameWeek 1)
              (Tests.weekly [Tests.always (Fin 10)]) (Tests.initial w) _ w eq_refl Hrun)
    as (w0 & Hw0 & Hall).
  - intros a v Hv. unfold w, Tests.table, Weights.set in Hv. simpl in Hv.
    apply lookup_insert_Some in Hv as [[_ <-]|[_ Hv]]; [split; reflexivity|].
    apply lookup_insert_Some in Hv as [[_ <-]|[_ Hv]]; [split; reflexivity|].
    rewrite lookup_empty in Hv. discriminate.
  - intros entry p [<-|[]] [<-|[]]. reflexivity.
  - injection Hw0 as <-. apply Hall.
Defined.

(** ** A larger budget *)

(** X12. A larger budget never gives a smaller coefficient: for weights
    whose sum is a number and budgets [0 <= b1 <= b2], the coefficient
    under [b1] is [<=] the coefficient under [b2]. *)
Theorem computeWeightNormalizer_monotone (aws : list AddressWeight.t) (b1 b2 : number) :
  Num.isNaN (d3.sum aws AddressWeight.weight) = false ->
  Num.leb Num.zero b1 = true ->
  Num.leb b1 b2 = true ->
  Num.leb (_computeWeightNormalizer aws b1) (_computeWeightNormalizer aws b2) = true.
Proof.
  intros Hnan H1 H12. unfold _computeWeightNormalizer.
  destruct (d3.sum aws AddressWeight.weight) as [x| | |]; try discriminate Hnan;
    destruct b1 as [y1| | |]; try discriminate H1;
    destruct b2 as [y2| | |]; try discriminate H12; try reflexivity.
  - apply (proj1 (leb_Fin _ _)) in H1, H12. simpl in H1.
    destruct (Num.leb (Finite x) (Finite y1)) eqn:E1.
    + apply (proj1 (leb_Fin _ _)) in E1.
      assert (Num.leb (Finite x) (Finite y2) = true) as -> by (apply leb_Fin; lra).
      reflexivity.
    + apply (proj1 (leb_Fin_false _ _)) in E1.
      assert (~ (x == 0)%Q) as Hx by lra. rewrite (div_Fin y1 x Hx).
      destruct (Num.leb (Finite x) (Finite y2)) eqn:E2.
      * apply (round_le_double _ (Binary64.mk 1 eq_refl)).
        apply Qle_shift_div_r; simpl; lra.
      * rewrite (div_Fin y2 x Hx). apply round_mono.
        unfold Qdiv. apply Qmult_le_compat_r; [exact H12|].
        apply Qlt_le_weak, Qinv_lt_0_compat. lra.
  - apply (proj1 (leb_Fin _ _)) in H1. simpl in H1.
    change (Num.leb (Finite x) PInf) with true. cbv iota.
    destruct (Num.leb (Finite x) (Finite y1)) eqn:E1; [reflexivity|].
    apply (proj1 (leb_Fin_false x y1)) in E1.
    assert (~ (x == 0)%Q) as Hx by lra. rewrite (div_Fin y1 x Hx).
    apply (round_le_double _ (Binary64.mk 1 eq_refl)).
    apply Qle_shift_div_r; simpl; lra.
Qed.

Lemma computeWeightNormalizer_monotone_witness :
  Num.leb (_computeWeightNormalizer [AddressWeight.mk Tests.a1 (Fin 10);
                                     AddressWeight.mk Tests.a2 (Fin 90)] (Fin 10))
          (_computeWeightNormalizer [AddressWeight.mk Tests.a1 (Fin 10);
                                     AddressWeight.mk Tests.a2 (Fin 90)] (Fin 50)) = true.
Proof.
  apply (computeWeightNormalizer_monotone
           [AddressWeight.mk Tests.a1 (Fin 10); AddressWeight.mk Tests.a2 (Fin 90)]
           (Fin 10) (Fin 50)); reflexivity.
Defined.

(** ** Entries in turn, and in another order *)

Section Composition.

(** A list of prefixes without a conflict, cut in two. *)
Lemma anyCommonPrefixes_app_false (l k : list NodeAddressT) :
  _anyCommonPrefixes (l ++ k) = false ->
  _anyCommonPrefixes l = false
  /\ _anyCommonPrefixes k = false
  /\ forall x y, In x l -> In y k -> overlap x y = false.
Proof.
  intros H. split; [|split].
  - apply not_true_iff_false. intros Hl.
    apply anyCommonPrefixes_lookup in Hl as (i & j & x & y & Hne & Hx & Hy & Hov).
    pose proof (anyCommonPrefixes_false_lookup (l ++ k) i j x y H
                  (lookup_app_l_Some _ _ _ _ Hx) (lookup_app_l_Some _ _ _ _ Hy) Hov).
    contradiction.
  - apply not_true_iff_false. intros Hk.
    apply anyCommonPrefixes_lookup in Hk as (i & j & x & y & Hne & Hx & Hy & Hov).
    assert (forall n z, k !! n = Some z -> (l ++ k) !! (length l + n) = Some z) as Hshift.
    { intros n z Hz. rewrite lookup_app_r by lia.
      replace (length l + n - length l) with n by lia. exact Hz. }
    pose proof (anyCommonPrefixes_false_lookup (l ++ k) _ _ x y H
                  (Hshift _ _ Hx) (Hshift _ _ Hy) Hov).
    lia.
  - intros x y Hx Hy. apply not_true_iff_false. intros Hov.
    apply list_elem_of_In, list_elem_of_lookup in Hx as [i Hi], Hy as [j Hj].
    assert ((l ++ k) !! (length l + j) = Some y) as Hj'.
    { rewrite lookup_app_r by lia.
      replace (length l + j - length l) with j by lia. exact Hj. }
    pose proof (anyCommonPrefixes_false_lookup (l ++ k) i _ x y H
                  (lookup_app_l_Some _ _ _ _ Hi) Hj' Hov) as E.
    apply lookup_lt_Some in Hi. lia.
Qed.

(** The records of an entry depend on the table only through the weights
    of the addresses that have the entry's prefix. *)
Lemma bucketReweighting_ext (w1 w2 : Weights.t) (entry : BudgetEntry.t) (bucket : Bucket.t) :
  (forall a, NodeAddress.hasPrefix a (BudgetEntry.prefix entry) = true ->
             nodeWeight w1 a = nodeWeight w2 a) ->
  bucketReweighting w1 entry bucket = bucketReweighting w2 entry bucket.
Proof.
  intros H. unfold bucketReweighting.
  rewrite (map_ext_in (fun a => AddressWeight.mk a (nodeWeight w1 a))
                      (fun a => AddressWeight.mk a (nodeWeight w2 a))); [reflexivity|].
  intros a Ha. apply in_filteredAddresses in Ha as [_ Ha]. rewrite (H a Ha). reflexivity.
Qed.

Lemma reweightingOf_ext (w1 w2 : Weights.t) (partition : GraphIntervalPartition)
    (entries : list BudgetEntry.t) :
  (forall entry a, In entry entries ->
                   NodeAddress.hasPrefix a (BudgetEntry.prefix entry) = true ->
                   nodeWeight w1 a = nodeWeight w2 a) ->
  reweightingOf w1 partition entries = reweightingOf w2 partition entries.
Proof.
  intros H. unfold reweightingOf, entryReweighting. f_equal.
  apply map_ext_in. intros entry Hentry. f_equal.
  apply map_ext_in. intros bucket _. apply bucketReweighting_ext.
  intros a Ha. apply (H entry a Hentry Ha).
Qed.

Lemma reweightingOf_app (w : Weights.t) (partition : GraphIntervalPartition)
    (es1 es2 : list BudgetEntry.t) :
  reweightingOf w partition (es1 ++ es2)
  = reweightingOf w partition es1 ++ reweightingOf w partition es2.
Proof. unfold reweightingOf. rewrite map_app, concat_app. reflexivity. Qed.

Lemma applyReweighting_app (w : Weights.t) (rw1 rw2 : Reweighting) (acc : Weights.t) :
  applyReweighting w (rw1 ++ rw2) acc = applyReweighting w rw2 (applyReweighting w rw1 acc).
Proof. unfold applyReweighting. apply fold_left_app. Qed.

(** The writes depend on the original table only through the weights of
    the addresses of the records. *)
Lemma applyReweighting_ext (w1 w2 : Weights.t) (reweighting : Reweighting) (acc : Weights.t) :
  (forall r, In r reweighting ->
             nodeWeight w1 (Reweight.address r) = nodeWeight w2 (Reweight.address r)) ->
  applyReweighting w1 reweighting acc = applyReweighting w2 reweighting acc.
Proof.
  unfold applyReweighting. revert acc.
  induction reweighting as [|r reweighting IH]; intros acc H; simpl; [reflexivity|].
  unfold newWeight at 2 4. rewrite (H r (or_introl eq_refl)).
  apply IH. intros r' Hr'. apply H. right. exact Hr'.
Qed.

(** An address with the prefix of none of the entries keeps its weight. *)
Lemma applyReweighting_unmatched (w : Weights.t) (partition : GraphIntervalPartition)
    (entries : list BudgetEntry.t) (a : NodeAddressT) :
  (forall entry, In entry entries ->
                 NodeAddress.hasPrefix a (BudgetEntry.prefix entry) = false) ->
  nodeWeight (applyReweighting w (reweightingOf w partition entries) w) a = nodeWeight w a.
Proof.
  intros Hnone. unfold nodeWeight.
  destruct (applyReweighting_lookup_cases w (reweightingOf w partition entries) w a)
    as [->|(r & Hr & Ha & _)]; [reflexivity|].
  apply in_reweightingOf in Hr as (entry & bucket & Hentry & _ & Hr).
  apply in_bucketReweighting in Hr as [Hin _]. rewrite Ha in Hin.
  apply in_filteredAddresses in Hin as [_ Hprefix].
  rewrite (Hnone entry Hentry) in Hprefix. discriminate.
Qed.

(** Writes for distinct addresses can be made in any order. *)
Lemma applyReweighting_Permutation (w : Weights.t) (rw rw' : Reweighting) :
  Permutation rw rw' ->
  NoDup (map Reweight.address rw) ->
  forall acc, applyReweighting w rw acc = applyReweighting w rw' acc.
Proof.
  unfold applyReweighting.
  induction 1 as [|r rw rw' Hperm IH|r1 r2 rw|rw rw' rw'' Hperm1 IH1 Hperm2 IH2];
    intros Hnd acc; simpl.
  - reflexivity.
  - apply IH. simpl in Hnd. apply NoDup_cons in Hnd as [_ Hnd]. exact Hnd.
  - f_equal. unfold Weights.set. simpl. f_equal. apply insert_insert_ne.
    simpl in Hnd. apply NoDup_cons in Hnd as [Hnotin _].
    intros E. apply Hnotin. rewrite E. left.
  - rewrite IH1 by exact Hnd. apply IH2.
    rewrite <- (Permutation_map Reweight.address Hperm1). exact Hnd.
Qed.

Lemma reweightingOf_Permutation (w : Weights.t) (partition : GraphIntervalPartition)
    (entries entries' : list BudgetEntry.t) :
  Permutation entries entries' ->
  Permutation (reweightingOf w partition entries) (reweightingOf w partition entries').
Proof.
  unfold reweightingOf.
  induction 1 as [|e es es' Hperm IH|e1 e2 es|es es' es'' Hperm1 IH1 Hperm2 IH2]; simpl.
  - constructor.
  - apply Permutation_app_head, IH.
  - rewrite !app_assoc. apply Permutation_app_tail, Permutation_app_comm.
  - eapply Permutation_trans; eassumption.
Qed.

End Composition.

(** X13. Entries can be applied in turn: for a weekly policy that passes
    the checks, applying its first entries and then, to the graph that
    comes back, its remaining entries gives the same weight table as
    applying the whole policy at once. *)
Theorem applyBudget_entries_in_turn {Graph : Type}
    (partitionGraph : Graph -> GraphIntervalPartition)
    (wg : WeightedGraphT Graph) (es1 es2 : list BudgetEntry.t) (s : State) (w : Weights.t) :
  heap s !! weights wg = Some w ->
  _anyCommonPrefixes (map BudgetEntry.prefix (es1 ++ es2)) = false ->
  forallb periodsInOrder (es1 ++ es2) = true ->
  exists wg1 s1 wg2 s2 wg' s' w',
    applyBudget partitionGraph wg (Budget.mk es1 "WEEKLY") s = (Ok wg1, s1)
    /\ applyBudget partitionGraph wg1 (Budget.mk es2 "WEEKLY") s1 = (Ok wg2, s2)
    /\ applyBudget partitionGraph wg (Budget.mk (es1 ++ es2) "WEEKLY") s = (Ok wg', s')
    /\ graph wg2 = graph wg'
    /\ heap s2 !! weights wg2 = Some w'
    /\ heap s' !! weights wg' = Some w'.
Proof.
  intros Hw Hconflict Hsorted.
  rewrite map_app in Hconflict.
  destruct (anyCommonPrefixes_app_false _ _ Hconflict) as (Hc1 & Hc2 & Hcross).
  rewrite forallb_app in Hsorted. apply andb_true_iff in Hsorted as [Hs1 Hs2].
  set (partition := partitionGraph (graph wg)).
  set (rw1 := reweightingOf w partition es1).
  set (w1 := applyReweighting w rw1 w).
  pose proof (applyBudget_run partitionGraph wg (Budget.mk es1 "WEEKLY") w s
                Hw Hc1 eq_refl Hs1) as Hrun1.
  simpl in Hrun1. fold partition rw1 w1 in Hrun1.
  set (wg1 := mkWeightedGraph (graph wg) (length (heap s))) in *.
  set (s1 := mkState (heap s ++ [w1])
                     (trace s ++ evaluations partition es1
                              ++ writeEvents (length (heap s)) w rw1)) in *.
  assert (heap s1 !! weights wg1 = Some w1) as Hw1.
  { simpl. apply list_lookup_middle. reflexivity. }
  pose proof (applyBudget_run partitionGraph wg1 (Budget.mk es2 "WEEKLY") w1 s1
                Hw1 Hc2 eq_refl Hs2) as Hrun2.
  simpl in Hrun2. fold partition in Hrun2.
  pose proof (applyBudget_run partitionGraph wg (Budget.mk (es1 ++ es2) "WEEKLY") w s
                Hw) as Hrun.
  simpl in Hrun. rewrite map_app, forallb_app, Hs1, Hs2 in Hrun.
  specialize (Hrun Hconflict eq_refl eq_refl). fold partition in Hrun.
  (* the weights that the entries of [es2] read are those of [w] *)
  assert (forall entry a, In entry es2 ->
            NodeAddress.hasPrefix a (BudgetEntry.prefix entry) = true ->
            nodeWeight w1 a = nodeWeight w a) as Hsame.
  { intros entry a Hentry Ha. apply applyReweighting_unmatched.
    intros entry1 Hentry1. apply not_true_iff_false. intros Ha1.
    pose proof (hasPrefix_common a _ _ Ha1 Ha) as Hov.
    rewrite (Hcross (BudgetEntry.prefix entry1) (BudgetEntry.prefix entry)) in Hov;
      [discriminate | apply in_map; exact Hentry1 | apply in_map; exact Hentry]. }
  assert (reweightingOf w1 partition es2 = reweightingOf w partition es2) as Erw.
  { apply reweightingOf_ext. exact Hsame. }
  rewrite Erw in Hrun2. set (rw2 := reweightingOf w partition es2) in *.
  assert (applyReweighting w1 rw2 w1 = applyReweighting w (rw1 ++ rw2) w) as Etable.
  { rewrite applyReweighting_app. fold w1. apply applyReweighting_ext.
    intros r Hr. apply in_reweightingOf in Hr as (entry & bucket & Hentry & _ & Hr).
    apply in_bucketReweighting in Hr as [Hin _].
    apply in_filteredAddresses in Hin as [_ Hprefix].
    apply (Hsame entry _ Hentry Hprefix). }
  rewrite reweightingOf_app in Hrun. fold rw1 rw2 in Hrun.
  eexists _, _, _, _, _, _, (applyReweighting w (rw1 ++ rw2) w).
  split; [exact Hrun1|]. split; [exact Hrun2|]. split; [exact Hrun|].
  split; [reflexivity|]. split.
  - simpl. rewrite Etable. apply list_lookup_middle. reflexivity.
  - simpl. apply list_lookup_middle. reflexivity.
Qed.

Lemma applyBudget_entries_in_turn_witness :
  exists wg1 s1 wg2 s2 wg' s' w',
    applyBudget Tests.partitionGraph (Tests.weightedGraph Tests.sameWeek)
                (Budget.mk [Tests.entry1] "WEEKLY")
                (Tests.initial (Tests.table (Fin 10) (Fin 90))) = (Ok wg1, s1)
    /\ applyBudget Tests.partitionGraph wg1
                   (Budget.mk [BudgetEntry.mk Tests.a2 [BudgetPeriod.mk NInf (Fin 30)]] "WEEKLY")
                   s1 = (Ok wg2, s2)
    /\ applyBudget Tests.partitionGraph (Tests.weightedGraph Tests.sameWeek)
                   (Budget.mk ([Tests.entry1]
                               ++ [BudgetEntry.mk Tests.a2 [BudgetPeriod.mk NInf (Fin 30)]])
                              "WEEKLY")
                   (Tests.initial (Tests.table (Fin 10) (Fin 90))) = (Ok wg', s')
    /\ graph wg2 = graph wg'
    /\ heap s2 !! weights wg2 = Some w'
    /\ heap s' !! weights wg' = Some w'.
Proof.
  apply (applyBudget_entries_in_turn Tests.partitionGraph (Tests.weightedGraph Tests.sameWeek)
           [Tests.entry1] [BudgetEntry.mk Tests.a2 [BudgetPeriod.mk NInf (Fin 30)]]
           (Tests.initial (Tests.table (Fin 10) (Fin 90))) (Tests.table (Fin 10) (Fin 90)));
    reflexivity.
Defined.

(** X14. The order of the entries does not matter to the weights: for a
    weighted graph whose partition holds every address once and a policy
    that passes the checks, the policy with its entries in another order
    passes them too and gives the same weight table. *)
Theorem applyBudget_entries_permutation {Graph : Type}
    (partitionGraph : Graph -> GraphIntervalPartition)
    (wg : WeightedGraphT Graph) (entries entries' : list BudgetEntry.t)
    (intervalLength : string) (s : State) (w : Weights.t) :
  heap s !! weights wg = Some w ->
  NoDup (partitionAddresses (partitionGraph (graph wg))) ->
  _anyCommonPrefixes (map BudgetEntry.prefix entries) = false ->
  String.eqb intervalLength "WEEKLY" = true ->
  forallb periodsInOrder entries = true ->
  Permutation entries entries' ->
  exists wg1 s1 wg2 s2 w',
    applyBudget partitionGraph wg (Budget.mk entries intervalLength) s = (Ok wg1, s1)
    /\ applyBudget partitionGraph wg (Budget.mk entries' intervalLength) s = (Ok wg2, s2)
    /\ wg1 = wg2
    /\ heap s1 !! weights wg1 = Some w'
    /\ heap s2 !! weights wg2 = Some w'.
Proof.
  intros Hw Hpartition Hconflict Hweekly Hsorted Hperm.
  assert (_anyCommonPrefixes (map BudgetEntry.prefix entries') = false) as Hconflict'.
  { apply not_true_iff_false. intros H.
    assert (map BudgetEntry.prefix entries' ≡ₚ map BudgetEntry.prefix entries) as Hp
      by (apply Permutation_map, Permutation_sym, Hperm).
    rewrite (anyCommonPrefixes_permutation_true _ _ Hp H) in Hconflict. discriminate. }
  assert (forallb periodsInOrder entries' = true) as Hsorted'.
  { apply forallb_forall. intros entry Hentry.
    apply (forallb_In _ _ _ Hsorted). apply (Permutation_in _ (Permutation_sym Hperm) Hentry). }
  pose proof (applyBudget_run partitionGraph wg (Budget.mk entries intervalLength) w s
                Hw Hconflict Hweekly Hsorted) as Hrun1.
  pose proof (applyBudget_run partitionGraph wg (Budget.mk entries' intervalLength) w s
                Hw Hconflict' Hweekly Hsorted') as Hrun2.
  simpl in Hrun1, Hrun2.
  eexists _, _, _, _, _.
  split; [exact Hrun1|]. split; [exact Hrun2|]. split; [reflexivity|]. split.
  - simpl. apply list_lookup_middle. reflexivity.
  - simpl. rewrite (applyReweighting_Permutation w _ _
                      (reweightingOf_Permutation w _ _ _ Hperm)).
    + apply list_lookup_middle. reflexivity.
    + apply reweightingOf_NoDup; assumption.
Qed.

Lemma applyBudget_entries_permutation_witness :
  exists wg1 s1 wg2 s2 w',
    applyBudget Tests.partitionGraph (Tests.weightedGraph Tests.sameWeek)
                (Budget.mk [Tests.entry1; BudgetEntry.mk Tests.a2 [BudgetPeriod.mk NInf (Fin 30)]]
                           "WEEKLY")
                (Tests.initial (Tests.table (Fin 10) (Fin 90))) = (Ok wg1, s1)
    /\ applyBudget Tests.partitionGraph (Tests.weightedGraph Tests.sameWeek)
                   (Budget.mk [BudgetEntry.mk Tests.a2 [BudgetPeriod.mk NInf (Fin 30)]; Tests.entry1]
                              "WEEKLY")
                   (Tests.initial (Tests.table (Fin 10) (Fin 90))) = (Ok wg2, s2)
    /\ wg1 = wg2
    /\ heap s1 !! weights wg1 = Some w'
    /\ heap s2 !! weights wg2 = Some w'.
Proof.
  apply (applyBudget_entries_permutation Tests.partitionGraph
           (Tests.weightedGraph Tests.sameWeek)
           [Tests.entry1; BudgetEntry.mk Tests.a2 [BudgetPeriod.mk NInf (Fin 30)]]
           [BudgetEntry.mk Tests.a2 [BudgetPeriod.mk NInf (Fin 30)]; Tests.entry1]
           "WEEKLY" (Tests.initial (Tests.table (Fin 10) (Fin 90)))
           (Tests.table (Fin 10) (Fin 90)));
    try reflexivity.
  - apply sameWeek_NoDup.
  - apply perm_swap.
Defined.

(** ** Buckets without a budget *)

